(** * Yangson: persistent instance zipper and schema lookups

    A shallow embedding of [yangson/instance.py] and of the parts of
    [yangson/schema.py] that the instance code calls.

    Python objects that the code mutates ([ObjectValue], [ArrayValue]) live
    in an explicit store; every operation is a state transformer that may
    raise a Python exception.  Instance nodes and linked lists are never
    mutated after construction and are plain inductive values. *)

From Stdlib Require Import ZArith String Ascii List Lia Bool.
From stdpp Require Import base list strings.

Set Warnings "-register-all".

Open Scope string_scope.
Open Scope list_scope.
Open Scope Z_scope.

(** ** Exceptions and outcomes *)

Inductive Exception : Type :=
| NonexistentInstance
| InstanceValueError
| NonexistentSchemaNode
| BadSchemaNodeType
| UnexpectedInput (offset : nat)
| EndOfInput (offset : nat)
| KeyError
| IndexError
| TypeError
| ValueError
| AttributeError.

Inductive Result (A : Type) : Type :=
| Ok (a : A)
| Raise (e : Exception).

Arguments Ok {A} a.
Arguments Raise {A} e.

(** ** Values *)

(** Scalars of the instance documents handled here.  Python compares
    [bool] and [int] numerically ([True == 1]). *)
Inductive ScalarValue : Type :=
| SInt (n : Z)
| SStr (s : string)
| SBool (b : bool).

Definition scalar_eq (a b : ScalarValue) : bool :=
  match a, b with
  | SInt x, SInt y => x =? y
  | SStr x, SStr y => String.eqb x y
  | SBool x, SBool y => Bool.eqb x y
  | SInt x, SBool y => x =? (if y then 1 else 0)
  | SBool x, SInt y => (if x then 1 else 0) =? y
  | _, _ => false
  end.

(** Raw (decoded JSON) values: scalars, plain [dict]s and plain [list]s.
    A plain [dict] is kept as its items in insertion order. *)
Inductive RawValue : Type :=
| RScalar (s : ScalarValue)
| RObject (ms : list (string * RawValue))
| RArray (es : list RawValue).

(** Addresses of the store. *)
Abbreviation loc := nat (only parsing).

(** A value held by an instance node: either a reference to a
    [StructuredValue] object of the store, or anything else (which the
    code treats as a scalar: [isinstance(v, StructuredValue)] is false). *)
Inductive Value : Type :=
| Plain (r : RawValue)
| Ref (l : loc).

(** Modelled from the spec: [instvalue.py] is missing.  "Object: mapping
    from instance-name to Value. Insertion order must be preserved";
    "Array: ordered sequence of Value"; "Object and Array carry a
    modification timestamp". *)
Inductive StructuredValue : Type :=
| ObjectValue (members : list (string * Value)) (timestamp : Z)
| ArrayValue (entries : list Value) (timestamp : Z).

Definition sv_timestamp (o : StructuredValue) : Z :=
  match o with
  | ObjectValue _ ts => ts
  | ArrayValue _ ts => ts
  end.

(** ** Python [dict] operations on insertion-ordered items *)

Section Dict.
Context {V : Type}.

Fixpoint dict_get (k : string) (d : list (string * V)) : option V :=
  match d with
  | [] => None
  | (k', v) :: tl => if String.eqb k k' then Some v else dict_get k tl
  end.

Fixpoint dict_remove (k : string) (d : list (string * V)) : list (string * V) :=
  match d with
  | [] => []
  | (k', v) :: tl =>
      if String.eqb k k' then tl else (k', v) :: dict_remove k tl
  end.

(** [d[k] = v]: an existing key keeps its position, a new key is
    appended. *)
Fixpoint dict_set (k : string) (v : V) (d : list (string * V)) : list (string * V) :=
  match d with
  | [] => [(k, v)]
  | (k', v') :: tl =>
      if String.eqb k k' then (k', v) :: tl else (k', v') :: dict_set k v tl
  end.

(** [d.pop(k)]: [None] stands for [KeyError]. *)
Definition dict_pop (k : string) (d : list (string * V)) : option (V * list (string * V)) :=
  match dict_get k d with
  | Some v => Some (v, dict_remove k d)
  | None => None
  end.

Definition dict_keys (d : list (string * V)) : list string := map fst d.
End Dict.

(** ** Python [list] indexing *)

Section PyList.
Context {A : Type}.

(** Position addressed by [l[i]], negative indices counting from the
    tail; [None] stands for [IndexError]. *)
Definition py_index (n : nat) (i : Z) : option nat :=
  let len := Z.of_nat n in
  if (0 <=? i) && (i <? len) then Some (Z.to_nat i)
  else if (i <? 0) && (0 <=? len + i) then Some (Z.to_nat (len + i))
  else None.

Definition list_getitem (l : list A) (i : Z) : option A :=
  match py_index (length l) i with
  | Some p => l !! p
  | None => None
  end.

(** [del l[i]]. *)
Definition list_delitem (l : list A) (i : Z) : option (list A) :=
  match py_index (length l) i with
  | Some p => Some (take p l ++ drop (S p) l)
  | None => None
  end.
End PyList.

(** ** The store and the monad of operations *)

Record State : Type := mkState {
  heap : list StructuredValue;   (* address = position; allocation appends *)
  clock : nat -> Z;              (* successive readings of the wall clock *)
  ticks : nat                    (* readings taken so far *)
}.

(** State transformers that may raise: the outcome and the state at the
    point where the operation ended. *)
Definition ST (S A : Type) : Type := S -> Result A * S.

Definition ret {S A} (a : A) : ST S A := fun s => (Ok a, s).
Definition raise {S A} (e : Exception) : ST S A := fun s => (Raise e, s).
Definition bind {S A B} (m : ST S A) (k : A -> ST S B) : ST S B :=
  fun s => match m s with
           | (Ok a, s') => k a s'
           | (Raise e, s') => (Raise e, s')
           end.
Definition lift {S A} (r : Result A) : ST S A := fun s => (r, s).

Definition M (A : Type) : Type := ST State A.

Notation "x <- m ;; k" := (bind m (fun x => k))
  (at level 100, m at next level, right associativity).

Definition datetime_now : M Z :=
  fun s => (Ok (clock s (ticks s)), mkState (heap s) (clock s) (S (ticks s))).

Definition alloc (o : StructuredValue) : M loc :=
  fun s => (Ok (length (heap s)), mkState (heap s ++ [o]) (clock s) (ticks s)).

Definition store (l : loc) (o : StructuredValue) : M unit :=
  fun s => (Ok tt, mkState (<[l := o]> (heap s)) (clock s) (ticks s)).

(** The object a value refers to, if it is a [StructuredValue]. *)
Definition deref (h : list StructuredValue) (v : Value) : option StructuredValue :=
  match v with
  | Ref l => h !! l
  | Plain _ => None
  end.

Definition structured (v : Value) : M (option StructuredValue) :=
  fun s => (Ok (deref (heap s) v), s).

(** Modelled from the spec: [StructuredValue.copy] of the missing
    [instvalue.py]: a new object of the same class with the same content,
    stamped at creation. *)
Definition copy (o : StructuredValue) : M loc :=
  ts <- datetime_now ;;
  alloc (match o with
         | ObjectValue d _ => ObjectValue d ts
         | ArrayValue es _ => ArrayValue es ts
         end).

(** ** LinkedList *)

Module LinkedList.
Inductive t : Type :=
| EmptyList
| Cell (head : Value) (tail : t).

Definition cons (self : t) (val : Value) : t := Cell val self.

(** [None] stands for the [IndexError] of [EmptyList.pop]. *)
Definition pop (self : t) : option (Value * t) :=
  match self with
  | EmptyList => None
  | Cell h tl => Some (h, tl)
  end.

(** [from_list]: conses the values in reverse order, so the head of the
    result is the first value. *)
Definition from_list (vals : list Value) : t :=
  fold_left cons (rev vals) EmptyList.

(** [list(self)]: [__iter__] pops until [IndexError]. *)
Fixpoint to_list (self : t) : list Value :=
  match self with
  | EmptyList => []
  | Cell n l => n :: to_list l
  end.
End LinkedList.

(** ** Schema nodes ([schema.py]) *)

Inductive NodeClass : Type :=
| InternalNode      (* the bare root of the schema *)
| ContainerNode
| ListNode
| ChoiceNode
| CaseNode
| LeafNode
| LeafListNode
| AnydataNode
| AnyxmlNode.

(** [parent] links are back-edges into the node that lists the receiver
    among its [children]; lookups return the parent next to the child
    instead of storing the back-pointer. *)
Inductive SchemaNode : Type :=
| mkSchemaNode (cls : NodeClass) (name : string) (ns : option string)
    (children : list SchemaNode).

Definition sn_cls (sn : SchemaNode) : NodeClass :=
  match sn with mkSchemaNode c _ _ _ => c end.
Definition sn_name (sn : SchemaNode) : string :=
  match sn with mkSchemaNode _ n _ _ => n end.
Definition sn_ns (sn : SchemaNode) : option string :=
  match sn with mkSchemaNode _ _ n _ => n end.
Definition sn_children (sn : SchemaNode) : list SchemaNode :=
  match sn with mkSchemaNode _ _ _ cs => cs end.

(** [isinstance(c, DataNode)]. *)
Definition is_DataNode (c : NodeClass) : bool :=
  match c with
  | ContainerNode | ListNode | LeafNode | LeafListNode
  | AnydataNode | AnyxmlNode => true
  | InternalNode | ChoiceNode | CaseNode => false
  end.

(** [isinstance(c, InternalNode)]: the classes that have [children] and
    [get_data_child]. *)
Definition is_InternalNode (c : NodeClass) : bool :=
  match c with
  | InternalNode | ContainerNode | ListNode | ChoiceNode | CaseNode => true
  | LeafNode | LeafListNode | AnydataNode | AnyxmlNode => false
  end.

Definition is_choice_or_case (c : NodeClass) : bool :=
  match c with
  | ChoiceNode | CaseNode => true
  | _ => false
  end.

(** Truth value of an optional identifier: [None] and the empty string
    are false. *)
Definition truthy (o : option string) : bool :=
  match o with
  | Some s => negb (String.eqb s EmptyString)
  | None => false
  end.

Definition opt_string_eqb (a b : option string) : bool :=
  match a, b with
  | Some x, Some y => String.eqb x y
  | None, None => true
  | _, _ => false
  end.

(** The second loop of [get_data_child]: the first candidate whose
    lookup finds a node. *)
Fixpoint first_found {A} (l : list (option A)) : option A :=
  match l with
  | [] => None
  | Some a :: _ => Some a
  | None :: tl => first_found tl
  end.

(** [InternalNode.get_data_child].  The result is the pair (parent, child).
    [cands] holds, for every candidate collected by the first loop and in
    the order the list has at the end of it, the outcome of the recursive
    lookup that the second loop performs on that candidate. *)
Fixpoint get_data_child (self : SchemaNode) (name : string) (ns : option string)
  {struct self} : option (SchemaNode * SchemaNode) :=
  match self with
  | mkSchemaNode _ _ self_ns chs =>
      let ns := if truthy ns then ns else self_ns in
      (fix scan (cs : list SchemaNode)
           (cands : list (option (SchemaNode * SchemaNode))) :=
         match cs with
         | [] => first_found cands
         | c :: tl =>
             if String.eqb (sn_name c) name && opt_string_eqb (sn_ns c) ns
             then if is_DataNode (sn_cls c) then Some (self, c)
                  else scan tl (get_data_child c name ns :: cands)
             else if is_choice_or_case (sn_cls c)
                  then scan tl (cands ++ [get_data_child c name ns])
                  else scan tl cands
         end) chs []
  end.

(** [SchemaNode.qname]: the instance name of a node below [parent];
    [ns + ":" + name] needs a namespace that is a string. *)
Definition qname (parent self : SchemaNode) : Result string :=
  if opt_string_eqb (sn_ns self) (sn_ns parent) then Ok (sn_name self)
  else match sn_ns self with
       | Some n => Ok (n +:+ ":" +:+ sn_name self)
       | None => Raise TypeError
       end.

(** [str.partition(":")]. *)
Fixpoint partition_colon (s : string) : string * string * string :=
  match s with
  | EmptyString => (EmptyString, EmptyString, EmptyString)
  | String c tl =>
      if Ascii.eqb c ":"%char then (EmptyString, ":", tl)
      else let '(p, sep, r) := partition_colon tl in (String c p, sep, r)
  end.

(** Modelled from the spec: [SchemaNode._iname2qname] is missing from
    [schema.py].  "Instance name: an object key; module:local at namespace
    crossings, else local"; written like [ObjectMember.qual_name]. *)
Definition _iname2qname (self : SchemaNode) (iname : string) : string * option string :=
  let '(p, s, loc) := partition_colon iname in
  if negb (String.eqb s EmptyString) then (loc, Some p) else (p, sn_ns self).

(** ** Operations on the objects of the store *)

Inductive InstanceKey : Type :=
| KName (name : string)
| KIndex (index : Z).

(** [obj[name] = v]. *)
Definition setitem (l : loc) (name : string) (v : Value) : M unit :=
  o <- structured (Ref l) ;;
  match o with
  | Some (ObjectValue d ts) => store l (ObjectValue (dict_set name v d) ts)
  | _ => raise TypeError
  end.

(** [obj.pop(name)] on an object. *)
Definition pop (l : loc) (name : string) : M Value :=
  o <- structured (Ref l) ;;
  match o with
  | Some (ObjectValue d ts) =>
      match dict_pop name d with
      | Some (v, rest) => _ <- store l (ObjectValue rest ts) ;; ret v
      | None => raise KeyError
      end
  | Some (ArrayValue _ _) => raise TypeError
  | None => raise AttributeError
  end.

(** [del obj[key]]. *)
Definition delitem (l : loc) (key : InstanceKey) : M unit :=
  o <- structured (Ref l) ;;
  match o, key with
  | Some (ObjectValue d ts), KName k =>
      match dict_pop k d with
      | Some (_, rest) => store l (ObjectValue rest ts)
      | None => raise KeyError
      end
  | Some (ObjectValue _ _), KIndex _ => raise KeyError
  | Some (ArrayValue es ts), KIndex i =>
      match list_delitem es i with
      | Some es' => store l (ArrayValue es' ts)
      | None => raise IndexError
      end
  | Some (ArrayValue _ _), KName _ => raise TypeError
  | None, _ => raise TypeError
  end.

(** ** Instance nodes ([instance.py]) *)

Inductive InstanceNode : Type :=
| RootNode (value : Value) (schema_node : SchemaNode) (timestamp : Z)
| ObjectMember (key : string) (siblings : loc) (value : Value)
    (parinst : InstanceNode) (schema_node : SchemaNode) (timestamp : Z)
| ArrayEntry (key : Z) (before after : LinkedList.t) (value : Value)
    (parinst : InstanceNode) (schema_node : SchemaNode) (timestamp : Z).

Definition value (self : InstanceNode) : Value :=
  match self with
  | RootNode v _ _ => v
  | ObjectMember _ _ v _ _ _ => v
  | ArrayEntry _ _ _ v _ _ _ => v
  end.

Definition schema_node (self : InstanceNode) : SchemaNode :=
  match self with
  | RootNode _ sn _ => sn
  | ObjectMember _ _ _ _ sn _ => sn
  | ArrayEntry _ _ _ _ _ sn _ => sn
  end.

Definition timestamp (self : InstanceNode) : Z :=
  match self with
  | RootNode _ _ ts => ts
  | ObjectMember _ _ _ _ _ ts => ts
  | ArrayEntry _ _ _ _ _ _ ts => ts
  end.

Definition parinst (self : InstanceNode) : option InstanceNode :=
  match self with
  | RootNode _ _ _ => None
  | ObjectMember _ _ _ p _ _ => Some p
  | ArrayEntry _ _ _ _ p _ _ => Some p
  end.

Fixpoint path (self : InstanceNode) : list InstanceKey :=
  match self with
  | RootNode _ _ _ => []
  | ObjectMember k _ _ p _ _ => path p ++ [KName k]
  | ArrayEntry k _ _ _ p _ _ => path p ++ [KIndex k]
  end.

(** [ArrayEntry.index], [ArrayEntry.before], [ArrayEntry.after]. *)
Definition index (self : InstanceNode) : option Z :=
  match self with
  | ArrayEntry k _ _ _ _ _ _ => Some k
  | _ => None
  end.

Definition before (self : InstanceNode) : option LinkedList.t :=
  match self with
  | ArrayEntry _ b _ _ _ _ _ => Some b
  | _ => None
  end.

Definition after (self : InstanceNode) : option LinkedList.t :=
  match self with
  | ArrayEntry _ _ a _ _ _ _ => Some a
  | _ => None
  end.

(** [_member_schema_node]; terminal schema nodes have no
    [get_data_child].  For a name without data child the method evaluates
    [NonexistentSchemaNode(self.schema_node, *qname)], three arguments for
    a constructor that takes two ([name] and [ns]): the call fails with
    [TypeError] before anything is raised. *)
Definition _member_schema_node (self : InstanceNode) (name : string)
  : Result SchemaNode :=
  let sn := schema_node self in
  let '(loc, ns) := _iname2qname sn name in
  if is_InternalNode (sn_cls sn) then
    match get_data_child sn loc ns with
    | Some (_, res) => Ok res
    | None => Raise TypeError
    end
  else Raise AttributeError.

(** [_copy] of the three node classes; a [datetime] is always true, so
    [newts] is used whenever it is given. *)
Definition _copy (self : InstanceNode) (newval : Value) (newts : option Z)
  : M InstanceNode :=
  match self with
  | RootNode _ sn _ =>
      match newts with
      | Some ts => ret (RootNode newval sn ts)
      | None =>
          o <- structured newval ;;
          match o with
          | Some sv => ret (RootNode newval sn (sv_timestamp sv))
          | None => raise AttributeError
          end
      end
  | ObjectMember k sibs _ par sn _ =>
      ts <- match newts with
            | Some ts => ret ts
            | None =>
                o <- structured newval ;;
                match o with
                | Some sv => ret (sv_timestamp sv)
                | None => datetime_now
                end
            end ;;
      ret (ObjectMember k sibs newval par sn ts)
  | ArrayEntry k bef aft _ par sn _ =>
      ts <- match newts with
            | Some ts => ret ts
            | None =>
                o <- structured newval ;;
                match o with
                | Some sv => ret (sv_timestamp sv)
                | None => datetime_now
                end
            end ;;
      ret (ArrayEntry k bef aft newval par sn ts)
  end.

(** [_member].  It is called on object-valued receivers only
    ([__getitem__], [put_member]); for any other receiver the failing
    attribute access is recorded.  With an integer [name] the [KeyError]
    handler fails on ["member " + name]. *)
Definition _member (self : InstanceNode) (name : InstanceKey) : M InstanceNode :=
  o <- structured (value self) ;;
  match o with
  | Some (ObjectValue d ts) =>
      sibs <- copy (ObjectValue d ts) ;;
      match name with
      | KIndex _ => raise TypeError
      | KName n =>
          fun s =>
            match pop sibs n s with
            | (Ok v, s') =>
                (csn <- lift (_member_schema_node self n) ;;
                 ret (ObjectMember n sibs v self csn ts)) s'
            | (Raise KeyError, s') => (Raise NonexistentInstance, s')
            | (Raise e, s') => (Raise e, s')
            end
      end
  | _ => raise AttributeError
  end.

(** [_entry].  It is called on array-valued receivers only; the slices
    never fail, [val[index]] raises [IndexError] out of range, and a
    member name as [index] fails on [index < 0] before the [try]. *)
Definition _entry (self : InstanceNode) (index : InstanceKey) : M InstanceNode :=
  o <- structured (value self) ;;
  match o, index with
  | Some (ArrayValue val ts), KIndex index =>
      let i := if index <? 0 then Z.of_nat (length val) + index else index in
      match list_getitem val index with
      | Some v =>
          ret (ArrayEntry i
                 (LinkedList.from_list (take (Z.to_nat i) val))
                 (LinkedList.from_list (drop (S (Z.to_nat i)) val))
                 v self (schema_node self) ts)
      | None => raise NonexistentInstance
      end
  | _, _ => raise TypeError
  end.

(** [__getitem__]. *)
Definition getitem (self : InstanceNode) (key : InstanceKey) : M InstanceNode :=
  o <- structured (value self) ;;
  match o with
  | Some (ObjectValue _ _) => _member self key
  | Some (ArrayValue _ _) => _entry self key
  | None => raise InstanceValueError
  end.

(** [_zip] of [ObjectMember] and [ArrayEntry]; [RootNode] has none. *)
Definition _zip (self : InstanceNode) : M Value :=
  match self with
  | RootNode _ _ _ => raise AttributeError
  | ObjectMember name sibs v _ _ ts =>
      o <- structured (Ref sibs) ;;
      match o with
      | Some (ObjectValue d sts) =>
          c <- copy (ObjectValue d sts) ;;
          res <- alloc (ObjectValue d ts) ;;
          _ <- setitem res name v ;;
          ret (Ref res)
      | _ => raise AttributeError
      end
  | ArrayEntry _ bef aft v _ _ ts =>
      let res := LinkedList.to_list bef in
      let res := rev res in
      let res := res ++ [v] in
      let res := res ++ LinkedList.to_list aft in
      l <- alloc (ArrayValue res ts) ;;
      ret (Ref l)
  end.

(** [up]. *)
Definition up (self : InstanceNode) : M InstanceNode :=
  match parinst self with
  | None => raise NonexistentInstance
  | Some par =>
      let ts := Z.max (timestamp self) (timestamp par) in
      z <- _zip self ;;
      _copy par z (Some ts)
  end.

(** [ArrayEntry.previous] and [ArrayEntry.next]. *)
Definition previous (self : InstanceNode) : Result InstanceNode :=
  match self with
  | ArrayEntry index bef aft v par sn ts =>
      match LinkedList.pop bef with
      | Some (newval, nbef) =>
          Ok (ArrayEntry (index - 1) nbef (LinkedList.cons aft v) newval par sn ts)
      | None => Raise NonexistentInstance
      end
  | _ => Raise AttributeError
  end.

Definition next (self : InstanceNode) : Result InstanceNode :=
  match self with
  | ArrayEntry index bef aft v par sn ts =>
      match LinkedList.pop aft with
      | Some (newval, naft) =>
          Ok (ArrayEntry (index + 1) (LinkedList.cons bef v) naft newval par sn ts)
      | None => Raise NonexistentInstance
      end
  | _ => Raise AttributeError
  end.

(** ** Raw-to-cooked conversion ([schema.py]) *)

(** Modelled from the spec: the constructors and [time_stamp] of the
    missing [instvalue.py]; "all newly created object/array values receive
    a fresh timestamp equal to the current wall-clock". *)
Definition new_ObjectValue : M loc :=
  ts <- datetime_now ;; alloc (ObjectValue [] ts).

Definition new_ArrayValue : M loc :=
  ts <- datetime_now ;; alloc (ArrayValue [] ts).

Definition time_stamp (l : loc) : M unit :=
  ts <- datetime_now ;;
  o <- structured (Ref l) ;;
  match o with
  | Some (ObjectValue d _) => store l (ObjectValue d ts)
  | Some (ArrayValue es _) => store l (ArrayValue es ts)
  | None => raise AttributeError
  end.

(** [arr.append(v)]. *)
Definition append (l : loc) (v : Value) : M unit :=
  o <- structured (Ref l) ;;
  match o with
  | Some (ArrayValue es ts) => store l (ArrayValue (es ++ [v]) ts)
  | _ => raise AttributeError
  end.

Definition chars (s : string) : list string :=
  map (fun c => String c EmptyString) (list_ascii_of_string s).

(** [for x in val] over a raw value: the entries of a list, the keys of a
    dict, the characters of a string. *)
Definition raw_iter (val : RawValue) : Result (list RawValue) :=
  match val with
  | RArray es => Ok es
  | RObject ms => Ok (map (fun m => RScalar (SStr (fst m))) ms)
  | RScalar (SStr s) => Ok (map (fun c => RScalar (SStr c)) (chars s))
  | RScalar _ => Raise TypeError
  end.

(** The namespace and local name that [InternalNode.from_raw] derives
    from a raw key. *)
Definition raw_key (qn : string) (ns : option string) : string * option string :=
  let '(p, s, loc) := partition_colon qn in
  if negb (String.eqb s EmptyString) then (loc, Some p) else (p, ns).

(** [InternalNode.from_raw].  [rec cn v] is [cn.from_raw(v)].  The child
    returned by [get_data_child] is used without a test for [None], so a
    key with no data child fails on the attribute access [cn.from_raw].
    When [val] is not a dict, the first iteration already fails: on
    [qn.partition] for a key that is no string, on [cn.from_raw] or on
    [val[qn]] otherwise. *)
Definition InternalNode_from_raw (rec : SchemaNode -> RawValue -> M Value)
  (self : SchemaNode) (val : RawValue) (ns : option string) : M Value :=
  res <- new_ObjectValue ;;
  _ <- match val with
       | RObject ms =>
           (fix loop (ms : list (string * RawValue)) (ns : option string)
              : M unit :=
              match ms with
              | [] => ret tt
              | (qn, v) :: tl =>
                  let '(loc, ns) := raw_key qn ns in
                  match get_data_child self loc ns with
                  | None => raise AttributeError
                  | Some (parent, cn) =>
                      r <- rec cn v ;;
                      k <- lift (qname parent cn) ;;
                      _ <- setitem res k r ;;
                      loop tl ns
                  end
              end) ms ns
       | _ =>
           qns <- lift (raw_iter val) ;;
           match qns with
           | [] => ret tt
           | RScalar (SStr qn) :: _ =>
               let '(loc, ns) := raw_key qn ns in
               match get_data_child self loc ns with
               | None => raise AttributeError
               | Some _ => raise TypeError
               end
           | _ :: _ => raise AttributeError
           end
       end ;;
  _ <- time_stamp res ;;
  ret (Ref res).

(** [for a in l: body(a)]. *)
Fixpoint for_each {A} (body : A -> M unit) (l : list A) : M unit :=
  match l with
  | [] => ret tt
  | a :: tl => _ <- body a ;; for_each body tl
  end.

(** [from_raw], dispatched on the class of the receiver:
    [TerminalNode.from_raw] returns the raw value as it is;
    [LeafListNode.from_raw] and [ListNode.from_raw] map the superclass
    method over the entries; every other class inherits
    [InternalNode.from_raw].  A child decodes its member with the default
    [ns = None]. *)
Fixpoint from_raw (self : SchemaNode) (val : RawValue) (ns : option string)
  {struct val} : M Value :=
  match sn_cls self with
  | LeafNode | AnydataNode | AnyxmlNode => ret (Plain val)
  | LeafListNode =>
      res <- new_ArrayValue ;;
      ens <- lift (raw_iter val) ;;
      _ <- for_each (fun en => append res (Plain en)) ens ;;
      _ <- time_stamp res ;;
      ret (Ref res)
  | ListNode =>
      res <- new_ArrayValue ;;
      _ <- match val with
           | RArray es =>
               for_each
                 (fun en =>
                    r <- InternalNode_from_raw
                           (fun cn v => from_raw cn v None) self en ns ;;
                    append res r) es
           | _ =>
               (* the entries are strings: no member value is decoded *)
               ens <- lift (raw_iter val) ;;
               for_each
                 (fun en =>
                    r <- InternalNode_from_raw
                           (fun _ _ => raise TypeError) self en ns ;;
                    append res r) ens
           end ;;
      _ <- time_stamp res ;;
      ret (Ref res)
  | InternalNode | ContainerNode | ChoiceNode | CaseNode =>
      InternalNode_from_raw (fun cn v => from_raw cn v None) self val ns
  end.

(** ** Mutation ([instance.py]) *)

(** The pair of arguments [(value, raw)]: a cooked value with
    [raw = False], or a raw value with [raw = True]. *)
Inductive NewValue : Type :=
| Cooked (value : Value)
| RawInput (value : RawValue).

(** [sn.from_raw(value) if raw else value]. *)
Definition decode (sn : SchemaNode) (value_raw : NewValue) : M Value :=
  match value_raw with
  | RawInput r => from_raw sn r None
  | Cooked v => ret v
  end.

(** [put_member]. *)
Definition put_member (self : InstanceNode) (name : string) (value_raw : NewValue)
  : M InstanceNode :=
  o <- structured (value self) ;;
  match o with
  | Some (ObjectValue d ts) =>
      csn <- lift (_member_schema_node self name) ;;
      newval <- copy (ObjectValue d ts) ;;
      v <- decode csn value_raw ;;
      _ <- setitem newval name v ;;
      c <- _copy self (Ref newval) None ;;
      _member c (KName name)
  | _ => raise InstanceValueError
  end.

(** [delete_item].  The handler builds its message with ["item " + key],
    which is defined for a member name only. *)
Definition delete_item (self : InstanceNode) (key : InstanceKey) : M InstanceNode :=
  o <- structured (value self) ;;
  match o with
  | Some sv =>
      newval <- copy sv ;;
      fun s =>
        match delitem newval key s with
        | (Ok _, s') => _copy self (Ref newval) None s'
        | (Raise e, s') =>
            match e with
            | KeyError | IndexError | TypeError =>
                match key with
                | KName _ => (Raise NonexistentInstance, s')
                | KIndex _ => (Raise TypeError, s')
                end
            | _ => (Raise e, s')
            end
        end
  | None => raise InstanceValueError
  end.

(** Modelled from the spec: [SequenceNode] is missing from [schema.py].
    "Decode via the schema node whose from_raw produces an individual
    entry value": the superclass method that [ListNode.from_raw] and
    [LeafListNode.from_raw] apply to each entry. *)
Definition _cook_value (self : InstanceNode) (value_raw : NewValue) : M Value :=
  match value_raw with
  | Cooked v => ret v
  | RawInput r =>
      match sn_cls (schema_node self) with
      | ListNode =>
          InternalNode_from_raw (fun cn v => from_raw cn v None)
            (schema_node self) r None
      | LeafListNode => ret (Plain r)
      | _ => raise TypeError
      end
  end.

(** [update] of [InstanceNode] and its override in [ArrayEntry]. *)
Definition update (self : InstanceNode) (value_raw : NewValue) : M InstanceNode :=
  newval <- match self with
            | ArrayEntry _ _ _ _ _ _ _ => _cook_value self value_raw
            | _ => decode (schema_node self) value_raw
            end ;;
  _copy self newval None.

(** [ArrayEntry.insert_before] and [ArrayEntry.insert_after]. *)
Definition insert_before (self : InstanceNode) (value_raw : NewValue)
  : M InstanceNode :=
  match self with
  | ArrayEntry index bef aft v par sn _ =>
      newval <- _cook_value self value_raw ;;
      now <- datetime_now ;;
      ret (ArrayEntry index bef (LinkedList.cons aft v) newval par sn now)
  | _ => raise AttributeError
  end.

Definition insert_after (self : InstanceNode) (value_raw : NewValue)
  : M InstanceNode :=
  match self with
  | ArrayEntry index bef aft v par sn _ =>
      newval <- _cook_value self value_raw ;;
      now <- datetime_now ;;
      ret (ArrayEntry index (LinkedList.cons bef v) aft newval par sn now)
  | _ => raise AttributeError
  end.

(** ** Iteration *)

(** The generator [it()] of [InstanceNode.__iter__]: not started,
    suspended at its [yield] with the entry just yielded, or finished.
    [raise StopIteration] inside the generator ends the iteration (the
    semantics of the Python versions the code was written for). *)
Inductive EntryGenerator : Type :=
| GenStart (self : InstanceNode)
| GenSuspended (en : InstanceNode)
| GenDone.

(** One [__next__] of the generator; [None] is the end of the
    iteration. *)
Definition gen_next (g : EntryGenerator) : M (option InstanceNode * EntryGenerator) :=
  match g with
  | GenStart self =>
      fun s =>
        match getitem self (KIndex 0) s with
        | (Ok en, s') => (Ok (Some en, GenSuspended en), s')
        | (Raise NonexistentInstance, s') => (Ok (None, GenDone), s')
        | (Raise e, s') => (Raise e, s')
        end
  | GenSuspended en =>
      match next en with
      | Ok en' => ret (Some en', GenSuspended en')
      | Raise NonexistentInstance => ret (None, GenDone)
      | Raise e => raise e
      end
  | GenDone => ret (None, GenDone)
  end.

Inductive Iterator : Type :=
| EntryIter (g : EntryGenerator)
| KeyIter (names : list string).

(** [__iter__]. *)
Definition iter (self : InstanceNode) : M Iterator :=
  o <- structured (value self) ;;
  match o with
  | Some (ArrayValue _ _) => ret (EntryIter (GenStart self))
  | Some (ObjectValue d _) => ret (KeyIter (dict_keys d))
  | None => raise InstanceValueError
  end.

(** Draining a generator: at most [fuel] calls of [__next__]; [None] when
    the generator has not finished by then. *)
Fixpoint drain (fuel : nat) (g : EntryGenerator) : M (option (list InstanceNode)) :=
  match fuel with
  | O => ret None
  | S fuel =>
      r <- gen_next g ;;
      match r with
      | (None, _) => ret (Some [])
      | (Some en, g') =>
          rest <- drain fuel g' ;;
          ret (option_map (fun l => en :: l) rest)
      end
  end.

(** ** Route selectors *)

Inductive InstanceSelector : Type :=
| MemberName (key : string)
| EntryIndex (key : Z)
| EntryValue (value : ScalarValue)
| EntryKeys (keys : list (string * ScalarValue)).

(** [v == s] for a scalar [s]: objects and arrays never equal a scalar. *)
Definition value_eq_scalar (v : Value) (s : ScalarValue) : bool :=
  match v with
  | Plain (RScalar s') => scalar_eq s' s
  | _ => false
  end.

(** [s[i]] on a string. *)
Definition str_getitem (s : string) (i : Z) : option string :=
  match py_index (String.length s) i with
  | Some p => option_map (fun c => String c EmptyString) (String.get p s)
  | None => None
  end.

(** [val[key]] for any value and key, with the exception Python raises
    when there is no such item. *)
Definition subscript (h : list StructuredValue) (val : Value) (key : InstanceKey)
  : Result Value :=
  match val, key with
  | Ref l, _ =>
      match h !! l, key with
      | Some (ObjectValue d _), KName k =>
          match dict_get k d with Some v => Ok v | None => Raise KeyError end
      | Some (ObjectValue _ _), KIndex _ => Raise KeyError
      | Some (ArrayValue es _), KIndex i =>
          match list_getitem es i with Some v => Ok v | None => Raise IndexError end
      | Some (ArrayValue _ _), KName _ => Raise TypeError
      | None, _ => Raise TypeError
      end
  | Plain (RObject ms), KName k =>
      match dict_get k ms with Some r => Ok (Plain r) | None => Raise KeyError end
  | Plain (RObject _), KIndex _ => Raise KeyError
  | Plain (RArray es), KIndex i =>
      match list_getitem es i with Some r => Ok (Plain r) | None => Raise IndexError end
  | Plain (RArray _), KName _ => Raise TypeError
  | Plain (RScalar (SStr s)), KIndex i =>
      match str_getitem s i with
      | Some c => Ok (Plain (RScalar (SStr c)))
      | None => Raise IndexError
      end
  | Plain (RScalar _), _ => Raise TypeError
  end.

(** [for en in arr] over any value. *)
Definition value_iter (h : list StructuredValue) (arr : Value) : Result (list Value) :=
  match arr with
  | Ref l =>
      match h !! l with
      | Some (ArrayValue es _) => Ok es
      | Some (ObjectValue d _) =>
          Ok (map (fun k => Plain (RScalar (SStr k))) (dict_keys d))
      | None => Raise TypeError
      end
  | Plain r =>
      match raw_iter r with
      | Ok rs => Ok (map Plain rs)
      | Raise e => Raise e
      end
  end.

(** Position of the first element equal to [x]: [list.index]. *)
Fixpoint find_index {A} (eq : A -> bool) (l : list A) : option nat :=
  match l with
  | [] => None
  | a :: tl => if eq a then Some O else option_map S (find_index eq tl)
  end.

(** The inner loop of [EntryKeys.peek_step]: [flag] after comparing the
    keys of one entry; [en[k]] may raise. *)
Fixpoint keys_match (h : list StructuredValue) (en : Value)
  (keys : list (string * ScalarValue)) : Result bool :=
  match keys with
  | [] => Ok true
  | (k, kv) :: tl =>
      match subscript h en (KName k) with
      | Raise e => Raise e
      | Ok v => if negb (value_eq_scalar v kv) then Ok false
                else keys_match h en tl
      end
  end.

Fixpoint first_match (h : list StructuredValue) (ens : list Value)
  (keys : list (string * ScalarValue)) : Result (option Value) :=
  match ens with
  | [] => Ok None
  | en :: tl =>
      match keys_match h en keys with
      | Raise e => Raise e
      | Ok true => Ok (Some en)
      | Ok false => first_match h tl keys
      end
  end.

(** [peek_step] of the four selector classes.  [MemberName] and
    [EntryIndex] inherit [InstanceSelector.peek_step], which turns
    [IndexError], [KeyError] and [TypeError] into [None];
    [EntryValue.peek_step] catches [ValueError] only and
    [EntryKeys.peek_step] catches nothing. *)
Definition peek_step (h : list StructuredValue) (sel : InstanceSelector)
  (val : Value) : Result (option Value) :=
  match sel with
  | MemberName key =>
      match subscript h val (KName key) with
      | Ok v => Ok (Some v)
      | Raise IndexError | Raise KeyError | Raise TypeError => Ok None
      | Raise e => Raise e
      end
  | EntryIndex key =>
      match subscript h val (KIndex key) with
      | Ok v => Ok (Some v)
      | Raise IndexError | Raise KeyError | Raise TypeError => Ok None
      | Raise e => Raise e
      end
  | EntryValue value =>
      match val with
      | Ref l =>
          match h !! l with
          | Some (ArrayValue es _) =>
              match find_index (fun e => value_eq_scalar e value) es with
              | Some i =>
                  match es !! i with Some v => Ok (Some v) | None => Raise IndexError end
              | None => Ok None
              end
          | _ => Raise AttributeError
          end
      | Plain (RArray es) =>
          match find_index (fun e => value_eq_scalar (Plain e) value) es with
          | Some i =>
              match es !! i with Some r => Ok (Some (Plain r)) | None => Raise IndexError end
          | None => Ok None
          end
      | Plain (RScalar (SStr s)) =>
          match value with
          | SStr sub =>
              match String.index 0 sub s with
              | Some i =>
                  match String.get i s with
                  | Some c => Ok (Some (Plain (RScalar (SStr (String c EmptyString)))))
                  | None => Raise IndexError
                  end
              | None => Ok None
              end
          | _ => Raise TypeError
          end
      | Plain _ => Raise AttributeError
      end
  | EntryKeys keys =>
      match value_iter h val with
      | Raise e => Raise e
      | Ok ens => first_match h ens keys
      end
  end.

(** [InstanceNode.peek]. *)
Fixpoint peek_from (h : list StructuredValue) (val : Value)
  (iroute : list InstanceSelector) : Result (option Value) :=
  match iroute with
  | [] => Ok (Some val)
  | sel :: tl =>
      match peek_step h sel val with
      | Raise e => Raise e
      | Ok None => Ok None
      | Ok (Some v) => peek_from h v tl
      end
  end.

Definition peek (self : InstanceNode) (iroute : list InstanceSelector)
  : M (option Value) :=
  fun s => (peek_from (heap s) (value self) iroute, s).

(** ** Instance-identifier parser *)

(** Modelled from the spec: the base class [Parser] of the missing
    [parser.py].  The state is the unread input, [input[offset:]], and the
    offset.  "Whitespace around = and inside brackets is ignored";
    "malformed input raises unexpected-input with the offending offset". *)
Record Parser : Type := mkParser {
  rest : list ascii;
  offset : nat
}.

Definition P (A : Type) : Type := ST Parser A.

Definition is_digit (c : ascii) : bool :=
  ((48 <=? nat_of_ascii c) && (nat_of_ascii c <=? 57))%nat.

Definition is_alpha (c : ascii) : bool :=
  (((65 <=? nat_of_ascii c) && (nat_of_ascii c <=? 90))
   || ((97 <=? nat_of_ascii c) && (nat_of_ascii c <=? 122)))%nat.

Definition is_ident_start (c : ascii) : bool :=
  is_alpha c || Ascii.eqb c "_".

Definition is_ident_char (c : ascii) : bool :=
  is_alpha c || is_digit c || Ascii.eqb c "_" || Ascii.eqb c "." || Ascii.eqb c "-".

Definition is_ws (c : ascii) : bool :=
  Ascii.eqb c " " || Ascii.eqb c "009" || Ascii.eqb c "010" || Ascii.eqb c "013".

Fixpoint span (p : ascii -> bool) (l : list ascii) : list ascii * list ascii :=
  match l with
  | [] => ([], [])
  | c :: tl =>
      if p c then let '(a, b) := span p tl in (c :: a, b) else ([], l)
  end.

Definition advance (n : nat) : P unit :=
  fun st => (Ok tt, mkParser (drop n (rest st)) (offset st + n)%nat).

Definition at_end : P bool :=
  fun st => (Ok (match rest st with [] => true | _ => false end), st).

Definition peek_char : P ascii :=
  fun st => match rest st with
            | [] => (Raise (EndOfInput (offset st)), st)
            | c :: _ => (Ok c, st)
            end.

Definition char (c : ascii) : P unit :=
  x <- peek_char ;;
  if Ascii.eqb x c then advance 1
  else fun st => (Raise (UnexpectedInput (offset st)), st).

Definition one_of (chset : list ascii) : P ascii :=
  x <- peek_char ;;
  if existsb (Ascii.eqb x) chset then _ <- advance 1 ;; ret x
  else fun st => (Raise (UnexpectedInput (offset st)), st).

Definition skip_ws : P unit :=
  fun st => advance (length (fst (span is_ws (rest st)))) st.

(** Value of a run of decimal digits, most significant first. *)
Definition digits_value (ds : list ascii) : Z :=
  fold_left (fun acc c => 10 * acc + (Z.of_nat (nat_of_ascii c) - 48)) ds 0.

Definition unsigned_integer : P Z :=
  fun st =>
    match fst (span is_digit (rest st)) with
    | [] => (Raise (UnexpectedInput (offset st)), st)
    | ds => (_ <- advance (length ds) ;; ret (digits_value ds)) st
    end.

Definition yang_identifier : P string :=
  fun st =>
    match rest st with
    | c :: tl =>
        if is_ident_start c then
          let body := fst (span is_ident_char tl) in
          (_ <- advance (S (length body)) ;;
           ret (string_of_list_ascii (c :: body))) st
        else (Raise (UnexpectedInput (offset st)), st)
    | [] => (Raise (EndOfInput (offset st)), st)
    end.

Definition prefixed_name : P (string * option string) :=
  i1 <- yang_identifier ;;
  fun st =>
    match peek_char st with
    | (Ok next, _) =>
        if Ascii.eqb next ":" then
          (_ <- advance 1 ;; i2 <- yang_identifier ;; ret (i2, Some i1)) st
        else (Ok (i1, None), st)
    | (Raise _, _) => (Ok (i1, None), st)
    end.

(** [up_to(term)]: the text before the next [term], which is consumed. *)
Definition up_to (term : ascii) : P string :=
  fun st =>
    let '(a, b) := span (fun c => negb (Ascii.eqb c term)) (rest st) in
    match b with
    | [] => (Raise (EndOfInput (offset st)), st)
    | _ :: _ => (_ <- advance (S (length a)) ;; ret (string_of_list_ascii a)) st
    end.

Definition InstanceRoute : Type := list InstanceSelector.

Section InstanceIdParser.

(** [tn.type.parse_value] of the missing [datatype.py]. *)
Variable parse_value : SchemaNode -> string -> Result ScalarValue.

(** [tn.type]: [DataNode.type] raises for a node that is not terminal. *)
Definition type_parse_value (tn : SchemaNode) (text : string) : Result ScalarValue :=
  match sn_cls tn with
  | LeafNode | LeafListNode | AnydataNode | AnyxmlNode => parse_value tn text
  | _ => Raise BadSchemaNodeType
  end.

(** [sn.get_data_child(name, ns)] as a method call: only the internal
    classes have the method. *)
Definition call_get_data_child (sn : SchemaNode) (name : string) (ns : option string)
  : Result (option (SchemaNode * SchemaNode)) :=
  if is_InternalNode (sn_cls sn) then Ok (get_data_child sn name ns)
  else Raise AttributeError.

(** [InstancePathParser._member_name].  Modelled from the spec: [iname()]
    is missing from [schema.py]; the instance name is "module:loc iff the
    namespace differs from parent, else loc", which is [qname].  For a name
    without data child the method evaluates
    [NonexistentSchemaNode(sn, name, ns)], three arguments for a
    constructor that takes two: the call fails with [TypeError]. *)
Definition _member_name (sn : SchemaNode) : P (InstanceSelector * SchemaNode) :=
  nm <- prefixed_name ;;
  let '(name, ns) := nm in
  r <- lift (call_get_data_child sn name (if truthy ns then ns else sn_ns sn)) ;;
  match r with
  | None => raise TypeError
  | Some (parent, cn) =>
      iname <- lift (qname parent cn) ;;
      ret (MemberName iname, cn)
  end.

Definition quotes : list ascii := ["'"%char; ascii_of_nat 34].

(** [InstanceIdParser._get_value]; [tn] is [None] when the key is not a
    data child of the list. *)
Definition _get_value (tn : option SchemaNode) : P ScalarValue :=
  _ <- skip_ws ;;
  _ <- char "=" ;;
  _ <- skip_ws ;;
  quote <- one_of quotes ;;
  val <- up_to quote ;;
  _ <- skip_ws ;;
  _ <- char "]" ;;
  match tn with
  | Some tn => lift (type_parse_value tn val)
  | None => raise AttributeError
  end.

(** [InstanceIdParser._key_predicates]; [None] when [fuel] iterations did
    not end the loop. *)
Fixpoint _key_predicates (fuel : nat) (sn : SchemaNode)
  (sel : list (string * ScalarValue)) : P (option InstanceSelector) :=
  match fuel with
  | O => ret None
  | S fuel =>
      nm <- prefixed_name ;;
      let '(name, ns) := nm in
      knod <- lift (call_get_data_child sn name ns) ;;
      val <- _get_value (option_map snd knod) ;;
      match knod with
      | None => raise AttributeError
      | Some (parent, kn) =>
          iname <- lift (qname parent kn) ;;
          let sel := dict_set iname val sel in
          fun st =>
            match peek_char st with
            | (Ok next, _) =>
                if Ascii.eqb next "[" then
                  (_ <- advance 1 ;; _ <- skip_ws ;; _key_predicates fuel sn sel) st
                else (Ok (Some (EntryKeys sel)), st)
            | (Raise _, _) => (Ok (Some (EntryKeys sel)), st)
            end
      end
  end.

(** The loop of [InstanceIdParser.parse]: [sn] is the current schema node
    and [res] the route so far; [None] when [fuel] iterations did not end
    the loop. *)
Fixpoint parse_loop (fuel : nat) (sn : SchemaNode) (res : InstanceRoute)
  : P (option InstanceRoute) :=
  match fuel with
  | O => ret None
  | S fuel =>
      _ <- char "/" ;;
      m <- _member_name sn ;;
      let '(mnam, cn) := m in
      let res := res ++ [mnam] in
      fun st =>
        match peek_char st with
        | (Raise _, _) => (Ok (Some res), st)
        | (Ok next, _) =>
            if Ascii.eqb next "[" then
              (_ <- advance 1 ;;
               _ <- skip_ws ;;
               c <- peek_char ;;
               sel <- (if is_digit c then
                         n <- unsigned_integer ;;
                         let ind := n - 1 in
                         if ind <? 0 then
                           fun st => (Raise (UnexpectedInput (offset st)), st)
                         else
                           _ <- skip_ws ;;
                           _ <- char "]" ;;
                           ret (Some (EntryIndex ind))
                       else
                         match sn_cls cn with
                         | LeafListNode =>
                             _ <- char "." ;;
                             v <- _get_value (Some cn) ;;
                             ret (Some (EntryValue v))
                         | _ =>
                             fun st => _key_predicates (S (length (rest st))) cn [] st
                         end) ;;
               match sel with
               | None => ret None
               | Some sel =>
                   let res := res ++ [sel] in
                   e <- at_end ;;
                   if e then ret (Some res) else parse_loop fuel cn res
               end) st
            else parse_loop fuel cn res st
        end
  end.

(** [InstanceIdParser(text).parse()] with [Context.schema = schema]: every
    iteration of the loop consumes a slash, so one more iteration than the
    input has characters always suffices. *)
Definition InstanceIdParser_parse (schema : SchemaNode) (text : string)
  : Result (option InstanceRoute) :=
  let input := list_ascii_of_string text in
  fst (parse_loop (S (length input)) schema [] (mkParser input 0)).

End InstanceIdParser.

(** * Further operations *)

(** ** Moves between members and entries ([instance.py]) *)

(** [ObjectMember.sibling]; the other node classes have no such
    method. *)
Definition sibling (self : InstanceNode) (name : string) : M InstanceNode :=
  match self with
  | ObjectMember k sibs v par sn ts =>
      ssn <- lift (_member_schema_node par name) ;;
      o <- structured (Ref sibs) ;;
      match o with
      | Some (ObjectValue d sts) =>
          c <- copy (ObjectValue d sts) ;;
          fun s =>
            match pop c name s with
            | (Ok newval, s') =>
                (_ <- setitem c k v ;;
                 ret (ObjectMember name c newval par ssn ts)) s'
            | (Raise KeyError, s') => (Raise NonexistentInstance, s')
            | (Raise e, s') => (Raise e, s')
            end
      | _ => raise AttributeError
      end
  | _ => raise AttributeError
  end.


(** The number of ancestors of a node. *)
Fixpoint depth (self : InstanceNode) : nat :=
  match self with
  | RootNode _ _ _ => O
  | ObjectMember _ _ _ par _ _ => S (depth par)
  | ArrayEntry _ _ _ _ par _ _ => S (depth par)
  end.

(** The scan of [look_up]: the position of the first entry whose members
    equal all the keys. *)
Fixpoint first_match_index (h : list StructuredValue) (ens : list Value)
  (keys : list (string * ScalarValue)) : Result (option nat) :=
  match ens with
  | [] => Ok None
  | en :: tl =>
      match keys_match h en keys with
      | Raise e => Raise e
      | Ok true => Ok (Some O)
      | Ok false =>
          match first_match_index h tl keys with
          | Ok o => Ok (option_map S o)
          | Raise e => Raise e
          end
      end
  end.

(** [look_up]: a [KeyError] of the scan becomes [NonexistentInstance], a
    [TypeError] becomes [InstanceValueError]. *)
Definition look_up (self : InstanceNode) (keys : list (string * ScalarValue))
  : M InstanceNode :=
  o <- structured (value self) ;;
  match o with
  | Some (ArrayValue es _) =>
      fun s =>
        match first_match_index (heap s) es keys with
        | Ok (Some i) => _entry self (KIndex (Z.of_nat i)) s
        | Ok None => (Raise NonexistentInstance, s)
        | Raise KeyError => (Raise NonexistentInstance, s)
        | Raise TypeError => (Raise InstanceValueError, s)
        | Raise e => (Raise e, s)
        end
  | _ => raise InstanceValueError
  end.

(** [goto_step] of the four selector classes.  [EntryValue.goto_step]
    calls [inst.value.index], which only lists and strings have; on a
    plain list or string the entry found is then refused by [_entry],
    whose [val.timestamp] does not exist. *)
Definition goto_step (sel : InstanceSelector) (inst : InstanceNode) : M InstanceNode :=
  match sel with
  | MemberName key => getitem inst (KName key)
  | EntryIndex key => getitem inst (KIndex key)
  | EntryKeys keys => look_up inst keys
  | EntryValue val =>
      match value inst with
      | Ref l =>
          o <- structured (Ref l) ;;
          match o with
          | Some (ArrayValue es _) =>
              match find_index (fun e => value_eq_scalar e val) es with
              | Some i => _entry inst (KIndex (Z.of_nat i))
              | None => raise NonexistentInstance
              end
          | _ => raise AttributeError
          end
      | Plain (RArray es) =>
          match find_index (fun e => value_eq_scalar (Plain e) val) es with
          | Some _ => raise AttributeError
          | None => raise NonexistentInstance
          end
      | Plain (RScalar (SStr s)) =>
          match val with
          | SStr sub =>
              match String.index 0 sub s with
              | Some _ => raise AttributeError
              | None => raise NonexistentInstance
              end
          | _ => raise TypeError
          end
      | Plain _ => raise AttributeError
      end
  end.

(** [goto]. *)
Fixpoint goto (self : InstanceNode) (iroute : list InstanceSelector) : M InstanceNode :=
  match iroute with
  | [] => ret self
  | sel :: tl => inst <- goto_step sel self ;; goto inst tl
  end.

(** [qual_name] of [ObjectMember] and [ArrayEntry]; [RootNode] has
    none. *)
Fixpoint qual_name (self : InstanceNode) : Result (string * option string) :=
  match self with
  | RootNode _ _ _ => Raise AttributeError
  | ObjectMember k _ _ _ sn _ =>
      let '(p, s, loc) := partition_colon k in
      Ok (if negb (String.eqb s EmptyString) then (loc, Some p) else (p, sn_ns sn))
  | ArrayEntry _ _ _ _ par _ _ => qual_name par
  end.

Definition qual_name_eqb (a b : string * option string) : bool :=
  String.eqb (fst a) (fst b) && opt_string_eqb (snd a) (snd b).

(** [qname and self.qual_name != qname]; a qualified name is a pair and
    so always true. *)
Definition other_name (self : InstanceNode) (qname : option (string * option string))
  : Result bool :=
  match qname with
  | None => Ok false
  | Some q =>
      match qual_name self with
      | Ok q' => Ok (negb (qual_name_eqb q' q))
      | Raise e => Raise e
      end
  end.

(** [for _ in l: en = step(en); res.append(en)]. *)
Fixpoint walk (step : InstanceNode -> Result InstanceNode) (l : list Value)
  (en : InstanceNode) : Result (list InstanceNode) :=
  match l with
  | [] => Ok []
  | _ :: tl =>
      match step en with
      | Raise e => Raise e
      | Ok en' =>
          match walk step tl en' with
          | Ok res => Ok (en' :: res)
          | Raise e => Raise e
          end
      end
  end.

(** [_preceding_siblings] and [_following_siblings]: empty in
    [InstanceNode], overridden in [ArrayEntry]. *)
Definition _preceding_siblings (self : InstanceNode)
  (qname : option (string * option string)) : Result (list InstanceNode) :=
  match self with
  | ArrayEntry _ bef _ _ _ _ _ =>
      match other_name self qname with
      | Raise e => Raise e
      | Ok true => Ok []
      | Ok false => walk previous (LinkedList.to_list bef) self
      end
  | _ => Ok []
  end.

Definition _following_siblings (self : InstanceNode)
  (qname : option (string * option string)) : Result (list InstanceNode) :=
  match self with
  | ArrayEntry _ _ aft _ _ _ _ =>
      match other_name self qname with
      | Raise e => Raise e
      | Ok true => Ok []
      | Ok false => walk next (LinkedList.to_list aft) self
      end
  | _ => Ok []
  end.

(** ** Children and change sets ([schema.py]) *)

(** [InternalNode.get_child]. *)
Definition get_child (self : SchemaNode) (name : string) (ns : option string)
  : option SchemaNode :=
  let ns := if truthy ns then ns else sn_ns self in
  List.find (fun c => String.eqb (sn_name c) name && opt_string_eqb (sn_ns c) ns)
    (sn_children self).

(** The loop of [get_schema_descendant]; only the internal classes have
    [get_child]. *)
Fixpoint schema_descendant_from (node : SchemaNode)
  (path : list (option string * string)) : Result (option SchemaNode) :=
  match path with
  | [] => Ok (Some node)
  | (ns, name) :: tl =>
      if is_InternalNode (sn_cls node) then
        match get_child node name ns with
        | Some c => schema_descendant_from c tl
        | None => Ok None
        end
      else Raise AttributeError
  end.

(** [InternalNode.get_schema_descendant], a method of the internal
    classes only. *)
Definition get_schema_descendant (self : SchemaNode)
  (path : list (option string * string)) : Result (option SchemaNode) :=
  if is_InternalNode (sn_cls self) then schema_descendant_from self path
  else Raise AttributeError.

(** [str.split(sep)] for a separator of one character. *)
Fixpoint split_on (sep : ascii) (s : string) : list string :=
  match s with
  | EmptyString => [EmptyString]
  | String c tl =>
      if Ascii.eqb c sep then EmptyString :: split_on sep tl
      else match split_on sep tl with
           | w :: ws => String c w :: ws
           | [] => [String c EmptyString]
           end
  end.

Section ChangeSets.

(** The statements of the missing [statement.py], with their
    [argument]. *)
Variable Statement : Type.
Variable argument : Statement -> string.

Inductive ChangeSet : Type :=
| mkChangeSet (patch : list Statement) (subset : list (string * ChangeSet)).

Definition patch (cs : ChangeSet) : list Statement :=
  match cs with mkChangeSet p _ => p end.

Definition subset (cs : ChangeSet) : list (string * ChangeSet) :=
  match cs with mkChangeSet _ s => s end.

(** [ChangeSet.get_subset]. *)
Definition get_subset (cs : ChangeSet) (name : string) : option ChangeSet :=
  dict_get name (subset cs).

(** [ChangeSet.join]. *)
Fixpoint join (self cs : ChangeSet) {struct cs} : ChangeSet :=
  match cs with
  | mkChangeSet cs_patch cs_subset =>
      mkChangeSet (patch self ++ cs_patch)
        ((fix loop (items : list (string * ChangeSet))
               (res : list (string * ChangeSet)) : list (string * ChangeSet) :=
            match items with
            | [] => res
            | (n, c) :: tl =>
                loop tl
                  (dict_set n
                     match dict_get n (subset self) with
                     | Some mine => join mine c
                     | None => c
                     end res)
            end) cs_subset (subset self))
  end.

(** [ChangeSet.from_statement]: the path is consumed from its last
    component. *)
Definition from_statement (stmt : Statement) : ChangeSet :=
  fold_left (fun cs last => mkChangeSet [] [(last, cs)])
    (rev (split_on "/" (argument stmt))) (mkChangeSet [stmt] []).

(** Following a path of node names through the subsets. *)
Fixpoint descend (cs : ChangeSet) (path : list string) : option ChangeSet :=
  match path with
  | [] => Some cs
  | n :: tl =>
      match get_subset cs n with
      | Some sub => descend sub tl
      | None => None
      end
  end.

End ChangeSets.

Arguments mkChangeSet {Statement} patch subset.
Arguments patch {Statement} cs.
Arguments subset {Statement} cs.
Arguments get_subset {Statement} cs name.
Arguments join {Statement} self cs.
Arguments descend {Statement} cs path.

(** * Definitions used in the statements *)

(** The state after one reading of the clock. *)
Definition tick (s : State) : State :=
  mkState (heap s) (clock s) (S (ticks s)).

(** The node [_copy] returns when it is given a timestamp. *)
Definition replaced (self : InstanceNode) (newval : Value) (ts : Z) : InstanceNode :=
  match self with
  | RootNode _ sn _ => RootNode newval sn ts
  | ObjectMember k sibs _ par sn _ => ObjectMember k sibs newval par sn ts
  | ArrayEntry k bef aft _ par sn _ => ArrayEntry k bef aft newval par sn ts
  end.

(** Every object of [s] is still in [s'], at the same address and with
    the same content. *)
Definition preserved (s s' : State) : Prop :=
  forall (a : loc) (o : StructuredValue),
    heap s !! a = Some o -> heap s' !! a = Some o.

(** The entries yielded once [pre] (nearest first) has been passed:
    one entry per value of [rest], with the indices from [k] on. *)
Fixpoint entries_from (x : InstanceNode) (ts : Z) (k : Z) (pre rest : list Value)
  : list InstanceNode :=
  match rest with
  | [] => []
  | v :: rest' =>
      ArrayEntry k (LinkedList.from_list pre) (LinkedList.from_list rest')
        v x (schema_node x) ts
      :: entries_from x ts (k + 1) (v :: pre) rest'
  end.

(** Induction on raw values, through the members of objects and the
    entries of arrays. *)
Section RawValue_induction.
Variable P : RawValue -> Prop.
Hypothesis Hscalar : forall s, P (RScalar s).
Hypothesis Hobject : forall ms, Forall (fun m => P (snd m)) ms -> P (RObject ms).
Hypothesis Harray : forall es, Forall P es -> P (RArray es).

Fixpoint RawValue_nested_ind (r : RawValue) : P r :=
  match r with
  | RScalar s => Hscalar s
  | RObject ms =>
      Hobject ms
        ((fix go (ms : list (string * RawValue)) : Forall (fun m => P (snd m)) ms :=
            match ms with
            | [] => List.Forall_nil _
            | m :: tl => List.Forall_cons _ m tl (RawValue_nested_ind (snd m)) (go tl)
            end) ms)
  | RArray es =>
      Harray es
        ((fix go (es : list RawValue) : Forall P es :=
            match es with
            | [] => List.Forall_nil _
            | e :: tl => List.Forall_cons _ e tl (RawValue_nested_ind e) (go tl)
            end) es)
  end.
End RawValue_induction.

(** [frames n m Q]: started in a store with at least [n] objects, [m]
    leaves the objects at the addresses below [n] as they are, and a
    result it returns satisfies [Q]. *)
Definition frames (n : nat) {A} (m : M A) (Q : A -> Prop) : Prop :=
  forall (s : State) (r : Result A) (s' : State),
    (n <= length (heap s))%nat -> m s = (r, s') ->
    (forall a, (a < n)%nat -> heap s' !! a = heap s !! a) /\
    (n <= length (heap s'))%nat /\
    (forall a, r = Ok a -> Q a).

(** The members of a raw object are decoded within the frame. *)
Definition members_frame (val : RawValue) : Prop :=
  match val with
  | RObject ms =>
      Forall (fun m => forall cn ns n,
                frames n (from_raw cn (snd m) ns) (fun _ => True)) ms
  | _ => True
  end.

(** Raw values that are not objects. *)
Definition not_object (r : RawValue) : Prop :=
  match r with RObject _ => False | _ => True end.

(** Identifiers as [yang_identifier] reads them. *)
Definition is_identifier (l : list ascii) : bool :=
  match l with
  | c :: tl => is_ident_start c && forallb is_ident_char tl
  | [] => false
  end.

(** A member name as it is written: [name] or [prefix:name]. *)
Definition member_token (prefix : option (list ascii)) (name : list ascii)
  : list ascii :=
  match prefix with
  | Some p => p ++ ":"%char :: name
  | None => name
  end.

(** Data for the examples: a leaf-list [l] of module [m], integer
    values, and the state whose store holds the given objects (address 0
    first) and whose clock counts its readings. *)
Definition leaf_list_l : SchemaNode := mkSchemaNode LeafListNode "l" (Some "m") [].

Definition int (n : Z) : Value := Plain (RScalar (SInt n)).

Definition store_of (objs : list StructuredValue) : State :=
  mkState objs (fun n => Z.of_nat n) 0.

(** A container [c] of module [m] with the leaves [a] and [b]. *)
Definition leaf_a : SchemaNode := mkSchemaNode LeafNode "a" (Some "m") [].
Definition leaf_b : SchemaNode := mkSchemaNode LeafNode "b" (Some "m") [].
Definition container_c : SchemaNode :=
  mkSchemaNode ContainerNode "c" (Some "m") [leaf_a; leaf_b].

(** The property C1 states: the rebuilt object has the members of
    [x.value] in their original order. *)
Definition up_keeps_member_position : Prop :=
  forall (x : InstanceNode) (l : loc) (d : list (string * Value)) (ts : Z)
         (k : string) (v : Value) (csn : SchemaNode) (s : State),
    value x = Ref l -> heap s !! l = Some (ObjectValue d ts) ->
    NoDup (dict_keys d) -> dict_get k d = Some v ->
    _member_schema_node x k = Ok csn ->
    exists x' l' s' ts',
      (m <- getitem x (KName k) ;; up m) s = (Ok x', s') /\
      value x' = Ref l' /\ heap s' !! l' = Some (ObjectValue d ts').

(** The root above a node, found through the parent links. *)
Fixpoint root_of (self : InstanceNode) : InstanceNode :=
  match self with
  | RootNode _ _ _ => self
  | ObjectMember _ _ _ par _ _ => root_of par
  | ArrayEntry _ _ _ _ par _ _ => root_of par
  end.

(** Induction on schema nodes, through their children. *)
Section SchemaNode_induction.
Variable P : SchemaNode -> Prop.
Hypothesis Hnode :
  forall cls name ns chs, Forall P chs -> P (mkSchemaNode cls name ns chs).

Fixpoint SchemaNode_nested_ind (sn : SchemaNode) : P sn :=
  match sn with
  | mkSchemaNode cls name ns chs =>
      Hnode cls name ns chs
        ((fix go (cs : list SchemaNode) : Forall P cs :=
            match cs with
            | [] => List.Forall_nil _
            | c :: tl => List.Forall_cons _ c tl (SchemaNode_nested_ind c) (go tl)
            end) chs)
  end.
End SchemaNode_induction.

(** Data for the examples: a container whose first child is a choice
    with a case that holds a leaf [a], and whose second child is the leaf
    [b]; and the same container with a leaf [a] of its own behind the
    choice. *)
Definition choice_with_a : SchemaNode :=
  mkSchemaNode ChoiceNode "ch" (Some "m")
    [mkSchemaNode CaseNode "cs" (Some "m") [leaf_a]].

Definition container_with_choice : SchemaNode :=
  mkSchemaNode ContainerNode "c" (Some "m") [choice_with_a; leaf_b].

Definition container_with_both : SchemaNode :=
  mkSchemaNode ContainerNode "c" (Some "m") [choice_with_a; leaf_a].

(** The selectors that inherit [InstanceSelector.peek_step]. *)
Definition inherits_peek_step (sel : InstanceSelector) : bool :=
  match sel with
  | MemberName _ | EntryIndex _ => true
  | EntryValue _ | EntryKeys _ => false
  end.

(** A parsing step never gives input back. *)
Definition shrinks {A} (m : P A) : Prop :=
  forall (st : Parser) (r : Result A) (st' : Parser),
    m st = (r, st') -> (length (rest st') <= length (rest st))%nat.

(** A parsing step that reads at least one character when it succeeds. *)
Definition consumes {A} (m : P A) : Prop :=
  forall (st : Parser) (a : A) (st' : Parser),
    m st = (Ok a, st') -> (length (rest st') < length (rest st))%nat.

(** The instance names of the member names [steps] (each with its
    optional prefix), resolved one below the other from [sn]; [None] when
    a token is no identifier or a member does not resolve. *)
Fixpoint resolve_members (sn : SchemaNode)
  (steps : list (option (list ascii) * list ascii)) : option (list string) :=
  match steps with
  | [] => Some []
  | (prefix, name) :: tl =>
      if match prefix with Some p => is_identifier p | None => true end
         && is_identifier name
      then
        let ns := option_map string_of_list_ascii prefix in
        match call_get_data_child sn (string_of_list_ascii name)
                (if truthy ns then ns else sn_ns sn) with
        | Ok (Some (parent, cn)) =>
            match qname parent cn with
            | Ok iname => option_map (cons iname) (resolve_members cn tl)
            | Raise _ => None
            end
        | _ => None
        end
      else None
  end.

(** The instance identifier that spells the member names. *)
Definition members_text (steps : list (option (list ascii) * list ascii))
  : list ascii :=
  concat (map (fun step => "/"%char :: member_token (fst step) (snd step)) steps).

(** Data for the examples: a schema root above the container [c]. *)
Definition schema_root : SchemaNode :=
  mkSchemaNode InternalNode "top" (Some "m") [container_c].

(** * Properties *)

(** ** Linked lists *)

Lemma to_list_fold_cons (l : list Value) (acc : LinkedList.t) :
  LinkedList.to_list (fold_left LinkedList.cons l acc)
  = rev l ++ LinkedList.to_list acc.
Proof.
  revert acc. induction l as [|v l IH]; intros acc; simpl; [done|].
  rewrite IH. simpl. by rewrite <- app_assoc.
Qed.

Lemma to_list_from_list (l : list Value) :
  LinkedList.to_list (LinkedList.from_list l) = l.
Proof.
  unfold LinkedList.from_list. rewrite to_list_fold_cons, rev_involutive.
  simpl. by rewrite app_nil_r.
Qed.

Lemma from_list_cons (v : Value) (l : list Value) :
  LinkedList.from_list (v :: l) = LinkedList.Cell v (LinkedList.from_list l).
Proof.
  unfold LinkedList.from_list. simpl. rewrite fold_left_app. reflexivity.
Qed.

Lemma from_list_to_list (l : LinkedList.t) :
  LinkedList.from_list (LinkedList.to_list l) = l.
Proof.
  induction l as [|v l IH]; [done|].
  simpl. by rewrite from_list_cons, IH.
Qed.

(** ** Sibling moves *)

(** C10: [next] and [previous] are mutually inverse where defined: for an
    array entry with a non-empty [after] list, [next] succeeds and
    [previous] of the result is the entry itself (hence the same index,
    value, [before] and [after]); symmetrically for a non-empty [before]
    list. *)
Theorem next_previous_inverse :
  forall (i : Z) (bef aft : LinkedList.t) (v : Value) (par : InstanceNode)
         (sn : SchemaNode) (ts : Z),
    let e := ArrayEntry i bef aft v par sn ts in
    (aft <> LinkedList.EmptyList ->
     exists e', next e = Ok e' /\ previous e' = Ok e) /\
    (bef <> LinkedList.EmptyList ->
     exists e', previous e = Ok e' /\ next e' = Ok e).
Proof.
  intros i bef aft v par sn ts e. subst e. split; intros Hne.
  - destruct aft as [|a aft]; [done|].
    eexists. split; [reflexivity|]. simpl.
    by replace (i + 1 - 1) with i by lia.
  - destruct bef as [|b bef]; [done|].
    eexists. split; [reflexivity|]. simpl.
    by replace (i - 1 + 1) with i by lia.
Qed.

Lemma next_previous_inverse_witness :
  let e := ArrayEntry 1
             (LinkedList.Cell (Plain (RScalar (SInt 10))) LinkedList.EmptyList)
             (LinkedList.Cell (Plain (RScalar (SInt 30))) LinkedList.EmptyList)
             (Plain (RScalar (SInt 20)))
             (RootNode (Ref 0%nat) (mkSchemaNode LeafListNode "l" (Some "m") []) 0)
             (mkSchemaNode LeafListNode "l" (Some "m") []) 0 in
  (exists e', next e = Ok e' /\ previous e' = Ok e) /\
  (exists e', previous e = Ok e' /\ next e' = Ok e).
Proof.
  intros e.
  pose proof (next_previous_inverse 1
    (LinkedList.Cell (Plain (RScalar (SInt 10))) LinkedList.EmptyList)
    (LinkedList.Cell (Plain (RScalar (SInt 30))) LinkedList.EmptyList)
    (Plain (RScalar (SInt 20)))
    (RootNode (Ref 0%nat) (mkSchemaNode LeafListNode "l" (Some "m") []) 0)
    (mkSchemaNode LeafListNode "l" (Some "m") []) 0) as [H1 H2].
  split; [apply H1 | apply H2]; discriminate.
Defined.

(** ** Insertion of entries *)

(** [insert_before] of a cooked value: the new entry has the index of the
    receiver, the same [before] list, and the receiver's value as its
    following sibling; the store is not touched. *)
Lemma insert_before_cooked (i : Z) (bef aft : LinkedList.t) (v nv : Value)
  (par : InstanceNode) (sn : SchemaNode) (ts : Z) (s : State) :
  insert_before (ArrayEntry i bef aft v par sn ts) (Cooked nv) s
  = (Ok (ArrayEntry i bef (LinkedList.Cell v aft) nv par sn (clock s (ticks s))),
     tick s).
Proof. reflexivity. Qed.

(** [insert_after] of a cooked value: the receiver's value becomes the
    preceding sibling, and the index stored in the new entry is the
    receiver's index, unchanged. *)
Lemma insert_after_cooked (i : Z) (bef aft : LinkedList.t) (v nv : Value)
  (par : InstanceNode) (sn : SchemaNode) (ts : Z) (s : State) :
  insert_after (ArrayEntry i bef aft v par sn ts) (Cooked nv) s
  = (Ok (ArrayEntry i (LinkedList.Cell v bef) aft nv par sn (clock s (ticks s))),
     tick s).
Proof. reflexivity. Qed.

(** C6: on the only entry of the array [[10]] (index 0),
    [insert_after(20)] returns an entry focused on 20 whose preceding
    sibling is 10 and whose index is 0, the receiver's index, not 1; its
    own [previous] then yields index -1.  [next], which conses the focus
    onto [before] in the same way, stores [index + 1]. *)
Theorem insert_after_index_not_incremented :
  let s := store_of [ArrayValue [int 10] 0] in
  let x := RootNode (Ref 0%nat) leaf_list_l 0 in
  exists e e' p s1 s2,
    getitem x (KIndex 0) s = (Ok e, s1) /\ index e = Some 0 /\
    insert_after e (Cooked (int 20)) s1 = (Ok e', s2) /\
    value e' = int 20 /\
    before e' = Some (LinkedList.Cell (int 10) LinkedList.EmptyList) /\
    index e' = Some 0 /\ index e' <> Some (0 + 1) /\
    previous e' = Ok p /\ index p = Some (-1) /\
    heap s2 = heap s.
Proof.
  intros s x. do 5 eexists.
  repeat split; try reflexivity. discriminate.
Qed.

(** ** Ascending from an array entry *)

Lemma _copy_with_timestamp (self : InstanceNode) (v : Value) (ts : Z) (s : State) :
  _copy self v (Some ts) s = (Ok (replaced self v ts), s).
Proof. by destruct self. Qed.

Lemma py_index_nat (n i : nat) :
  (i < n)%nat -> py_index n (Z.of_nat i) = Some i.
Proof.
  intros Hi. unfold py_index.
  replace (0 <=? Z.of_nat i) with true by (symmetry; apply Z.leb_le; lia).
  replace (Z.of_nat i <? Z.of_nat n) with true by (symmetry; apply Z.ltb_lt; lia).
  simpl. by rewrite Nat2Z.id.
Qed.

Lemma list_getitem_nat {A} (l : list A) (i : nat) (a : A) :
  l !! i = Some a -> list_getitem l (Z.of_nat i) = Some a.
Proof.
  intros H. unfold list_getitem.
  rewrite py_index_nat; [done|]. by eapply lookup_lt_Some.
Qed.

(** [x[i]] on an array-valued node, for an index within range. *)
Lemma getitem_entry (x : InstanceNode) (l : loc) (es : list Value) (ts : Z)
  (i : nat) (v : Value) (s : State) :
  value x = Ref l -> heap s !! l = Some (ArrayValue es ts) -> es !! i = Some v ->
  getitem x (KIndex (Z.of_nat i)) s
  = (Ok (ArrayEntry (Z.of_nat i)
           (LinkedList.from_list (take i es))
           (LinkedList.from_list (drop (S i) es))
           v x (schema_node x) ts), s).
Proof.
  intros Hx Hl Hv.
  unfold getitem, _entry, structured, bind, deref. cbv beta.
  rewrite Hx, Hl. cbv beta iota. rewrite Hl.
  rewrite (list_getitem_nat _ _ _ Hv).
  replace (Z.of_nat i <? 0) with false by (symmetry; apply Z.ltb_ge; lia).
  by rewrite Nat2Z.id.
Qed.

(** What [up] rebuilds from the entry [x[i]]: the first [i] entries in
    reverse order, then the focus, then the following entries, in a new
    array object; the objects already in the store are left as they
    were. *)
Lemma entry_up (x : InstanceNode) (l : loc) (es : list Value) (ts : Z)
  (i : nat) (v : Value) (s : State) :
  value x = Ref l -> heap s !! l = Some (ArrayValue es ts) -> es !! i = Some v ->
  (e <- getitem x (KIndex (Z.of_nat i)) ;; up e) s
  = (Ok (replaced x (Ref (length (heap s))) (Z.max ts (timestamp x))),
     mkState (heap s ++ [ArrayValue (rev (take i es) ++ [v] ++ drop (S i) es) ts])
       (clock s) (ticks s)).
Proof.
  intros Hx Hl Hv. unfold bind at 1.
  rewrite (getitem_entry x l es ts i v s Hx Hl Hv).
  unfold up, _zip, bind, alloc, ret. cbn [parinst timestamp].
  rewrite _copy_with_timestamp, !to_list_from_list.
  by rewrite <- app_assoc.
Qed.

(** C2: on the array [[1, 2, 3]], [x[2].up()] holds [[2, 1, 3]]: [_entry]
    builds [before] with the first entry at its head, and [_zip] reverses
    it, so the entries before the focus come back in reverse order.  The
    value differs from [x.value], which is still [[1, 2, 3]]. *)
Theorem entry_up_reverses_preceding_entries :
  let s := store_of [ArrayValue [int 1; int 2; int 3] 0] in
  let x := RootNode (Ref 0%nat) leaf_list_l 0 in
  exists x' l' s',
    (e <- getitem x (KIndex 2) ;; up e) s = (Ok x', s') /\
    value x' = Ref l' /\
    heap s' !! l' = Some (ArrayValue [int 2; int 1; int 3] 0) /\
    deref (heap s') (value x) = Some (ArrayValue [int 1; int 2; int 3] 0).
Proof.
  intros s x. do 3 eexists. repeat split; lazy; reflexivity.
Qed.

(** ** Iterating over an array *)

Section Iteration.

Variables (x : InstanceNode) (ts : Z).

Lemma length_entries_from (k : Z) (pre rest : list Value) :
  length (entries_from x ts k pre rest) = length rest.
Proof.
  revert k pre. induction rest as [|v rest IH]; intros k pre; simpl; [done|].
  by rewrite IH.
Qed.

Lemma lookup_entries_from (k : Z) (pre rest : list Value) (i : nat) (v : Value) :
  rest !! i = Some v ->
  entries_from x ts k pre rest !! i
  = Some (ArrayEntry (k + Z.of_nat i)
            (LinkedList.from_list (rev (take i rest) ++ pre))
            (LinkedList.from_list (drop (S i) rest))
            v x (schema_node x) ts).
Proof.
  revert k pre i. induction rest as [|a rest IH]; intros k pre i Hv; [done|].
  destruct i as [|i]; simpl in *.
  - injection Hv as ->. by rewrite Z.add_0_r.
  - rewrite (IH _ _ _ Hv). rewrite <- app_assoc. simpl.
    by replace (k + 1 + Z.of_nat i) with (k + Z.pos (Pos.of_succ_nat i)) by lia.
Qed.

(** A generator suspended at an entry yields the following entries and
    then ends. *)
Lemma drain_suspended (rest : list Value) :
  forall (k : Z) (pre : list Value) (v : Value) (fuel : nat) (s : State),
    (length rest < fuel)%nat ->
    drain fuel
      (GenSuspended
         (ArrayEntry k (LinkedList.from_list pre) (LinkedList.from_list rest)
            v x (schema_node x) ts)) s
    = (Ok (Some (entries_from x ts (k + 1) (v :: pre) rest)), s).
Proof.
  induction rest as [|a rest IH]; intros k pre v fuel s Hfuel;
    (destruct fuel as [|fuel]; [simpl in Hfuel; lia|]).
  - reflexivity.
  - simpl in Hfuel. rewrite from_list_cons.
    change (drain (S fuel) ?g) with
      (r <- gen_next g ;;
       match r with
       | (None, _) => ret (Some [])
       | (Some en, g') =>
           rest <- drain fuel g' ;; ret (option_map (fun l => en :: l) rest)
       end).
    unfold bind, gen_next, next. cbn [LinkedList.pop LinkedList.cons ret].
    unfold LinkedList.cons. rewrite <- (from_list_cons v pre).
    rewrite IH by lia. reflexivity.
Qed.

End Iteration.

(** C9: iterating over a node whose value is an array of [n] entries
    yields exactly [n] array entries, the [i]-th with index [i] and the
    [i]-th value (and the preceding and following values as its sibling
    lists), and after them the generator ends without an exception; the
    store is not touched. *)
Theorem iter_array_entries :
  forall (x : InstanceNode) (l : loc) (es : list Value) (ts : Z) (s : State)
         (fuel : nat),
    value x = Ref l -> heap s !! l = Some (ArrayValue es ts) ->
    (length es < fuel)%nat ->
    exists g ens,
      iter x s = (Ok (EntryIter g), s) /\
      drain fuel g s = (Ok (Some ens), s) /\
      length ens = length es /\
      forall (i : nat) (v : Value),
        es !! i = Some v ->
        ens !! i
        = Some (ArrayEntry (Z.of_nat i)
                  (LinkedList.from_list (rev (take i es)))
                  (LinkedList.from_list (drop (S i) es))
                  v x (schema_node x) ts).
Proof.
  intros x l es ts s fuel Hx Hl Hfuel.
  exists (GenStart x), (entries_from x ts 0 [] es).
  split; [|split; [|split]].
  - unfold iter, structured, bind, deref. by rewrite Hx, Hl.
  - destruct fuel as [|fuel]; [lia|].
    destruct es as [|v rest].
    + simpl. unfold bind, gen_next, getitem, _entry, structured, bind, deref.
      rewrite Hx, Hl. cbv beta iota. by rewrite Hl.
    + change (drain (S fuel) ?g) with
        (r <- gen_next g ;;
         match r with
         | (None, _) => ret (Some [])
         | (Some en, g') =>
             rest <- drain fuel g' ;; ret (option_map (fun l => en :: l) rest)
         end).
      unfold bind, gen_next. change (KIndex 0) with (KIndex (Z.of_nat 0)).
      rewrite (getitem_entry x l (v :: rest) ts 0 v s Hx Hl eq_refl).
      assert (length rest < fuel)%nat as Hrest by (simpl in Hfuel; lia).
      change (drop 1 (v :: rest)) with rest.
      change (take 0 (v :: rest)) with (@nil Value).
      change (Z.of_nat 0) with 0.
      rewrite (drain_suspended x ts rest 0 [] v fuel s Hrest).
      reflexivity.
  - apply length_entries_from.
  - intros i v Hv. rewrite (lookup_entries_from x ts 0 [] es i v Hv).
    by rewrite app_nil_r, Z.add_0_l.
Qed.

Lemma iter_array_entries_witness :
  let s := store_of [ArrayValue [int 1; int 2; int 3] 0] in
  let x := RootNode (Ref 0%nat) leaf_list_l 0 in
  exists g ens,
    iter x s = (Ok (EntryIter g), s) /\
    drain 4 g s = (Ok (Some ens), s) /\
    length ens = 3%nat /\
    forall (i : nat) (v : Value),
      [int 1; int 2; int 3] !! i = Some v ->
      ens !! i
      = Some (ArrayEntry (Z.of_nat i)
                (LinkedList.from_list (rev (take i [int 1; int 2; int 3])))
                (LinkedList.from_list (drop (S i) [int 1; int 2; int 3]))
                v x (schema_node x) 0).
Proof.
  intros s x.
  apply (iter_array_entries x 0%nat [int 1; int 2; int 3] 0 s 4%nat);
    [reflexivity | reflexivity | simpl; lia].
Defined.

(** ** Dictionaries *)

Section DictFacts.
Context {V : Type}.
Implicit Types (d : list (string * V)) (k : string) (v : V).

Lemma dict_get_remove_ne k k' d :
  k <> k' -> dict_get k' (dict_remove k d) = dict_get k' d.
Proof.
  intros Hne. induction d as [|[k0 v0] d IH]; simpl; [done|].
  destruct (String.eqb_spec k k0) as [->|Hk].
  - destruct (String.eqb_spec k' k0) as [->|]; [done|done].
  - simpl. by rewrite IH.
Qed.

Lemma dict_get_None_notin k d :
  dict_get k d = None <-> k ∉ dict_keys d.
Proof.
  induction d as [|[k0 v0] d IH]; simpl.
  - split; [intros _; apply not_elem_of_nil | done].
  - destruct (String.eqb_spec k k0) as [->|Hk].
    + split; [done|]. intros H. exfalso. apply H. apply list_elem_of_here.
    + rewrite IH. rewrite not_elem_of_cons. tauto.
Qed.

Lemma dict_keys_remove_subset k k' d :
  k' ∈ dict_keys (dict_remove k d) -> k' ∈ dict_keys d.
Proof.
  induction d as [|[k0 v0] d IH]; simpl; [done|].
  destruct (String.eqb k k0); simpl.
  - intros H. by apply list_elem_of_further.
  - rewrite !elem_of_cons. intros [->|H]; [by left | right; by apply IH].
Qed.

Lemma dict_get_remove_eq k d :
  NoDup (dict_keys d) -> dict_get k (dict_remove k d) = None.
Proof.
  induction d as [|[k0 v0] d IH]; simpl; [done|].
  intros Hnd. apply NoDup_cons in Hnd as [Hk0 Hnd].
  destruct (String.eqb_spec k k0) as [->|Hk].
  - by apply dict_get_None_notin.
  - simpl. destruct (String.eqb_spec k k0); [done|]. by apply IH.
Qed.

Lemma dict_set_fresh k v d :
  dict_get k d = None -> dict_set k v d = d ++ [(k, v)].
Proof.
  induction d as [|[k0 v0] d IH]; simpl; [done|].
  destruct (String.eqb k k0); [done|]. intros H. by rewrite IH.
Qed.

Lemma dict_get_app_fresh k k' v d :
  dict_get k' (d ++ [(k, v)])
  = match dict_get k' d with
    | Some v' => Some v'
    | None => if String.eqb k' k then Some v else None
    end.
Proof.
  induction d as [|[k0 v0] d IH]; simpl; [done|].
  by destruct (String.eqb k' k0).
Qed.

(** Taking a member out and putting it back gives the same mapping. *)
Lemma dict_get_reinserted k k' v d :
  NoDup (dict_keys d) -> dict_get k d = Some v ->
  dict_get k' (dict_remove k d ++ [(k, v)]) = dict_get k' d.
Proof.
  intros Hnd Hk. rewrite dict_get_app_fresh.
  destruct (String.eqb_spec k' k) as [->|Hne].
  - by rewrite dict_get_remove_eq, Hk.
  - rewrite dict_get_remove_ne by done. by destruct (dict_get k' d).
Qed.

End DictFacts.

(** ** The store *)

Lemma preserved_app (s s' : State) (new : list StructuredValue) :
  heap s' = heap s ++ new -> preserved s s'.
Proof. intros H a o Ha. rewrite H. by apply lookup_app_l_Some. Qed.

Lemma lookup_last {A} (h : list A) (o : A) : (h ++ [o]) !! length h = Some o.
Proof. by apply list_lookup_middle. Qed.

Lemma insert_last {A} (h : list A) (o o' : A) :
  <[length h := o']> (h ++ [o]) = h ++ [o'].
Proof.
  replace (length h) with (length h + 0)%nat by lia.
  by rewrite insert_app_r.
Qed.

(** ** Descending to an object member and ascending again *)

(** [_member] for a name that is present and that the schema resolves:
    the siblings are a new object without the member. *)
Lemma _member_present (x : InstanceNode) (l : loc) (d : list (string * Value))
  (ts : Z) (k : string) (v : Value) (csn : SchemaNode) (s : State) :
  value x = Ref l -> heap s !! l = Some (ObjectValue d ts) ->
  dict_get k d = Some v -> _member_schema_node x k = Ok csn ->
  _member x (KName k) s
  = (Ok (ObjectMember k (length (heap s)) v x csn ts),
     mkState (heap s ++ [ObjectValue (dict_remove k d) (clock s (ticks s))])
       (clock s) (S (ticks s))).
Proof.
  intros Hx Hl Hk Hcsn.
  unfold _member, structured, bind, deref. cbv beta.
  rewrite Hx, Hl. cbv beta iota.
  unfold copy, pop, datetime_now, alloc, store, structured, bind, ret, lift, deref.
  cbn [heap clock ticks]. rewrite lookup_last. unfold dict_pop. rewrite Hk.
  cbn [heap clock ticks]. rewrite insert_last, Hcsn. reflexivity.
Qed.

Lemma getitem_member (x : InstanceNode) (l : loc) (d : list (string * Value))
  (ts : Z) (k : string) (v : Value) (csn : SchemaNode) (s : State) :
  value x = Ref l -> heap s !! l = Some (ObjectValue d ts) ->
  dict_get k d = Some v -> _member_schema_node x k = Ok csn ->
  getitem x (KName k) s
  = (Ok (ObjectMember k (length (heap s)) v x csn ts),
     mkState (heap s ++ [ObjectValue (dict_remove k d) (clock s (ticks s))])
       (clock s) (S (ticks s))).
Proof.
  intros Hx Hl Hk Hcsn.
  unfold getitem, structured, bind, deref. cbv beta.
  rewrite Hx, Hl. cbv beta iota. by eapply _member_present.
Qed.

(** [up] from an object member whose siblings object holds [sibs]: a new
    object with the siblings in their order and the focused member set
    after them (or in place, if the name is among the siblings). *)
Lemma member_up (k : string) (sl : loc) (v : Value) (par : InstanceNode)
  (sn : SchemaNode) (ts sts : Z) (sibs : list (string * Value)) (s : State) :
  heap s !! sl = Some (ObjectValue sibs sts) ->
  up (ObjectMember k sl v par sn ts) s
  = (Ok (replaced par (Ref (S (length (heap s)))) (Z.max ts (timestamp par))),
     mkState (heap s ++ [ObjectValue sibs (clock s (ticks s));
                         ObjectValue (dict_set k v sibs) ts])
       (clock s) (S (ticks s))).
Proof.
  intros Hs.
  unfold up, _zip, copy, setitem, datetime_now, alloc, store, structured,
    bind, ret, deref.
  cbn [parinst timestamp heap clock ticks]. rewrite Hs.
  rewrite lookup_last. cbn [heap clock ticks]. rewrite insert_last.
  rewrite _copy_with_timestamp, length_app. cbn [length].
  replace (length (heap s) + 1)%nat with (S (length (heap s))) by lia.
  by rewrite <- app_assoc.
Qed.

(** C1, as the code has it: for an object-valued node [x] and a member
    [k] present in its value and resolved by the schema, [x[k].up()]
    yields a node whose value is a new object with the same timestamp and
    the same members, the other members in their original order and
    member [k] after them, in the last position; the objects that were in
    the store are left as they were. *)
Theorem member_up_reinserts_last :
  forall (x : InstanceNode) (l : loc) (d : list (string * Value)) (ts : Z)
         (k : string) (v : Value) (csn : SchemaNode) (s : State),
    value x = Ref l -> heap s !! l = Some (ObjectValue d ts) ->
    NoDup (dict_keys d) -> dict_get k d = Some v ->
    _member_schema_node x k = Ok csn ->
    exists x' l' s',
      (m <- getitem x (KName k) ;; up m) s = (Ok x', s') /\
      value x' = Ref l' /\ schema_node x' = schema_node x /\
      heap s' !! l' = Some (ObjectValue (dict_remove k d ++ [(k, v)]) ts) /\
      (forall k', dict_get k' (dict_remove k d ++ [(k, v)]) = dict_get k' d) /\
      preserved s s'.
Proof.
  intros x l d ts k v csn s Hx Hl Hnd Hk Hcsn.
  eexists _, _, _. split; [|split; [|split; [|split; [|split]]]].
  - unfold bind at 1. rewrite (getitem_member x l d ts k v csn s Hx Hl Hk Hcsn).
    rewrite (member_up k _ v x csn ts (clock s (ticks s)) (dict_remove k d));
      [reflexivity|].
    cbn [heap]. apply lookup_last.
  - by destruct x.
  - by destruct x.
  - cbn [heap]. rewrite length_app. cbn [length].
    rewrite dict_set_fresh by (by apply dict_get_remove_eq).
    rewrite <- app_assoc. cbn [app].
    replace (S (length (heap s) + 1))
      with (length (heap s) + 2)%nat by lia.
    rewrite lookup_app_r by lia.
    by replace (length (heap s) + 2 - length (heap s))%nat with 2%nat by lia.
  - intros k'. by apply dict_get_reinserted.
  - apply (preserved_app _ _ [ObjectValue (dict_remove k d) (clock s (ticks s));
                              ObjectValue (dict_remove k d) (clock s (S (ticks s)));
                              ObjectValue (dict_set k v (dict_remove k d)) ts]).
    cbn [heap]. by rewrite <- app_assoc.
Qed.

Lemma member_up_reinserts_last_witness :
  let s := store_of [ObjectValue [("a", int 1); ("b", int 2)] 0] in
  let x := RootNode (Ref 0%nat) container_c 0 in
  exists x' l' s',
    (m <- getitem x (KName "a") ;; up m) s = (Ok x', s') /\
    value x' = Ref l' /\ schema_node x' = schema_node x /\
    heap s' !! l' = Some (ObjectValue [("b", int 2); ("a", int 1)] 0) /\
    (forall k', dict_get k' [("b", int 2); ("a", int 1)]
                = dict_get k' [("a", int 1); ("b", int 2)]) /\
    preserved s s'.
Proof.
  intros s x.
  apply (member_up_reinserts_last x 0%nat [("a", int 1); ("b", int 2)] 0
           "a" (int 1) leaf_a s); try reflexivity.
  apply (bool_decide_unpack _). reflexivity.
Defined.

(** C1 fails on the object [{"a": 1, "b": 2}]: [x["a"].up()] holds
    [{"b": 2, "a": 1}], with member [a] moved behind [b]. *)
Lemma up_moves_member_last : ~ up_keeps_member_position.
Proof.
  intros H.
  destruct (H (RootNode (Ref 0%nat) container_c 0) 0%nat
              [("a", int 1); ("b", int 2)] 0 "a" (int 1) leaf_a
              (store_of [ObjectValue [("a", int 1); ("b", int 2)] 0]))
    as (x' & l' & s' & ts' & Hrun & Hv & Hl'); try reflexivity.
  - apply (bool_decide_unpack _). reflexivity.
  - lazy in Hrun. injection Hrun as <- <-.
    simpl in Hv. injection Hv as <-. simpl in Hl'. discriminate.
Qed.

(** ** Operations leave the existing objects alone *)

Lemma frames_weaken n {A} (m : M A) (Q R : A -> Prop) :
  frames n m Q -> (forall a, Q a -> R a) -> frames n m R.
Proof.
  intros Hm HQR s r s' Hn Hrun.
  destruct (Hm s r s' Hn Hrun) as (H1 & H2 & H3). eauto.
Qed.

Lemma frames_ret n {A} (a : A) (Q : A -> Prop) : Q a -> frames n (ret a) Q.
Proof.
  intros HQ s r s' Hn [= <- <-]. repeat split; [done|]. by intros ? [= <-].
Qed.

Lemma frames_raise n {A} (e : Exception) (Q : A -> Prop) :
  frames n (raise e : M A) Q.
Proof. intros s r s' Hn [= <- <-]. repeat split; done. Qed.

Lemma frames_lift n {A} (x : Result A) : frames n (lift x : M A) (fun _ => True).
Proof. intros s r s' Hn [= <- <-]. repeat split; done. Qed.

Lemma frames_bind n {A B} (m : M A) (k : A -> M B) (Q : A -> Prop) (R : B -> Prop) :
  frames n m Q -> (forall a, Q a -> frames n (k a) R) -> frames n (bind m k) R.
Proof.
  intros Hm Hk s r s' Hn Hrun. unfold bind in Hrun.
  destruct (m s) as [[a|e] s1] eqn:Hms.
  - destruct (Hm s (Ok a) s1 Hn Hms) as (H1 & H2 & H3).
    destruct (Hk a (H3 a eq_refl) s1 r s' H2 Hrun) as (K1 & K2 & K3).
    repeat split; [|done|done]. intros b Hb. by rewrite K1, H1.
  - injection Hrun as <- <-.
    destruct (Hm s (Raise e) s1 Hn Hms) as (H1 & H2 & H3).
    repeat split; done.
Qed.

Lemma frames_datetime_now n : frames n datetime_now (fun _ => True).
Proof. intros s r s' Hn [= <- <-]. repeat split; done. Qed.

Lemma frames_structured n (v : Value) : frames n (structured v) (fun _ => True).
Proof. intros s r s' Hn [= <- <-]. repeat split; done. Qed.

Lemma frames_alloc n (o : StructuredValue) :
  frames n (alloc o) (fun l => (n <= l)%nat).
Proof.
  intros s r s' Hn [= <- <-]. cbn [heap]. repeat split.
  - intros a Ha. apply lookup_app_l. lia.
  - rewrite length_app. lia.
  - by intros a [= <-].
Qed.

Lemma frames_store n (l : loc) (o : StructuredValue) :
  (n <= l)%nat -> frames n (store l o) (fun _ => True).
Proof.
  intros Hl s r s' Hn [= <- <-]. cbn [heap]. repeat split.
  - intros a Ha. apply list_lookup_insert_ne. lia.
  - by rewrite length_insert.
Qed.


Lemma frames_setitem n (l : loc) (k : string) (v : Value) :
  (n <= l)%nat -> frames n (setitem l k v) (fun _ => True).
Proof.
  intros Hl. unfold setitem. eapply frames_bind; [apply frames_structured|].
  intros [[d ts|es ts]|] _;
    [by apply frames_store | apply frames_raise | apply frames_raise].
Qed.

Lemma frames_append n (l : loc) (v : Value) :
  (n <= l)%nat -> frames n (append l v) (fun _ => True).
Proof.
  intros Hl. unfold append. eapply frames_bind; [apply frames_structured|].
  intros [[d ts|es ts]|] _;
    [apply frames_raise | by apply frames_store | apply frames_raise].
Qed.

Lemma frames_time_stamp n (l : loc) :
  (n <= l)%nat -> frames n (time_stamp l) (fun _ => True).
Proof.
  intros Hl. unfold time_stamp. eapply frames_bind; [apply frames_datetime_now|].
  intros ts _. eapply frames_bind; [apply frames_structured|].
  intros [[d ts'|es ts']|] _;
    [by apply frames_store | by apply frames_store | apply frames_raise].
Qed.

(** An operation that frames the whole store preserves it. *)
Lemma frames_preserved {A} (m : M A) (Q : A -> Prop) (s s' : State) (r : Result A) :
  frames (length (heap s)) m Q -> m s = (r, s') -> preserved s s'.
Proof.
  intros Hm Hrun a o Ha.
  destruct (Hm s r s' (le_n _) Hrun) as (H1 & _).
  rewrite H1; [done|]. by eapply lookup_lt_Some.
Qed.

Lemma frames_new_ObjectValue n : frames n new_ObjectValue (fun l => (n <= l)%nat).
Proof.
  unfold new_ObjectValue. eapply frames_bind; [apply frames_datetime_now|].
  intros ts _. apply frames_alloc.
Qed.

Lemma frames_new_ArrayValue n : frames n new_ArrayValue (fun l => (n <= l)%nat).
Proof.
  unfold new_ArrayValue. eapply frames_bind; [apply frames_datetime_now|].
  intros ts _. apply frames_alloc.
Qed.

Lemma frames_InternalNode_from_raw n (rec : SchemaNode -> RawValue -> M Value)
  (self : SchemaNode) (val : RawValue) (ns : option string) :
  match val with
  | RObject ms =>
      Forall (fun m => forall cn, frames n (rec cn (snd m)) (fun _ => True)) ms
  | _ => True
  end ->
  frames n (InternalNode_from_raw rec self val ns) (fun _ => True).
Proof.
  intros Hrec. unfold InternalNode_from_raw.
  eapply frames_bind; [apply frames_new_ObjectValue|]. intros res Hres.
  eapply frames_bind with (Q := fun _ => True).
  - destruct val as [sc|ms|es].
    + eapply frames_bind; [apply frames_lift|]. intros qns _.
      destruct qns as [|[[z|qn|b]|ms'|es'] qtl]; try apply frames_raise.
      * by apply frames_ret.
      * destruct (raw_key qn ns) as [loc ns'].
        destruct (get_data_child self loc ns'); apply frames_raise.
    + revert ns. induction Hrec as [|[qn v] tl Hv _ IH]; intros ns.
      * by apply frames_ret.
      * cbn [snd] in Hv. destruct (raw_key qn ns) as [loc ns'].
        destruct (get_data_child self loc ns') as [[parent cn]|];
          [|apply frames_raise].
        eapply frames_bind; [apply Hv|]. intros r _.
        eapply frames_bind; [apply frames_lift|]. intros k _.
        eapply frames_bind; [by apply frames_setitem|]. intros _ _.
        apply IH.
    + eapply frames_bind; [apply frames_lift|]. intros qns _.
      destruct qns as [|[[z|qn|b]|ms'|es'] qtl]; try apply frames_raise.
      * by apply frames_ret.
      * destruct (raw_key qn ns) as [loc ns'].
        destruct (get_data_child self loc ns'); apply frames_raise.
  - intros _ _. eapply frames_bind; [by apply frames_time_stamp|].
    intros _ _. by apply frames_ret.
Qed.

Lemma frames_for_each n {A} (body : A -> M unit) (l : list A) :
  Forall (fun a => frames n (body a) (fun _ => True)) l ->
  frames n (for_each body l) (fun _ => True).
Proof.
  induction 1 as [|a l Ha _ IH]; simpl; [by apply frames_ret|].
  eapply frames_bind; [exact Ha|]. intros ? _. exact IH.
Qed.

Lemma frames_bind_lift n {A B} (x : Result A) (k : A -> M B) (R : B -> Prop) :
  (forall a, x = Ok a -> frames n (k a) R) -> frames n (bind (lift x) k) R.
Proof.
  intros Hk. destruct x as [a|e].
  - intros s r s' Hn Hrun. by apply (Hk a eq_refl s r s' Hn).
  - intros s r s' Hn [= <- <-]. repeat split; done.
Qed.

Lemma raw_iter_not_object (val : RawValue) (ens : list RawValue) :
  match val with RArray _ => False | _ => True end ->
  raw_iter val = Ok ens -> Forall not_object ens.
Proof.
  destruct val as [[z|str|b]|ms|es]; simpl; intros Hval Hens;
    try done; injection Hens as <-; apply Forall_forall; intros en Hen.
  - apply list_elem_of_fmap in Hen as (c & -> & _). done.
  - apply list_elem_of_fmap in Hen as (m & -> & _). done.
Qed.

Lemma frames_from_raw_members (val : RawValue) :
  (forall (self : SchemaNode) (ns : option string) (n : nat),
     frames n (from_raw self val ns) (fun _ => True))
  /\ members_frame val.
Proof.
  assert (Hmistyped : forall n self ns res (ens : list RawValue),
             (n <= res)%nat -> Forall not_object ens ->
             frames n
               (for_each
                  (fun en =>
                     r <- InternalNode_from_raw
                            (fun _ _ => raise TypeError) self en ns ;;
                     append res r) ens) (fun _ => True)).
  { intros n self ns res ens Hres Hens. apply frames_for_each.
    eapply Forall_impl; [exact Hens|]. intros en Hen. cbv beta.
    eapply frames_bind; [apply frames_InternalNode_from_raw; by destruct en|].
    intros r _. by apply frames_append. }
  assert (Hleaflist : forall n res (val : RawValue),
             (n <= res)%nat ->
             frames n
               (ens <- lift (raw_iter val) ;;
                _ <- for_each (fun en => append res (Plain en)) ens ;;
                _ <- time_stamp res ;;
                ret (Ref res)) (fun _ => True)).
  { intros n res val' Hres. apply frames_bind_lift. intros ens _.
    eapply frames_bind with (Q := fun _ => True).
    - apply frames_for_each. apply Forall_forall.
      intros en _. by apply frames_append.
    - intros ? _. eapply frames_bind; [by apply frames_time_stamp|].
      intros ? _. by apply frames_ret. }
  assert (Hstamp : forall n res (m : M unit),
             (n <= res)%nat -> frames n m (fun _ => True) ->
             frames n (_ <- m ;; _ <- time_stamp res ;; ret (Ref res))
               (fun _ => True)).
  { intros n res m Hres Hm. eapply frames_bind; [exact Hm|].
    intros ? _. eapply frames_bind; [by apply frames_time_stamp|].
    intros ? _. by apply frames_ret. }
  induction val as [sc|ms IH|es IH] using RawValue_nested_ind.
  - split; [|done]. intros self ns n.
    destruct self as [c name sns chs]; destruct c; cbn [from_raw sn_cls];
      try (by apply frames_ret);
      try (by apply frames_InternalNode_from_raw);
      (eapply frames_bind; [apply frames_new_ArrayValue|]; intros res Hres).
    + apply Hstamp; [done|]. apply frames_bind_lift. intros ens Hens.
      apply Hmistyped; [done|].
      eapply raw_iter_not_object; [|exact Hens]. exact I.
    + by apply Hleaflist.
  - split.
    + intros self ns n.
      destruct self as [c name sns chs]; destruct c; cbn [from_raw sn_cls];
        try (by apply frames_ret);
        try (apply frames_InternalNode_from_raw;
             eapply Forall_impl; [exact IH|]; intros m [Hm _] cn; apply Hm);
        (eapply frames_bind; [apply frames_new_ArrayValue|]; intros res Hres).
      * apply Hstamp; [done|]. apply frames_bind_lift. intros ens Hens.
        apply Hmistyped; [done|].
      eapply raw_iter_not_object; [|exact Hens]. exact I.
      * by apply Hleaflist.
    + simpl. eapply Forall_impl; [exact IH|]. intros m [Hm _] cn ns n.
      apply Hm.
  - split; [|done]. intros self ns n.
    destruct self as [c name sns chs]; destruct c; cbn [from_raw sn_cls];
      try (by apply frames_ret);
      try (by apply frames_InternalNode_from_raw);
      (eapply frames_bind; [apply frames_new_ArrayValue|]; intros res Hres).
    + apply Hstamp; [done|]. apply frames_for_each.
      eapply Forall_impl; [exact IH|]. intros en [_ Hen]. cbv beta.
      eapply frames_bind; [|intros r _; by apply frames_append].
      apply frames_InternalNode_from_raw.
      destruct en as [sc|ms|es']; [done| |done].
      eapply Forall_impl; [exact Hen|]. intros m Hm cn. apply Hm.
    + by apply Hleaflist.
Qed.

Lemma frames_from_raw (self : SchemaNode) (val : RawValue) (ns : option string)
  (n : nat) : frames n (from_raw self val ns) (fun _ => True).
Proof. apply frames_from_raw_members. Qed.

(** ** Setting a member *)

Lemma dict_get_set_eq {V} (k : string) (v : V) (d : list (string * V)) :
  dict_get k (dict_set k v d) = Some v.
Proof.
  induction d as [|[k0 v0] d IH]; simpl.
  - by rewrite String.eqb_refl.
  - destruct (String.eqb k k0) eqn:E; simpl; rewrite E; [done|exact IH].
Qed.

Lemma _copy_structured (x : InstanceNode) (v : Value) (sv : StructuredValue)
  (s : State) :
  deref (heap s) v = Some sv ->
  _copy x v None s = (Ok (replaced x v (sv_timestamp sv)), s).
Proof.
  intros Hv. destruct x; unfold _copy, structured, bind, ret; by rewrite Hv.
Qed.

Lemma frames_decode (sn : SchemaNode) (value_raw : NewValue) (n : nat) :
  frames n (decode sn value_raw) (fun _ => True).
Proof.
  destruct value_raw as [v|r]; [by apply frames_ret | apply frames_from_raw].
Qed.

(** [put_member] on an object-valued node whose schema node can have
    children.  For a name with no data child in the schema,
    [_member_schema_node] fails with [TypeError] before anything is
    copied, and the state is unchanged.  For a name with a data child
    [csn], once the value is there (what [csn.from_raw] returns for it in
    raw mode, the value itself otherwise), the result is the member [name]
    with that value, below a copy of the receiver whose object has the
    member set (replaced in place, or appended if it was absent); the
    receiver's object and every other object that was in the store are
    left as they were. *)
Lemma put_member_run :
  forall (x : InstanceNode) (l : loc) (d : list (string * Value)) (ts : Z)
         (name : string) (value_raw : NewValue) (s : State),
    value x = Ref l -> heap s !! l = Some (ObjectValue d ts) ->
    is_InternalNode (sn_cls (schema_node x)) = true ->
    let qn := _iname2qname (schema_node x) name in
    match get_data_child (schema_node x) (fst qn) (snd qn) with
    | None => put_member x name value_raw s = (Raise TypeError, s)
    | Some (_, csn) =>
        forall (v : Value) (s1 : State),
          match value_raw with
          | RawInput r => from_raw csn r None
          | Cooked v0 => ret v0
          end (snd (copy (ObjectValue d ts) s)) = (Ok v, s1) ->
          exists (l' sibs : loc) (sts : Z) (s' : State),
            let now := clock s (ticks s) in
            put_member x name value_raw s
            = (Ok (ObjectMember name sibs v (replaced x (Ref l') now) csn now), s')
            /\ heap s' !! l' = Some (ObjectValue (dict_set name v d) now)
            /\ heap s' !! sibs
               = Some (ObjectValue (dict_remove name (dict_set name v d)) sts)
            /\ preserved s s'
    end.
Proof.
  intros x l d ts name value_raw s Hx Hl Hint qn.
  assert (Hmsn : _member_schema_node x name
                 = match get_data_child (schema_node x) (fst qn) (snd qn) with
                   | Some (_, res) => Ok res
                   | None => Raise TypeError
                   end).
  { unfold _member_schema_node. subst qn.
    destruct (_iname2qname (schema_node x) name) as [loc ns]. by rewrite Hint. }
  destruct (get_data_child (schema_node x) (fst qn) (snd qn)) as [[parent csn]|].
  2:{ unfold put_member, structured, bind, deref, lift. cbv beta.
      rewrite Hx, Hl. cbv beta iota. by rewrite Hmsn. }
  intros v s1 Hraw.
  assert (Hdec : decode csn value_raw (snd (copy (ObjectValue d ts) s)) = (Ok v, s1))
    by (destruct value_raw; exact Hraw).
  clear Hraw.
  set (now := clock s (ticks s)).
  set (s0 := snd (copy (ObjectValue d ts) s)) in *.
  assert (Hs0 : copy (ObjectValue d ts) s = (Ok (length (heap s)), s0)) by done.
  assert (Hh0 : heap s0 = heap s ++ [ObjectValue d now]) by done.
  destruct (frames_decode csn value_raw (S (length (heap s))) s0 (Ok v) s1)
    as (Hf1 & Hlen1 & _); [rewrite Hh0, length_app; simpl; lia | done |].
  assert (Hl1 : heap s1 !! length (heap s) = Some (ObjectValue d now)).
  { rewrite Hf1 by lia. rewrite Hh0. apply lookup_last. }
  set (d' := dict_set name v d).
  set (s2 := mkState (<[length (heap s) := ObjectValue d' now]> (heap s1))
               (clock s1) (ticks s1)).
  assert (Hl2 : heap s2 !! length (heap s) = Some (ObjectValue d' now)).
  { cbn [s2 heap]. apply list_lookup_insert_eq. lia. }
  exists (length (heap s)), (length (heap s2)), (clock s2 (ticks s2)).
  eexists. split; [|split; [|split]].
  - unfold put_member, structured, bind, deref, lift. cbv beta.
    rewrite Hx, Hl. cbv beta iota. rewrite Hmsn, Hs0, Hdec.
    unfold setitem, structured, store, bind, deref. cbv beta. rewrite Hl1.
    fold d'. fold s2.
    rewrite (_copy_structured x (Ref (length (heap s))) (ObjectValue d' now) s2 Hl2).
    cbn [sv_timestamp].
    apply (_member_present _ (length (heap s)) d' now name v csn s2).
    + by destruct x.
    + exact Hl2.
    + apply dict_get_set_eq.
    + rewrite <- Hmsn. unfold _member_schema_node. by destruct x.
  - cbn [heap]. apply lookup_app_l_Some. exact Hl2.
  - cbn [heap]. apply lookup_last.
  - intros a o Ha. cbn [heap]. apply lookup_app_l_Some.
    assert (a < length (heap s))%nat by (by eapply lookup_lt_Some).
    cbn [s2 heap]. rewrite list_lookup_insert_ne by lia.
    rewrite Hf1 by lia. rewrite Hh0. by apply lookup_app_l_Some.
Qed.

(** C3: on the object [{"a": 1}] below the container [c] (leaves [a] and
    [b]), [put_member("z", 2)] does not raise [NonexistentSchemaNode]:
    [_member_schema_node] finds no data child [z] and calls the
    constructor of the exception with three arguments, one more than it
    takes, so that [TypeError] is raised; the state is unchanged.  For
    the permitted name [b] and a raw value the code behaves as stated: the
    value is decoded by the leaf, the result is the member [b] with that
    value, below a copy of the receiver whose object has the member
    appended, and the objects that were in the store are left as they
    were. *)
Theorem put_member_unknown_name_type_error :
  let s := store_of [ObjectValue [("a", int 1)] 0] in
  let x := RootNode (Ref 0%nat) container_c 0 in
  put_member x "z" (Cooked (int 2)) s = (Raise TypeError, s) /\
  exists (l' sibs : loc) (sts : Z) (s' : State),
    put_member x "b" (RawInput (RScalar (SInt 2))) s
    = (Ok (ObjectMember "b" sibs (int 2) (replaced x (Ref l') 0) leaf_b 0), s')
    /\ heap s' !! l' = Some (ObjectValue [("a", int 1); ("b", int 2)] 0)
    /\ heap s' !! sibs = Some (ObjectValue [("a", int 1)] sts)
    /\ preserved s s'.
Proof.
  intros s x. split.
  - exact (put_member_run x 0%nat [("a", int 1)] 0 "z" (Cooked (int 2)) s
             eq_refl eq_refl eq_refl).
  - exact (put_member_run x 0%nat [("a", int 1)] 0 "b"
             (RawInput (RScalar (SInt 2))) s eq_refl eq_refl eq_refl
             (int 2) _ eq_refl).
Qed.

(** ** Deleting an item *)

(** An absent member name is reported as [NonexistentInstance]; the
    objects of the store are left as they were. *)
Lemma delete_item_absent_member (x : InstanceNode) (l : loc)
  (d : list (string * Value)) (ts : Z) (k : string) (s : State) :
  value x = Ref l -> heap s !! l = Some (ObjectValue d ts) ->
  dict_get k d = None ->
  exists s', delete_item x (KName k) s = (Raise NonexistentInstance, s')
             /\ preserved s s'.
Proof.
  intros Hx Hl Hk. eexists. split.
  - unfold delete_item, structured, bind, deref. cbv beta.
    rewrite Hx, Hl. cbv beta iota.
    unfold copy, delitem, datetime_now, alloc, structured, bind, deref.
    cbn [heap clock ticks]. rewrite lookup_last. unfold dict_pop.
    rewrite Hk. reflexivity.
  - by apply (preserved_app _ _ [ObjectValue d (clock s (ticks s))]).
Qed.

(** An index outside the array makes the handler fail on
    ["item " + key]: the caller sees [TypeError]. *)
Lemma delete_item_index_out_of_range (x : InstanceNode) (l : loc)
  (es : list Value) (ts : Z) (i : Z) (s : State) :
  value x = Ref l -> heap s !! l = Some (ArrayValue es ts) ->
  list_delitem es i = None ->
  exists s', delete_item x (KIndex i) s = (Raise TypeError, s').
Proof.
  intros Hx Hl Hi. eexists.
  unfold delete_item, structured, bind, deref. cbv beta.
  rewrite Hx, Hl. cbv beta iota.
  unfold copy, delitem, datetime_now, alloc, structured, bind, deref.
  cbn [heap clock ticks]. rewrite lookup_last, Hi. reflexivity.
Qed.

(** A scalar value cannot lose an item. *)
Lemma delete_item_scalar (x : InstanceNode) (key : InstanceKey) (s : State) :
  deref (heap s) (value x) = None ->
  delete_item x key s = (Raise InstanceValueError, s).
Proof.
  intros Hx. unfold delete_item, structured, bind. by rewrite Hx.
Qed.

(** C4: on the array [[1, 2]], [delete_item(5)] does not raise
    [NonexistentInstance]: [del newval[5]] raises [IndexError], and the
    handler then fails with [TypeError] while it concatenates ["item "]
    and the integer key.  The other cases behave as stated: an absent
    member name raises [NonexistentInstance], [delete_item(0)] returns a
    node holding [[2]], and the receiver's array is still [[1, 2]]. *)
Theorem delete_item_integer_key_type_error :
  let s := store_of [ArrayValue [int 1; int 2] 0; ObjectValue [("a", int 1)] 0] in
  let x := RootNode (Ref 0%nat) leaf_list_l 0 in
  let y := RootNode (Ref 1%nat) container_c 0 in
  (exists s', delete_item x (KIndex 5) s = (Raise TypeError, s')) /\
  (exists s', delete_item y (KName "b") s = (Raise NonexistentInstance, s')) /\
  (exists x' l' s',
      delete_item x (KIndex 0) s = (Ok x', s') /\ value x' = Ref l' /\
      heap s' !! l' = Some (ArrayValue [int 2] 0) /\
      heap s' !! 0%nat = Some (ArrayValue [int 1; int 2] 0)).
Proof.
  intros s x y. split; [|split].
  - eexists. reflexivity.
  - eexists. reflexivity.
  - do 3 eexists. repeat split; lazy; reflexivity.
Qed.

(** ** Decoding raw objects *)

(** A raw object whose first key has no data child under an internal
    node: [from_raw] ends with the [AttributeError] of the access to
    [cn.from_raw] on [None]. *)
Lemma from_raw_unknown_first_key (self : SchemaNode) (qn : string)
  (v : RawValue) (ms : list (string * RawValue)) (ns : option string) (s : State) :
  is_InternalNode (sn_cls self) = true -> sn_cls self <> ListNode ->
  get_data_child self (fst (raw_key qn ns)) (snd (raw_key qn ns)) = None ->
  exists s', from_raw self (RObject ((qn, v) :: ms)) ns s = (Raise AttributeError, s').
Proof.
  intros Hint Hlist Hnone. eexists.
  destruct self as [c name sns chs]. destruct c; try done;
    cbn [from_raw sn_cls]; unfold InternalNode_from_raw, bind at 1;
    cbn [new_ObjectValue]; unfold new_ObjectValue, datetime_now, alloc, bind;
    cbv beta iota; destruct (raw_key qn ns) as [loc ns']; cbn [fst snd] in Hnone;
    rewrite Hnone; reflexivity.
Qed.

(** C5: under the container [c] (leaves [a] and [b]), the raw object
    [{"zzz": 1}] has a key with no data child, and [from_raw] fails with
    [AttributeError], raised by the attribute access on the [None] that
    [get_data_child] returned; no raw-member error is raised anywhere in
    [from_raw].  For the resolvable key of [{"a": 1}] the member is
    decoded by the leaf and stored under its instance name [a]. *)
Theorem from_raw_unknown_key_attribute_error :
  let s := store_of [] in
  (exists s',
      from_raw container_c (RObject [("zzz", RScalar (SInt 1))]) None s
      = (Raise AttributeError, s')) /\
  (exists l' ts' s',
      from_raw container_c (RObject [("a", RScalar (SInt 1))]) None s
      = (Ok (Ref l'), s') /\
      heap s' !! l' = Some (ObjectValue [("a", int 1)] ts')).
Proof.
  intros s. split.
  - eexists. reflexivity.
  - do 3 eexists. split; lazy; reflexivity.
Qed.

(** ** Peeking along a route *)

(** [MemberName] and [EntryIndex] never raise: whatever the value, the
    step gives a value or [None]. *)
Lemma peek_step_inherited_never_raises (h : list StructuredValue) (val : Value) :
  (forall key, exists r, peek_step h (MemberName key) val = Ok r) /\
  (forall key, exists r, peek_step h (EntryIndex key) val = Ok r).
Proof.
  split; intros key; unfold peek_step.
  - destruct (subscript h val (KName key)) as [v|e] eqn:E; [by eexists|].
    destruct e; try (by eexists); exfalso; revert E; unfold subscript;
      repeat case_match; discriminate.
  - destruct (subscript h val (KIndex key)) as [v|e] eqn:E; [by eexists|].
    destruct e; try (by eexists); exfalso; revert E; unfold subscript;
      repeat case_match; discriminate.
Qed.

(** C7: [peek_step] raises for two selector classes.  On the array
    [[{"port": 80}]], whose entry lacks the key [name],
    [EntryKeys({"name": "a"}).peek_step] raises the [KeyError] of
    [en["name"]], which nothing catches; on an object,
    [EntryValue("a").peek_step] raises [AttributeError], since an object
    has no [index] method and only [ValueError] is caught.  The inherited
    [peek_step] of [MemberName] returns [None] on the same values. *)
Theorem peek_step_raises :
  let h := [ArrayValue [Ref 1%nat] 0; ObjectValue [("port", int 80)] 0] in
  peek_step h (EntryKeys [("name", SStr "a")]) (Ref 0%nat) = Raise KeyError /\
  peek_step h (EntryValue (SStr "a")) (Ref 1%nat) = Raise AttributeError /\
  peek_step h (MemberName "name") (Ref 1%nat) = Ok None /\
  peek_step h (MemberName "name") (Ref 0%nat) = Ok None.
Proof. intros h. repeat split; reflexivity. Qed.

(** ** Index predicates of instance identifiers *)

Lemma span_stop (p : ascii -> bool) (a : list ascii) (c : ascii) (r : list ascii) :
  forallb p a = true -> p c = false -> span p (a ++ c :: r) = (a, c :: r).
Proof.
  intros Ha Hc. induction a as [|x a IH]; simpl.
  - by rewrite Hc.
  - simpl in Ha. apply andb_prop in Ha as [Hx Ha]. by rewrite Hx, IH.
Qed.

Lemma char_run (c : ascii) (r : list ascii) (off : nat) :
  char c (mkParser (c :: r) off) = (Ok tt, mkParser r (off + 1)).
Proof.
  unfold char, peek_char, bind. cbn [rest]. by rewrite Ascii.eqb_refl.
Qed.

Lemma skip_ws_run (ws : list ascii) (c : ascii) (r : list ascii) (off : nat) :
  forallb is_ws ws = true -> is_ws c = false ->
  skip_ws (mkParser (ws ++ c :: r) off)
  = (Ok tt, mkParser (c :: r) (off + length ws)).
Proof.
  intros Hws Hc. unfold skip_ws, advance. cbn [rest offset].
  rewrite (span_stop is_ws ws c r Hws Hc). cbn [fst].
  by rewrite drop_app_length.
Qed.

Lemma unsigned_integer_run (ds : list ascii) (c : ascii) (r : list ascii) (off : nat) :
  ds <> [] -> forallb is_digit ds = true -> is_digit c = false ->
  unsigned_integer (mkParser (ds ++ c :: r) off)
  = (Ok (digits_value ds), mkParser (c :: r) (off + length ds)).
Proof.
  intros Hne Hds Hc. unfold unsigned_integer. cbn [rest offset].
  rewrite (span_stop is_digit ds c r Hds Hc). cbn [fst].
  destruct ds as [|d ds]; [done|].
  unfold bind, advance, ret. cbn [rest offset].
  by rewrite drop_app_length.
Qed.

Lemma yang_identifier_run (name : list ascii) (c : ascii) (r : list ascii) (off : nat) :
  is_identifier name = true -> is_ident_char c = false ->
  yang_identifier (mkParser (name ++ c :: r) off)
  = (Ok (string_of_list_ascii name), mkParser (c :: r) (off + length name)).
Proof.
  intros Hname Hc. destruct name as [|x body]; [done|].
  simpl in Hname. apply andb_prop in Hname as [Hx Hbody].
  unfold yang_identifier. cbn [rest offset app]. rewrite Hx.
  rewrite (span_stop is_ident_char body c r Hbody Hc). cbn [fst].
  unfold bind, advance, ret. cbn [rest offset drop length].
  by rewrite drop_app_length.
Qed.

Lemma prefixed_name_run (prefix : option (list ascii)) (name : list ascii)
  (c : ascii) (r : list ascii) (off : nat) :
  match prefix with Some p => is_identifier p = true | None => True end ->
  is_identifier name = true -> is_ident_char c = false -> c <> ":"%char ->
  prefixed_name (mkParser (member_token prefix name ++ c :: r) off)
  = (Ok (string_of_list_ascii name, option_map string_of_list_ascii prefix),
     mkParser (c :: r) (off + length (member_token prefix name))).
Proof.
  intros Hp Hname Hc Hcolon. unfold prefixed_name, bind at 1.
  destruct prefix as [p|]; cbn [member_token option_map].
  - rewrite <- app_assoc. cbn [app].
    rewrite (yang_identifier_run p ":" _ off Hp eq_refl).
    unfold peek_char. cbn [rest]. rewrite Ascii.eqb_refl.
    unfold bind, advance, ret. cbn [rest offset drop].
    rewrite (yang_identifier_run name c r _ Hname Hc).
    rewrite length_app. cbn [length].
    by replace (off + length p + 1 + length name)%nat
      with (off + (length p + S (length name)))%nat by lia.
  - rewrite (yang_identifier_run name c r off Hname Hc).
    unfold peek_char. cbn [rest].
    destruct (Ascii.eqb_spec c ":"); [done|]. reflexivity.
Qed.

Lemma digit_not_ws (c : ascii) : is_digit c = true -> is_ws c = false.
Proof.
  unfold is_ws. intros Hd.
  destruct (Ascii.eqb_spec c " ") as [->|_]; [done|].
  destruct (Ascii.eqb_spec c "009") as [->|_]; [done|].
  destruct (Ascii.eqb_spec c "010") as [->|_]; [done|].
  destruct (Ascii.eqb_spec c "013") as [->|_]; [done|].
  reflexivity.
Qed.

Lemma ws_not_digit (c : ascii) : is_ws c = true -> is_digit c = false.
Proof.
  intros Hws. destruct (is_digit c) eqn:Hd; [|done].
  by rewrite (digit_not_ws c Hd) in Hws.
Qed.

Lemma after_digits (ws : list ascii) (tail : list ascii) :
  forallb is_ws ws = true ->
  exists c r, ws ++ "]"%char :: tail = c :: r /\ is_digit c = false.
Proof.
  intros Hws. destruct ws as [|w ws]; simpl.
  - by exists "]"%char, tail.
  - exists w, (ws ++ "]"%char :: tail). split; [done|].
    simpl in Hws. apply andb_prop in Hws as [Hw _]. by apply ws_not_digit.
Qed.

Lemma _member_name_run (sn parent cn : SchemaNode) (prefix : option (list ascii))
  (name : list ascii) (iname : string) (c : ascii) (r : list ascii) (off : nat) :
  match prefix with Some p => is_identifier p = true | None => True end ->
  is_identifier name = true -> is_ident_char c = false -> c <> ":"%char ->
  (let ns := option_map string_of_list_ascii prefix in
   call_get_data_child sn (string_of_list_ascii name)
     (if truthy ns then ns else sn_ns sn) = Ok (Some (parent, cn))) ->
  qname parent cn = Ok iname ->
  _member_name sn (mkParser (member_token prefix name ++ c :: r) off)
  = (Ok (MemberName iname, cn),
     mkParser (c :: r) (off + length (member_token prefix name))).
Proof.
  intros Hp Hname Hc Hcolon Hchild Hq. unfold _member_name, bind at 1.
  rewrite (prefixed_name_run prefix name c r off Hp Hname Hc Hcolon).
  cbv zeta in Hchild. unfold bind, lift, ret. rewrite Hchild, Hq. reflexivity.
Qed.

Lemma digits_value_nonneg (ds : list ascii) :
  forallb is_digit ds = true -> 0 <= digits_value ds.
Proof.
  unfold digits_value.
  assert (H : forall acc, 0 <= acc -> forallb is_digit ds = true ->
              0 <= fold_left
                     (fun acc c => 10 * acc + (Z.of_nat (nat_of_ascii c) - 48))
                     ds acc).
  { induction ds as [|d ds IH]; intros a Ha Hds; simpl; [done|].
    simpl in Hds. apply andb_prop in Hds as [Hd Hds]. apply IH; [|done].
    unfold is_digit in Hd. apply andb_prop in Hd as [Hlo _].
    apply Nat.leb_le in Hlo. lia. }
  apply H. lia.
Qed.

Section IndexPredicate.

Variable parse_value : SchemaNode -> string -> Result ScalarValue.

(** The loop of the parser at a member name followed by a predicate
    [[n]]: it raises when the number is 0, and otherwise appends the two
    selectors and returns or goes on below the child. *)
Lemma parse_loop_index_predicate :
  forall (sn parent cn : SchemaNode) (prefix : option (list ascii))
         (name : list ascii) (iname : string) (ws1 ds ws2 tail : list ascii)
         (res : InstanceRoute) (off fuel : nat),
    match prefix with Some p => is_identifier p = true | None => True end ->
    is_identifier name = true ->
    (let ns := option_map string_of_list_ascii prefix in
     call_get_data_child sn (string_of_list_ascii name)
       (if truthy ns then ns else sn_ns sn) = Ok (Some (parent, cn))) ->
    qname parent cn = Ok iname ->
    forallb is_ws ws1 = true -> forallb is_ws ws2 = true ->
    ds <> [] -> forallb is_digit ds = true ->
    let n := digits_value ds in
    let token := member_token prefix name in
    let behind_digits := (off + 1 + length token + 1 + length ws1 + length ds)%nat in
    let st_end := mkParser tail (behind_digits + length ws2 + 1) in
    let res' := (res ++ [MemberName iname]) ++ [EntryIndex (n - 1)] in
    0 <= n /\
    parse_loop parse_value (S fuel) sn res
      (mkParser ("/"%char :: token ++ "["%char :: ws1 ++ ds ++ ws2 ++ "]"%char :: tail)
         off)
    = if n =? 0
      then (Raise (UnexpectedInput behind_digits),
            mkParser (ws2 ++ "]"%char :: tail) behind_digits)
      else match tail with
           | [] => (Ok (Some res'), st_end)
           | _ :: _ => parse_loop parse_value fuel cn res' st_end
           end.
Proof.
  intros sn parent cn prefix name iname ws1 ds ws2 tail res off fuel
    Hp Hname Hchild Hq Hws1 Hws2 Hne Hds n token behind_digits st_end res'.
  split; [by apply digits_value_nonneg|].
  cbn [parse_loop]. unfold bind at 1. rewrite char_run.
  unfold bind at 1.
  rewrite (_member_name_run sn parent cn prefix name iname "[" _ _
             Hp Hname eq_refl ltac:(discriminate) Hchild Hq).
  fold token. unfold peek_char at 1. cbn [rest]. cbn [Ascii.eqb Bool.eqb].
  unfold bind at 1, advance at 1. cbn [rest offset drop].
  destruct ds as [|d ds']; [done|].
  assert (Hd : is_digit d = true) by (simpl in Hds; by apply andb_prop in Hds as [? _]).
  unfold bind at 1. cbn [app]. rewrite drop_0.
  rewrite (skip_ws_run ws1 d _ _ Hws1 (digit_not_ws d Hd)).
  unfold bind at 1, peek_char at 1. cbn [rest]. rewrite Hd.
  destruct (after_digits ws2 tail Hws2) as (c & r & Hcr & Hc).
  unfold bind at 1. unfold bind at 1.
  change (d :: ds' ++ ws2 ++ "]"%char :: tail)
    with ((d :: ds') ++ ws2 ++ "]"%char :: tail).
  rewrite Hcr.
  rewrite (unsigned_integer_run (d :: ds') c r _ Hne Hds Hc).
  fold n. fold behind_digits. rewrite <- Hcr.
  pose proof (digits_value_nonneg (d :: ds') Hds) as Hn. fold n in Hn.
  destruct (Z.eqb_spec n 0) as [Hz|Hz].
  - replace (n - 1 <? 0) with true by (symmetry; apply Z.ltb_lt; lia).
    reflexivity.
  - replace (n - 1 <? 0) with false by (symmetry; apply Z.ltb_ge; lia).
    unfold bind at 1.
    rewrite (skip_ws_run ws2 "]" tail _ Hws2 eq_refl). cbv beta iota.
    unfold bind at 1. rewrite char_run. cbv beta iota.
    unfold ret at 1. cbv beta iota.
    unfold bind at 1, at_end at 1. cbn [rest].
    destruct tail as [|t tail']; reflexivity.
Qed.

(** C8: a member name followed by a predicate [[n]] (digits [ds], optional
    white space around them), where the name resolves to the data child
    [cn] with instance name [iname].  The number [n] is never negative.
    Wherever the loop of the parser meets such a member, it raises
    [UnexpectedInput] at the offset behind the digits when [n] is 0, and
    otherwise appends [MemberName iname] and [EntryIndex (n - 1)] to the
    route, which is the result if the input ends there and the route the
    loop continues with below [cn] if it does not.  In particular, parsing
    the identifier that consists of this member alone gives the route
    [[MemberName iname; EntryIndex (n - 1)]] when [n >= 1]. *)
Theorem parse_index_predicate :
  forall (sn parent cn : SchemaNode) (prefix : option (list ascii))
         (name : list ascii) (iname : string) (ws1 ds ws2 : list ascii),
    match prefix with Some p => is_identifier p = true | None => True end ->
    is_identifier name = true ->
    (let ns := option_map string_of_list_ascii prefix in
     call_get_data_child sn (string_of_list_ascii name)
       (if truthy ns then ns else sn_ns sn) = Ok (Some (parent, cn))) ->
    qname parent cn = Ok iname ->
    forallb is_ws ws1 = true -> forallb is_ws ws2 = true ->
    ds <> [] -> forallb is_digit ds = true ->
    let n := digits_value ds in
    let token := member_token prefix name in
    let predicate := "["%char :: ws1 ++ ds ++ ws2 ++ ["]"%char] in
    0 <= n /\
    (forall (tail : list ascii) (res : InstanceRoute) (off fuel : nat),
        let behind_digits :=
          (off + 1 + length token + 1 + length ws1 + length ds)%nat in
        let st_end := mkParser tail (behind_digits + length ws2 + 1) in
        let res' := (res ++ [MemberName iname]) ++ [EntryIndex (n - 1)] in
        parse_loop parse_value (S fuel) sn res
          (mkParser ("/"%char :: token ++ predicate ++ tail) off)
        = if n =? 0
          then (Raise (UnexpectedInput behind_digits),
                mkParser (ws2 ++ "]"%char :: tail) behind_digits)
          else match tail with
               | [] => (Ok (Some res'), st_end)
               | _ :: _ => parse_loop parse_value fuel cn res' st_end
               end) /\
    InstanceIdParser_parse parse_value sn
      (string_of_list_ascii ("/"%char :: token ++ predicate))
    = if n =? 0
      then Raise (UnexpectedInput (1 + length token + 1 + length ws1 + length ds))
      else Ok (Some [MemberName iname; EntryIndex (n - 1)]).
Proof.
  intros sn parent cn prefix name iname ws1 ds ws2
    Hp Hname Hchild Hq Hws1 Hws2 Hne Hds n token predicate.
  assert (Hstep : forall (tail : list ascii) (res : InstanceRoute) (off fuel : nat),
             parse_loop parse_value (S fuel) sn res
               (mkParser ("/"%char :: token ++ predicate ++ tail) off)
             = if n =? 0
               then (Raise (UnexpectedInput
                              (off + 1 + length token + 1 + length ws1 + length ds)),
                     mkParser (ws2 ++ "]"%char :: tail)
                       (off + 1 + length token + 1 + length ws1 + length ds))
               else match tail with
                    | [] =>
                        (Ok (Some ((res ++ [MemberName iname])
                                   ++ [EntryIndex (n - 1)])),
                         mkParser tail
                           (off + 1 + length token + 1 + length ws1 + length ds
                            + length ws2 + 1))
                    | _ :: _ =>
                        parse_loop parse_value fuel cn
                          ((res ++ [MemberName iname]) ++ [EntryIndex (n - 1)])
                          (mkParser tail
                             (off + 1 + length token + 1 + length ws1 + length ds
                              + length ws2 + 1))
                    end).
  { intros tail res off fuel.
    destruct (parse_loop_index_predicate sn parent cn prefix name iname
                ws1 ds ws2 tail res off fuel Hp Hname Hchild Hq Hws1 Hws2 Hne Hds)
      as [_ H].
    replace (token ++ predicate ++ tail)
      with (token ++ "["%char :: ws1 ++ ds ++ ws2 ++ "]"%char :: tail); [exact H|].
    unfold predicate. cbn [app]. by rewrite <- !app_assoc. }
  split; [by apply digits_value_nonneg|]. split; [exact Hstep|].
  unfold InstanceIdParser_parse. rewrite list_ascii_of_string_of_list_ascii.
  replace (token ++ predicate) with (token ++ predicate ++ []) by (by rewrite app_nil_r).
  cbn [length]. rewrite Hstep. by destruct (n =? 0).
Qed.

End IndexPredicate.

Lemma parse_index_predicate_witness :
  let pv := fun (_ : SchemaNode) (text : string) => Ok (SStr text) in
  InstanceIdParser_parse pv container_c "/a[2]"
  = Ok (Some [MemberName "a"; EntryIndex 1]) /\
  InstanceIdParser_parse pv container_c "/m:b[ 0 ]"
  = Raise (UnexpectedInput 7).
Proof.
  intros pv. split.
  - exact (proj2 (proj2
      (parse_index_predicate pv container_c container_c leaf_a None
         ["a"%char] "a" [] ["2"%char] []
         I eq_refl eq_refl eq_refl eq_refl eq_refl
         ltac:(discriminate) eq_refl))).
  - exact (proj2 (proj2
      (parse_index_predicate pv container_c container_c leaf_b
         (Some ["m"%char]) ["b"%char] "b" [" "%char] ["0"%char] [" "%char]
         eq_refl eq_refl eq_refl eq_refl eq_refl eq_refl
         ltac:(discriminate) eq_refl))).
Defined.

(** * Further properties *)

(** ** Linked lists and sibling moves *)

(** X1: [LinkedList.from_list] and the iteration over a linked list are
    inverse to each other: listing the linked list built from [vals]
    gives [vals] back, in the same order, and building a linked list from
    the listing of [l] gives [l]. *)
Theorem linked_list_round_trip :
  forall (vals : list Value) (l : LinkedList.t),
    LinkedList.to_list (LinkedList.from_list vals) = vals /\
    LinkedList.from_list (LinkedList.to_list l) = l.
Proof.
  intros vals l. split; [apply to_list_from_list | apply from_list_to_list].
Qed.

(** The array that [_zip] rebuilds does not depend on where the focus
    stands. *)
Lemma zip_after_next (i : Z) (bef aft : LinkedList.t) (v a : Value) :
  rev (LinkedList.to_list (LinkedList.cons bef v)) ++ [a] ++ LinkedList.to_list aft
  = rev (LinkedList.to_list bef) ++ [v] ++ LinkedList.to_list (LinkedList.Cell a aft).
Proof. simpl. by rewrite <- app_assoc. Qed.

(** X2: moving the focus does not change what [up] rebuilds: when
    [e.next()] (or [e.previous()]) exists, [up] of it returns the same
    parent node and leaves the same store as [up] of [e]. *)
Theorem up_after_sibling_move :
  forall (e e' : InstanceNode) (s : State),
    next e = Ok e' \/ previous e = Ok e' -> up e' s = up e s.
Proof.
  intros e e' s [H|H]; destruct e as [| |i bef aft v par sn ts]; try done.
  - destruct aft as [|a aft]; [done|]. injection H as <-.
    unfold up, _zip, bind, alloc, ret. cbn [parinst timestamp].
    cbn [LinkedList.to_list LinkedList.cons rev].
    by rewrite <- !app_assoc.
  - destruct bef as [|b bef]; [done|]. injection H as <-.
    unfold up, _zip, bind, alloc, ret. cbn [parinst timestamp].
    cbn [LinkedList.to_list LinkedList.cons rev].
    by rewrite <- !app_assoc.
Qed.

Lemma up_after_sibling_move_witness :
  let e := ArrayEntry 0 LinkedList.EmptyList
             (LinkedList.Cell (int 2) LinkedList.EmptyList) (int 1)
             (RootNode (Ref 0%nat) leaf_list_l 0) leaf_list_l 0 in
  let e' := ArrayEntry 1 (LinkedList.Cell (int 1) LinkedList.EmptyList)
              LinkedList.EmptyList (int 2)
              (RootNode (Ref 0%nat) leaf_list_l 0) leaf_list_l 0 in
  up e' (store_of [ArrayValue [int 1; int 2] 0])
  = up e (store_of [ArrayValue [int 1; int 2] 0]).
Proof.
  intros e e'. apply (up_after_sibling_move e e'). left. reflexivity.
Defined.

(** ** Indexing *)

Lemma py_index_negative (n : nat) (k : Z) :
  0 < k <= Z.of_nat n ->
  py_index n (- k) = py_index n (Z.of_nat n - k).
Proof.
  intros Hk. unfold py_index.
  replace (0 <=? - k) with false by (symmetry; apply Z.leb_gt; lia).
  replace (- k <? 0) with true by (symmetry; apply Z.ltb_lt; lia).
  replace (0 <=? Z.of_nat n + - k) with true by (symmetry; apply Z.leb_le; lia).
  replace (0 <=? Z.of_nat n - k) with true by (symmetry; apply Z.leb_le; lia).
  replace (Z.of_nat n - k <? Z.of_nat n) with true by (symmetry; apply Z.ltb_lt; lia).
  simpl. do 2 f_equal; lia.
Qed.

(** X3: on an array of [n] entries, a negative index [-k] with
    [1 <= k <= n] addresses the entry [n - k]: [x[-k]] returns the very
    entry that [x[n - k]] returns, with the non-negative index in its
    path. *)
Theorem getitem_negative_index :
  forall (x : InstanceNode) (l : loc) (es : list Value) (ts : Z) (k : Z)
         (s : State),
    value x = Ref l -> heap s !! l = Some (ArrayValue es ts) ->
    0 < k <= Z.of_nat (length es) ->
    getitem x (KIndex (- k)) s
    = getitem x (KIndex (Z.of_nat (length es) - k)) s /\
    exists e, getitem x (KIndex (- k)) s = (Ok e, s) /\
              index e = Some (Z.of_nat (length es) - k).
Proof.
  intros x l es ts k s Hx Hl Hk.
  assert (Hi : exists i : nat, Z.of_nat (length es) - k = Z.of_nat i /\
                               (i < length es)%nat).
  { exists (Z.to_nat (Z.of_nat (length es) - k)). lia. }
  destruct Hi as (i & Hi & Hlt).
  destruct (lookup_lt_is_Some_2 es i Hlt) as [v Hv].
  assert (Hneg : getitem x (KIndex (- k)) s
                 = getitem x (KIndex (Z.of_nat (length es) - k)) s).
  { unfold getitem, _entry, structured, bind, deref. cbv beta.
    rewrite Hx, Hl. cbv beta iota. rewrite Hl.
    unfold list_getitem. rewrite (py_index_negative _ _ Hk).
    replace (- k <? 0) with true by (symmetry; apply Z.ltb_lt; lia).
    replace (Z.of_nat (length es) - k <? 0) with false
      by (symmetry; apply Z.ltb_ge; lia).
    by replace (Z.of_nat (length es) + - k) with (Z.of_nat (length es) - k) by lia. }
  split; [exact Hneg|]. rewrite Hneg, Hi.
  rewrite (getitem_entry x l es ts i v s Hx Hl Hv). by eexists.
Qed.

Lemma getitem_negative_index_witness :
  let s := store_of [ArrayValue [int 1; int 2; int 3] 0] in
  let x := RootNode (Ref 0%nat) leaf_list_l 0 in
  getitem x (KIndex (- 1)) s = getitem x (KIndex (3 - 1)) s /\
  exists e, getitem x (KIndex (- 1)) s = (Ok e, s) /\ index e = Some (3 - 1).
Proof.
  intros s x.
  apply (getitem_negative_index x 0%nat [int 1; int 2; int 3] 0 1 s);
    [reflexivity | reflexivity | simpl; lia].
Defined.

(** X4: indexing outside the array, on either side, raises
    [NonexistentInstance] and leaves the state as it was. *)
Theorem getitem_index_out_of_range :
  forall (x : InstanceNode) (l : loc) (es : list Value) (ts : Z) (i : Z)
         (s : State),
    value x = Ref l -> heap s !! l = Some (ArrayValue es ts) ->
    i < - Z.of_nat (length es) \/ Z.of_nat (length es) <= i ->
    getitem x (KIndex i) s = (Raise NonexistentInstance, s).
Proof.
  intros x l es ts i s Hx Hl Hi.
  unfold getitem, _entry, structured, bind, deref. cbv beta.
  rewrite Hx, Hl. cbv beta iota. rewrite Hl.
  unfold list_getitem, py_index.
  destruct Hi as [Hi|Hi].
  - replace (0 <=? i) with false by (symmetry; apply Z.leb_gt; lia).
    replace (0 <=? Z.of_nat (length es) + i) with false
      by (symmetry; apply Z.leb_gt; lia).
    by rewrite andb_false_r.
  - replace (i <? Z.of_nat (length es)) with false
      by (symmetry; apply Z.ltb_ge; lia).
    replace (i <? 0) with false by (symmetry; apply Z.ltb_ge; lia).
    by rewrite andb_false_r.
Qed.

Lemma getitem_index_out_of_range_witness :
  let s := store_of [ArrayValue [int 1; int 2; int 3] 0] in
  let x := RootNode (Ref 0%nat) leaf_list_l 0 in
  getitem x (KIndex 3) s = (Raise NonexistentInstance, s) /\
  getitem x (KIndex (- 4)) s = (Raise NonexistentInstance, s).
Proof.
  intros s x. split.
  - apply (getitem_index_out_of_range x 0%nat [int 1; int 2; int 3] 0 3 s);
      [reflexivity | reflexivity | simpl; lia].
  - apply (getitem_index_out_of_range x 0%nat [int 1; int 2; int 3] 0 (- 4) s);
      [reflexivity | reflexivity | simpl; lia].
Defined.

(** X5: descending to a member that the object does not have raises
    [NonexistentInstance], whatever the schema says about the name.
    Descending to a member that is present but has no data child in the
    schema raises [TypeError]: the member is taken out of the copy first,
    and the schema lookup then fails while it constructs its exception
    (three arguments for a constructor that takes two), which the
    [KeyError] handler of [_member] does not catch; below a schema node
    without children the lookup raises [AttributeError].  In all cases
    every object of the store is left as it was. *)
Theorem getitem_missing_member :
  forall (x : InstanceNode) (l : loc) (d : list (string * Value)) (ts : Z)
         (k : string) (s : State),
    value x = Ref l -> heap s !! l = Some (ObjectValue d ts) ->
    match dict_get k d with
    | None =>
        exists s', getitem x (KName k) s = (Raise NonexistentInstance, s')
                   /\ preserved s s'
    | Some _ =>
        let qn := _iname2qname (schema_node x) k in
        if is_InternalNode (sn_cls (schema_node x)) then
          get_data_child (schema_node x) (fst qn) (snd qn) = None ->
          exists s', getitem x (KName k) s = (Raise TypeError, s')
                     /\ preserved s s'
        else
          exists s', getitem x (KName k) s = (Raise AttributeError, s')
                     /\ preserved s s'
    end.
Proof.
  intros x l d ts k s Hx Hl.
  assert (Hg :
             getitem x (KName k) s
             = match dict_get k d with
               | None =>
                   (Raise NonexistentInstance,
                    mkState (heap s ++ [ObjectValue d (clock s (ticks s))])
                      (clock s) (S (ticks s)))
               | Some v =>
                   match _member_schema_node x k with
                   | Ok csn =>
                       (Ok (ObjectMember k (length (heap s)) v x csn ts),
                        mkState (heap s ++ [ObjectValue (dict_remove k d)
                                              (clock s (ticks s))])
                          (clock s) (S (ticks s)))
                   | Raise e =>
                       (Raise e,
                        mkState (heap s ++ [ObjectValue (dict_remove k d)
                                              (clock s (ticks s))])
                          (clock s) (S (ticks s)))
                   end
               end).
  { unfold getitem, _member, structured, bind, deref. cbv beta.
    rewrite Hx, Hl. cbv beta iota. rewrite Hl.
    unfold copy, pop, datetime_now, alloc, store, structured, bind, ret, lift, deref.
    cbn [heap clock ticks]. rewrite lookup_last. unfold dict_pop.
    destruct (dict_get k d) as [v|]; [|reflexivity].
    cbn [heap clock ticks]. rewrite insert_last.
    by destruct (_member_schema_node x k). }
  destruct (dict_get k d) as [v|].
  - cbv zeta. revert Hg. unfold _member_schema_node.
    destruct (_iname2qname (schema_node x) k) as [loc ns]. cbn [fst snd].
    destruct (is_InternalNode (sn_cls (schema_node x))).
    + intros Hg Hnone. rewrite Hnone in Hg. eexists. split; [exact Hg|].
      by eapply preserved_app.
    + intros Hg. eexists. split; [exact Hg|]. by eapply preserved_app.
  - eexists. split; [exact Hg|]. by eapply preserved_app.
Qed.

Lemma getitem_missing_member_witness :
  let s := store_of [ObjectValue [("a", int 1); ("zzz", int 2)] 0] in
  let x := RootNode (Ref 0%nat) container_c 0 in
  (exists s', getitem x (KName "b") s = (Raise NonexistentInstance, s')
              /\ preserved s s') /\
  (exists s', getitem x (KName "zzz") s = (Raise TypeError, s')
              /\ preserved s s').
Proof.
  intros s x. split.
  - exact (getitem_missing_member x 0%nat [("a", int 1); ("zzz", int 2)] 0 "b" s
             eq_refl eq_refl).
  - exact (getitem_missing_member x 0%nat [("a", int 1); ("zzz", int 2)] 0 "zzz" s
             eq_refl eq_refl eq_refl).
Defined.

(** ** Ascending after a move or a change *)

(** What [up] rebuilds from any array entry. *)
Lemma entry_zip_up (i : Z) (bef aft : LinkedList.t) (v : Value)
  (par : InstanceNode) (sn : SchemaNode) (ts : Z) (s : State) :
  up (ArrayEntry i bef aft v par sn ts) s
  = (Ok (replaced par (Ref (length (heap s))) (Z.max ts (timestamp par))),
     mkState (heap s ++ [ArrayValue (rev (LinkedList.to_list bef) ++ [v]
                                       ++ LinkedList.to_list aft) ts])
       (clock s) (ticks s)).
Proof.
  unfold up, _zip, bind, alloc, ret. cbn [parinst timestamp].
  rewrite _copy_with_timestamp. by rewrite <- app_assoc.
Qed.

(** All the entries of an array, as the iteration yields them. *)
Lemma drain_array (x : InstanceNode) (l : loc) (es : list Value) (ts : Z)
  (s : State) (fuel : nat) :
  value x = Ref l -> heap s !! l = Some (ArrayValue es ts) ->
  (length es < fuel)%nat ->
  drain fuel (GenStart x) s = (Ok (Some (entries_from x ts 0 [] es)), s).
Proof.
  intros Hx Hl Hfuel. destruct fuel as [|fuel]; [lia|].
  destruct es as [|v rest].
  - simpl. unfold bind, gen_next, getitem, _entry, structured, bind, deref.
    rewrite Hx, Hl. cbv beta iota. by rewrite Hl.
  - change (drain (S fuel) ?g) with
      (r <- gen_next g ;;
       match r with
       | (None, _) => ret (Some [])
       | (Some en, g') =>
           rest <- drain fuel g' ;; ret (option_map (fun l => en :: l) rest)
       end).
    unfold bind, gen_next. change (KIndex 0) with (KIndex (Z.of_nat 0)).
    rewrite (getitem_entry x l (v :: rest) ts 0 v s Hx Hl eq_refl).
    assert (length rest < fuel)%nat as Hrest by (simpl in Hfuel; lia).
    change (drop 1 (v :: rest)) with rest.
    change (take 0 (v :: rest)) with (@nil Value).
    change (Z.of_nat 0) with 0.
    rewrite (drain_suspended x ts rest 0 [] v fuel s Hrest).
    reflexivity.
Qed.

(** X6: every entry that the iteration over an array-valued node yields
    zips back to the array: [up] of it returns a copy of the node whose
    value is a new array with the entries of the original one, in the
    same order and with the same timestamp, and the objects of the store
    are left as they were. *)
Theorem iterated_entry_up_restores_array :
  forall (x : InstanceNode) (l : loc) (es : list Value) (ts : Z) (s : State)
         (fuel : nat),
    value x = Ref l -> heap s !! l = Some (ArrayValue es ts) ->
    (length es < fuel)%nat ->
    exists ens,
      drain fuel (GenStart x) s = (Ok (Some ens), s) /\
      forall (i : nat) (e : InstanceNode),
        ens !! i = Some e ->
        exists x' l' s',
          up e s = (Ok x', s') /\ value x' = Ref l' /\
          schema_node x' = schema_node x /\
          heap s' !! l' = Some (ArrayValue es ts) /\
          preserved s s'.
Proof.
  intros x l es ts s fuel Hx Hl Hfuel.
  exists (entries_from x ts 0 [] es). split; [by eapply drain_array|].
  intros i e He.
  assert (Hi : (i < length es)%nat).
  { rewrite <- (length_entries_from x ts 0 [] es). by eapply lookup_lt_Some. }
  destruct (lookup_lt_is_Some_2 es i Hi) as [v Hv].
  rewrite (lookup_entries_from x ts 0 [] es i v Hv) in He. injection He as <-.
  eexists _, _, _. rewrite entry_zip_up.
  split; [reflexivity|]. split; [by destruct x|]. split; [by destruct x|].
  split.
  - cbn [heap]. rewrite lookup_last. rewrite !to_list_from_list.
    rewrite app_nil_r, rev_involutive. f_equal. f_equal.
    rewrite <- (take_drop_middle es i v Hv) at 3. reflexivity.
  - by eapply preserved_app.
Qed.

Lemma iterated_entry_up_restores_array_witness :
  let s := store_of [ArrayValue [int 1; int 2; int 3] 0] in
  let x := RootNode (Ref 0%nat) leaf_list_l 0 in
  exists ens,
    drain 4 (GenStart x) s = (Ok (Some ens), s) /\
    forall (i : nat) (e : InstanceNode),
      ens !! i = Some e ->
      exists x' l' s',
        up e s = (Ok x', s') /\ value x' = Ref l' /\
        schema_node x' = schema_node x /\
        heap s' !! l' = Some (ArrayValue [int 1; int 2; int 3] 0) /\
        preserved s s'.
Proof.
  intros s x.
  apply (iterated_entry_up_restores_array x 0%nat [int 1; int 2; int 3] 0 s 4%nat);
    [reflexivity | reflexivity | simpl; lia].
Defined.

(** X7: a change made below is seen above, and only there: descending to
    the member [k], replacing its value with [update] and ascending gives
    a node whose value is a new object in which [k] maps to the new value
    and every other name maps to what it mapped to before; the receiver's
    object and all other objects of the store are left as they were. *)
Theorem update_member_then_up :
  forall (x : InstanceNode) (l : loc) (d : list (string * Value)) (ts : Z)
         (k : string) (v nv : Value) (csn : SchemaNode) (s : State),
    value x = Ref l -> heap s !! l = Some (ObjectValue d ts) ->
    NoDup (dict_keys d) -> dict_get k d = Some v ->
    _member_schema_node x k = Ok csn ->
    exists x' l' d' ts' s',
      (m <- getitem x (KName k) ;; m' <- update m (Cooked nv) ;; up m') s
      = (Ok x', s') /\
      value x' = Ref l' /\
      heap s' !! l' = Some (ObjectValue d' ts') /\
      dict_get k d' = Some nv /\
      (forall k', k' <> k -> dict_get k' d' = dict_get k' d) /\
      heap s' !! l = Some (ObjectValue d ts) /\
      preserved s s'.
Proof.
  intros x l d ts k v nv csn s Hx Hl Hnd Hk Hcsn.
  set (s1 := mkState (heap s ++ [ObjectValue (dict_remove k d) (clock s (ticks s))])
               (clock s) (S (ticks s))).
  assert (Hsib : forall s2, heap s2 = heap s1 ->
                            heap s2 !! length (heap s)
                            = Some (ObjectValue (dict_remove k d) (clock s (ticks s)))).
  { intros s2 ->. cbn [s1 heap]. apply lookup_last. }
  assert (Hrun : exists ts' s2,
             heap s2 = heap s1 /\
             update (ObjectMember k (length (heap s)) v x csn ts) (Cooked nv) s1
             = (Ok (ObjectMember k (length (heap s)) nv x csn ts'), s2)).
  { unfold update, decode, _copy, structured, bind, ret, datetime_now.
    destruct (deref (heap s1) nv) as [sv|];
      eexists _, _; (split; [|reflexivity]); reflexivity. }
  destruct Hrun as (ts' & s2 & Hh2 & Hupd).
  exists (replaced x (Ref (S (length (heap s2)))) (Z.max ts' (timestamp x))),
    (S (length (heap s2))), (dict_remove k d ++ [(k, nv)]), ts'.
  eexists. split; [|split; [|split; [|split; [|split; [|split]]]]].
  - unfold bind at 1. rewrite (getitem_member x l d ts k v csn s Hx Hl Hk Hcsn).
    fold s1. unfold bind at 1. rewrite Hupd.
    rewrite (member_up k _ nv x csn ts' _ _ s2 (Hsib s2 Hh2)).
    rewrite dict_set_fresh by (by apply dict_get_remove_eq). reflexivity.
  - by destruct x.
  - cbn [heap].
    replace (S (length (heap s2)))
      with (length (heap s2 ++ [ObjectValue (dict_remove k d) (clock s2 (ticks s2))]))
      by (rewrite length_app; simpl; lia).
    change (heap s2 ++ [?a; ?b]) with (heap s2 ++ [a] ++ [b]).
    rewrite app_assoc. apply lookup_last.
  - rewrite dict_get_app_fresh, dict_get_remove_eq by done.
    by rewrite String.eqb_refl.
  - intros k' Hne. rewrite dict_get_app_fresh, dict_get_remove_ne by done.
    destruct (dict_get k' d); [done|].
    by destruct (String.eqb_spec k' k).
  - cbn [heap]. rewrite Hh2. cbn [s1 heap].
    apply lookup_app_l_Some. by apply lookup_app_l_Some.
  - intros a o Ha. cbn [heap]. rewrite Hh2. cbn [s1 heap].
    apply lookup_app_l_Some. by apply lookup_app_l_Some.
Qed.

Lemma update_member_then_up_witness :
  let s := store_of [ObjectValue [("a", int 1); ("b", int 2)] 0] in
  let x := RootNode (Ref 0%nat) container_c 0 in
  exists x' l' d' ts' s',
    (m <- getitem x (KName "a") ;; m' <- update m (Cooked (int 7)) ;; up m') s
    = (Ok x', s') /\
    value x' = Ref l' /\
    heap s' !! l' = Some (ObjectValue d' ts') /\
    dict_get "a" d' = Some (int 7) /\
    (forall k', k' <> "a" ->
                dict_get k' d' = dict_get k' [("a", int 1); ("b", int 2)]) /\
    heap s' !! 0%nat = Some (ObjectValue [("a", int 1); ("b", int 2)] 0) /\
    preserved s s'.
Proof.
  intros s x.
  apply (update_member_then_up x 0%nat [("a", int 1); ("b", int 2)] 0
           "a" (int 1) (int 7) leaf_a s); try reflexivity.
  apply (bool_decide_unpack _). reflexivity.
Defined.

(** X8: an inserted entry lands next to the focus.  For every array
    entry, with [before] holding the preceding values nearest first:
    after [insert_before(nv)], [up] rebuilds the array with [nv] directly
    before the receiver's value, and after [insert_after(nv)] with [nv]
    directly after it; all other entries keep their order, the new array
    carries the time of the insertion, and the existing objects of the
    store are not written to. *)
Theorem insert_then_up :
  forall (i : Z) (bef aft : LinkedList.t) (v nv : Value) (par : InstanceNode)
         (sn : SchemaNode) (ts : Z) (s : State),
    let e := ArrayEntry i bef aft v par sn ts in
    let now := clock s (ticks s) in
    let x' := replaced par (Ref (length (heap s))) (Z.max now (timestamp par)) in
    let before_es := rev (LinkedList.to_list bef) in
    let after_es := LinkedList.to_list aft in
    (e' <- insert_before e (Cooked nv) ;; up e') s
    = (Ok x',
       mkState (heap s ++ [ArrayValue (before_es ++ [nv; v] ++ after_es) now])
         (clock s) (S (ticks s))) /\
    (e' <- insert_after e (Cooked nv) ;; up e') s
    = (Ok x',
       mkState (heap s ++ [ArrayValue (before_es ++ [v; nv] ++ after_es) now])
         (clock s) (S (ticks s))).
Proof.
  intros i bef aft v nv par sn ts s e now x' before_es after_es. split.
  - unfold bind at 1. unfold e. rewrite insert_before_cooked, entry_zip_up.
    reflexivity.
  - unfold bind at 1. unfold e. rewrite insert_after_cooked, entry_zip_up.
    cbn [LinkedList.to_list rev tick heap clock ticks].
    subst before_es. by rewrite <- app_assoc.
Qed.

(** ** Deleting what is there *)

(** X9: [delete_item] of a member that is present returns a copy of the
    receiver whose value is a new object without that member, the other
    members unchanged and in their order; [delete_item] of an index
    within the array returns a copy whose value is a new array without
    that entry.  In both cases the receiver's own value and every other
    object of the store are left as they were. *)
Theorem delete_item_removes :
  forall (x : InstanceNode) (l : loc) (s : State),
    value x = Ref l ->
    let now := clock s (ticks s) in
    let x' := replaced x (Ref (length (heap s))) now in
    (forall (d : list (string * Value)) (ts : Z) (k : string) (v : Value),
        heap s !! l = Some (ObjectValue d ts) -> NoDup (dict_keys d) ->
        dict_get k d = Some v ->
        exists s',
          delete_item x (KName k) s = (Ok x', s') /\
          heap s' !! length (heap s) = Some (ObjectValue (dict_remove k d) now) /\
          dict_get k (dict_remove k d) = None /\
          (forall k', k' <> k -> dict_get k' (dict_remove k d) = dict_get k' d) /\
          preserved s s') /\
    (forall (es : list Value) (ts : Z) (i : nat) (v : Value),
        heap s !! l = Some (ArrayValue es ts) -> es !! i = Some v ->
        exists s',
          delete_item x (KIndex (Z.of_nat i)) s = (Ok x', s') /\
          heap s' !! length (heap s)
          = Some (ArrayValue (take i es ++ drop (S i) es) now) /\
          preserved s s').
Proof.
  intros x l s Hx now x'. split.
  - intros d ts k v Hl Hnd Hk. eexists. split; [|split; [|split; [|split]]].
    + unfold delete_item, structured, bind, deref. cbv beta.
      rewrite Hx, Hl. cbv beta iota.
      unfold copy, delitem, datetime_now, alloc, store, structured, bind, deref.
      cbn [heap clock ticks]. rewrite lookup_last. unfold dict_pop. rewrite Hk.
      cbn [heap clock ticks]. rewrite insert_last.
      apply (_copy_structured x _ (ObjectValue (dict_remove k d) now)).
      cbn [deref heap]. apply lookup_last.
    + cbn [heap]. apply lookup_last.
    + by apply dict_get_remove_eq.
    + intros k' Hne. by apply dict_get_remove_ne.
    + by eapply preserved_app.
  - intros es ts i v Hl Hv. eexists. split; [|split].
    + unfold delete_item, structured, bind, deref. cbv beta.
      rewrite Hx, Hl. cbv beta iota.
      unfold copy, delitem, datetime_now, alloc, store, structured, bind, deref.
      cbn [heap clock ticks]. rewrite lookup_last. unfold list_delitem.
      rewrite py_index_nat by (by eapply lookup_lt_Some).
      cbn [heap clock ticks]. rewrite insert_last.
      apply (_copy_structured x _ (ArrayValue (take i es ++ drop (S i) es) now)).
      cbn [deref heap]. apply lookup_last.
    + cbn [heap]. apply lookup_last.
    + by eapply preserved_app.
Qed.

Lemma delete_item_removes_witness :
  let s := store_of [ObjectValue [("a", int 1); ("b", int 2)] 0;
                     ArrayValue [int 1; int 2; int 3] 0] in
  let x := RootNode (Ref 0%nat) container_c 0 in
  let y := RootNode (Ref 1%nat) leaf_list_l 0 in
  (exists s',
      delete_item x (KName "a") s = (Ok (replaced x (Ref 2%nat) 0), s') /\
      heap s' !! 2%nat = Some (ObjectValue [("b", int 2)] 0) /\
      preserved s s') /\
  (exists s',
      delete_item y (KIndex 1) s = (Ok (replaced y (Ref 2%nat) 0), s') /\
      heap s' !! 2%nat = Some (ArrayValue [int 1; int 3] 0) /\
      preserved s s').
Proof.
  intros s x y. split.
  - destruct (proj1 (delete_item_removes x 0%nat s eq_refl)
                [("a", int 1); ("b", int 2)] 0 "a" (int 1) eq_refl
                ltac:(apply (bool_decide_unpack _); reflexivity) eq_refl)
      as (s' & H1 & H2 & _ & _ & H5).
    exists s'. split; [exact H1|]. split; [exact H2|exact H5].
  - destruct (proj2 (delete_item_removes y 1%nat s eq_refl)
                [int 1; int 2; int 3] 0 1%nat (int 2) eq_refl eq_refl)
      as (s' & H1 & H2 & H3).
    exists s'. split; [exact H1|]. split; [exact H2|exact H3].
Defined.

(** ** Moving to a sibling member *)

Lemma NoDup_dict_remove {V} (k : string) (d : list (string * V)) :
  NoDup (dict_keys d) -> NoDup (dict_keys (dict_remove k d)).
Proof.
  induction d as [|[k0 v0] d IH]; simpl; [done|].
  intros Hnd. apply NoDup_cons in Hnd as [Hk0 Hnd].
  destruct (String.eqb k k0); [done|]. simpl. apply NoDup_cons. split.
  - intros Hin. apply Hk0. by eapply dict_keys_remove_subset.
  - by apply IH.
Qed.

(** X10: from the member [k] of an object, [sibling(n)] reaches the
    member [n] that descending from the parent reaches: the same name,
    value, parent, schema node and timestamp, with a siblings object that
    holds the same mapping as the one [x[n]] gets (the former focus [k] is
    put back, after the others).  Asking for the focused member itself
    raises [NonexistentInstance].  The objects of the store are left as
    they were. *)
Theorem sibling_reaches_member :
  forall (x : InstanceNode) (l : loc) (d : list (string * Value)) (ts : Z)
         (k n : string) (vk vn : Value) (csk csn : SchemaNode) (s : State),
    value x = Ref l -> heap s !! l = Some (ObjectValue d ts) ->
    NoDup (dict_keys d) ->
    dict_get k d = Some vk -> dict_get n d = Some vn -> k <> n ->
    _member_schema_node x k = Ok csk -> _member_schema_node x n = Ok csn ->
    (exists sl sl0 sibs sts s' s0,
        (m <- getitem x (KName k) ;; sibling m n) s
        = (Ok (ObjectMember n sl vn x csn ts), s') /\
        getitem x (KName n) s = (Ok (ObjectMember n sl0 vn x csn ts), s0) /\
        heap s' !! sl = Some (ObjectValue sibs sts) /\
        (forall k', dict_get k' sibs = dict_get k' (dict_remove n d)) /\
        preserved s s') /\
    (exists s', (m <- getitem x (KName k) ;; sibling m k) s
                = (Raise NonexistentInstance, s') /\ preserved s s').
Proof.
  intros x l d ts k n vk vn csk csn s Hx Hl Hnd Hk Hn Hne Hcsk Hcsn.
  set (remk := dict_remove k d).
  assert (Hn' : dict_get n remk = Some vn)
    by (unfold remk; by rewrite dict_get_remove_ne).
  assert (Hk' : dict_get k remk = None) by (by apply dict_get_remove_eq).
  assert (Hk'' : dict_get k (dict_remove n remk) = None).
  { rewrite dict_get_remove_ne by done. exact Hk'. }
  split.
  - exists (S (length (heap s))), (length (heap s)),
      (dict_remove n remk ++ [(k, vk)]), (clock s (S (ticks s))).
    eexists _, _. split; [|split; [|split; [|split]]].
    + unfold bind at 1. rewrite (getitem_member x l d ts k vk csk s Hx Hl Hk Hcsk).
      unfold sibling, lift, bind at 1. rewrite Hcsn.
      unfold copy, pop, setitem, datetime_now, alloc, store, structured, bind,
        ret, deref.
      cbn [heap clock ticks]. rewrite lookup_last.
      cbn [heap clock ticks]. rewrite lookup_last.
      fold remk. unfold dict_pop. rewrite Hn'.
      cbn [heap clock ticks]. rewrite insert_last, lookup_last.
      cbn [heap clock ticks]. rewrite insert_last.
      rewrite (dict_set_fresh k vk _ Hk'').
      rewrite length_app. cbn [length].
      by replace (length (heap s) + 1)%nat with (S (length (heap s))) by lia.
    + by apply (getitem_member x l d ts n vn csn s).
    + cbn [heap].
      replace (S (length (heap s)))
        with (length (heap s ++ [ObjectValue remk (clock s (ticks s))]))
        by (rewrite length_app; simpl; lia).
      apply lookup_last.
    + intros k'. rewrite dict_get_app_fresh.
      destruct (String.eqb_spec k' k) as [->|Hk'k].
      * rewrite Hk''. by rewrite dict_get_remove_ne, Hk by done.
      * destruct (String.eqb_spec k' n) as [->|Hk'n].
        { rewrite !dict_get_remove_eq; [done|done|].
          by apply NoDup_dict_remove. }
        rewrite !dict_get_remove_ne by done. unfold remk.
        rewrite dict_get_remove_ne by done. by destruct (dict_get k' d).
    + apply (preserved_app _ _ [ObjectValue remk (clock s (ticks s));
                                ObjectValue (dict_remove n remk ++ [(k, vk)])
                                  (clock s (S (ticks s)))]).
      cbn [heap]. by rewrite <- app_assoc.
  - eexists. split.
    + unfold bind at 1. rewrite (getitem_member x l d ts k vk csk s Hx Hl Hk Hcsk).
      unfold sibling, lift, bind at 1. rewrite Hcsk.
      unfold copy, pop, setitem, datetime_now, alloc, store, structured, bind,
        ret, deref.
      cbn [heap clock ticks]. rewrite lookup_last.
      cbn [heap clock ticks]. rewrite lookup_last.
      fold remk. unfold dict_pop. rewrite Hk'. reflexivity.
    + apply (preserved_app _ _ [ObjectValue remk (clock s (ticks s));
                                ObjectValue remk (clock s (S (ticks s)))]).
      cbn [heap]. by rewrite <- app_assoc.
Qed.

Lemma sibling_reaches_member_witness :
  let s := store_of [ObjectValue [("a", int 1); ("b", int 2)] 0] in
  let x := RootNode (Ref 0%nat) container_c 0 in
  (exists sl sl0 sibs sts s' s0,
      (m <- getitem x (KName "a") ;; sibling m "b") s
      = (Ok (ObjectMember "b" sl (int 2) x leaf_b 0), s') /\
      getitem x (KName "b") s = (Ok (ObjectMember "b" sl0 (int 2) x leaf_b 0), s0) /\
      heap s' !! sl = Some (ObjectValue sibs sts) /\
      (forall k', dict_get k' sibs
                  = dict_get k' (dict_remove "b" [("a", int 1); ("b", int 2)])) /\
      preserved s s') /\
  (exists s', (m <- getitem x (KName "a") ;; sibling m "a") s
              = (Raise NonexistentInstance, s') /\ preserved s s').
Proof.
  intros s x.
  apply (sibling_reaches_member x 0%nat [("a", int 1); ("b", int 2)] 0
           "a" "b" (int 1) (int 2) leaf_a leaf_b s); try reflexivity.
  - apply (bool_decide_unpack _). reflexivity.
  - discriminate.
Defined.

(** ** Ascending to the root *)







(** ** Sibling axes *)

Lemma walk_next_entries (par : InstanceNode) (sn : SchemaNode) (ts : Z)
  (aft : LinkedList.t) :
  forall (i : Z) (bef : LinkedList.t) (v : Value),
  exists fs,
    walk next (LinkedList.to_list aft) (ArrayEntry i bef aft v par sn ts) = Ok fs /\
    length fs = length (LinkedList.to_list aft) /\
    forall (j : nat) (a : Value),
      LinkedList.to_list aft !! j = Some a ->
      exists bef' aft',
        fs !! j = Some (ArrayEntry (i + 1 + Z.of_nat j) bef' aft' a par sn ts).
Proof.
  induction aft as [|a aft IH]; intros i bef v.
  - exists []. by repeat split.
  - destruct (IH (i + 1) (LinkedList.cons bef v) a) as (fs & Hw & Hlen & Hfs).
    exists (ArrayEntry (i + 1) (LinkedList.cons bef v) aft a par sn ts :: fs).
    split; [|split].
    + cbn [LinkedList.to_list walk next LinkedList.pop]. by rewrite Hw.
    + simpl. by rewrite Hlen.
    + intros [|j] a' Ha'; simpl in Ha'.
      * injection Ha' as <-. eexists _, _. simpl. by rewrite Z.add_0_r.
      * destruct (Hfs j a' Ha') as (bef' & aft' & Hj).
        exists bef', aft'. simpl. rewrite Hj. do 2 f_equal. lia.
Qed.

Lemma walk_previous_entries (par : InstanceNode) (sn : SchemaNode) (ts : Z)
  (bef : LinkedList.t) :
  forall (i : Z) (aft : LinkedList.t) (v : Value),
  exists ps,
    walk previous (LinkedList.to_list bef) (ArrayEntry i bef aft v par sn ts) = Ok ps /\
    length ps = length (LinkedList.to_list bef) /\
    forall (j : nat) (b : Value),
      LinkedList.to_list bef !! j = Some b ->
      exists bef' aft',
        ps !! j = Some (ArrayEntry (i - 1 - Z.of_nat j) bef' aft' b par sn ts).
Proof.
  induction bef as [|b bef IH]; intros i aft v.
  - exists []. by repeat split.
  - destruct (IH (i - 1) (LinkedList.cons aft v) b) as (ps & Hw & Hlen & Hps).
    exists (ArrayEntry (i - 1) bef (LinkedList.cons aft v) b par sn ts :: ps).
    split; [|split].
    + cbn [LinkedList.to_list walk previous LinkedList.pop]. by rewrite Hw.
    + simpl. by rewrite Hlen.
    + intros [|j] b' Hb'; simpl in Hb'.
      * injection Hb' as <-. eexists _, _. simpl. by rewrite Z.sub_0_r.
      * destruct (Hps j b' Hb') as (bef' & aft' & Hj).
        exists bef', aft'. simpl. rewrite Hj. do 2 f_equal. lia.
Qed.

(** X12: the sibling axes of an array entry never raise when no name is
    given, and they list the other entries outward from the focus: the
    following siblings are one entry per value of [after], in order, with
    the indices [index + 1], [index + 2], ...; the preceding siblings are
    one entry per value of [before], nearest first, with the indices
    [index - 1], [index - 2], ...; all of them keep the parent, the
    schema node and the timestamp of the receiver. *)
Theorem sibling_axes_enumerate_entries :
  forall (i : Z) (bef aft : LinkedList.t) (v : Value) (par : InstanceNode)
         (sn : SchemaNode) (ts : Z),
    let e := ArrayEntry i bef aft v par sn ts in
    exists fs ps,
      _following_siblings e None = Ok fs /\
      _preceding_siblings e None = Ok ps /\
      length fs = length (LinkedList.to_list aft) /\
      length ps = length (LinkedList.to_list bef) /\
      (forall (j : nat) (a : Value),
          LinkedList.to_list aft !! j = Some a ->
          exists bef' aft',
            fs !! j = Some (ArrayEntry (i + 1 + Z.of_nat j) bef' aft' a par sn ts)) /\
      (forall (j : nat) (b : Value),
          LinkedList.to_list bef !! j = Some b ->
          exists bef' aft',
            ps !! j = Some (ArrayEntry (i - 1 - Z.of_nat j) bef' aft' b par sn ts)).
Proof.
  intros i bef aft v par sn ts e.
  destruct (walk_next_entries par sn ts aft i bef v) as (fs & Hf & Hfl & Hfs).
  destruct (walk_previous_entries par sn ts bef i aft v) as (ps & Hp & Hpl & Hps).
  exists fs, ps. unfold e, _following_siblings, _preceding_siblings, other_name.
  by rewrite Hf, Hp.
Qed.

(** ** Looking up a list entry *)

Lemma first_match_by_index (h : list StructuredValue) (ens : list Value)
  (keys : list (string * ScalarValue)) :
  match first_match_index h ens keys with
  | Ok (Some i) =>
      exists v, ens !! i = Some v /\ first_match h ens keys = Ok (Some v) /\
                keys_match h v keys = Ok true /\
                forall (j : nat) (w : Value),
                  (j < i)%nat -> ens !! j = Some w -> keys_match h w keys = Ok false
  | Ok None =>
      first_match h ens keys = Ok None /\
      forall (j : nat) (w : Value), ens !! j = Some w -> keys_match h w keys = Ok false
  | Raise e => first_match h ens keys = Raise e
  end.
Proof.
  induction ens as [|en ens IH]; simpl.
  - split; [done|]. by intros j w Hj.
  - destruct (keys_match h en keys) as [[|]|e] eqn:Hen; [| |done].
    + exists en. repeat split; try done. intros j w Hj. lia.
    + destruct (first_match_index h ens keys) as [[i|]|e]; simpl; [| |done].
      * destruct IH as (v & Hv & Hfm & Hkm & Hearlier).
        exists v. repeat split; try done.
        intros [|j] w Hj Hw; simpl in Hw; [by injection Hw as <-|].
        apply (Hearlier j); [lia|done].
      * destruct IH as [Hfm Hall]. split; [done|].
        intros [|j] w Hw; simpl in Hw; [by injection Hw as <-|]. by eapply Hall.
Qed.

(** X13: [look_up] and [EntryKeys.peek_step] scan a list in the same way.
    On an array-valued node: when the peek finds an entry, [look_up]
    returns the array entry focused on that value, which is the first
    entry whose members equal all the keys; when the peek finds nothing,
    [look_up] raises [NonexistentInstance]; when the peek fails on an
    entry without one of the keys ([KeyError]), [look_up] raises
    [NonexistentInstance], and when it fails on an entry that cannot be
    subscripted ([TypeError]), [InstanceValueError].  [look_up] never
    changes the state. *)
Theorem look_up_agrees_with_peek_step :
  forall (x : InstanceNode) (l : loc) (es : list Value) (ts : Z)
         (keys : list (string * ScalarValue)) (s : State),
    value x = Ref l -> heap s !! l = Some (ArrayValue es ts) ->
    match peek_step (heap s) (EntryKeys keys) (value x) with
    | Ok (Some v) =>
        exists (i : nat) (bef aft : LinkedList.t),
          look_up x keys s
          = (Ok (ArrayEntry (Z.of_nat i) bef aft v x (schema_node x) ts), s) /\
          es !! i = Some v /\ keys_match (heap s) v keys = Ok true /\
          forall (j : nat) (w : Value),
            (j < i)%nat -> es !! j = Some w -> keys_match (heap s) w keys = Ok false
    | Ok None => look_up x keys s = (Raise NonexistentInstance, s)
    | Raise KeyError => look_up x keys s = (Raise NonexistentInstance, s)
    | Raise TypeError => look_up x keys s = (Raise InstanceValueError, s)
    | Raise e => look_up x keys s = (Raise e, s)
    end.
Proof.
  intros x l es ts keys s Hx Hl.
  unfold peek_step, value_iter, look_up, structured, bind, deref.
  rewrite Hx, Hl. cbv beta iota.
  pose proof (first_match_by_index (heap s) es keys) as H.
  destruct (first_match_index (heap s) es keys) as [[i|]|e].
  - destruct H as (v & Hv & -> & Hkm & Hearlier).
    exists i. eexists _, _. split; [|done].
    pose proof (getitem_entry x l es ts i v s Hx Hl Hv) as Hg.
    unfold getitem, structured, bind, deref in Hg.
    rewrite Hx, Hl in Hg. exact Hg.
  - destruct H as [-> _]. reflexivity.
  - rewrite H. by destruct e.
Qed.

Lemma look_up_agrees_with_peek_step_witness :
  let s := store_of [ArrayValue [Ref 1%nat; Ref 2%nat] 0;
                     ObjectValue [("name", Plain (RScalar (SStr "a")));
                                  ("port", int 80)] 0;
                     ObjectValue [("name", Plain (RScalar (SStr "b")));
                                  ("port", int 443)] 0] in
  let x := RootNode (Ref 0%nat) (mkSchemaNode ListNode "server" (Some "m") []) 0 in
  exists (i : nat) (bef aft : LinkedList.t),
    look_up x [("name", SStr "b")] s
    = (Ok (ArrayEntry (Z.of_nat i) bef aft (Ref 2%nat) x (schema_node x) 0), s) /\
    [Ref 1%nat; Ref 2%nat] !! i = Some (Ref 2%nat) /\
    keys_match (heap s) (Ref 2%nat) [("name", SStr "b")] = Ok true /\
    forall (j : nat) (w : Value),
      (j < i)%nat -> [Ref 1%nat; Ref 2%nat] !! j = Some w ->
      keys_match (heap s) w [("name", SStr "b")] = Ok false.
Proof.
  intros s x.
  exact (look_up_agrees_with_peek_step x 0%nat [Ref 1%nat; Ref 2%nat] 0
           [("name", SStr "b")] s eq_refl eq_refl).
Defined.

(** ** Routes: going and peeking *)

Lemma find_index_lookup {A} (eq : A -> bool) (l : list A) (i : nat) :
  find_index eq l = Some i -> exists a, l !! i = Some a /\ eq a = true.
Proof.
  revert i. induction l as [|a l IH]; intros i H; simpl in H; [done|].
  destruct (eq a) eqn:Ha.
  - injection H as <-. by exists a.
  - destruct (find_index eq l) as [j|]; [|done]. injection H as <-.
    destruct (IH j eq_refl) as (b & Hb & Heq). by exists b.
Qed.

Lemma _entry_nat (x : InstanceNode) (l : loc) (es : list Value) (ts : Z)
  (i : nat) (v : Value) (s : State) :
  value x = Ref l -> heap s !! l = Some (ArrayValue es ts) -> es !! i = Some v ->
  _entry x (KIndex (Z.of_nat i)) s
  = (Ok (ArrayEntry (Z.of_nat i)
           (LinkedList.from_list (take i es))
           (LinkedList.from_list (drop (S i) es))
           v x (schema_node x) ts), s).
Proof.
  intros Hx Hl Hv.
  pose proof (getitem_entry x l es ts i v s Hx Hl Hv) as Hg.
  unfold getitem, structured, bind, deref in Hg.
  rewrite Hx, Hl in Hg. exact Hg.
Qed.

Lemma preserved_refl (s : State) : preserved s s.
Proof. by intros a o Ha. Qed.

Lemma preserved_trans (s1 s2 s3 : State) :
  preserved s1 s2 -> preserved s2 s3 -> preserved s1 s3.
Proof. intros H12 H23 a o Ha. by apply H23, H12. Qed.

(** A successful [x[key]] focuses on the value the subscript finds, and
    leaves the objects of the store as they are. *)
Lemma getitem_subscript (x x1 : InstanceNode) (key : InstanceKey) (s s1 : State) :
  getitem x key s = (Ok x1, s1) ->
  subscript (heap s) (value x) key = Ok (value x1) /\ preserved s s1 /\
  parinst x1 = Some x.
Proof.
  intros H.
  unfold getitem, structured, bind, deref in H. cbv beta in H.
  unfold subscript.
  destruct (value x) as [r|l] eqn:Hx; [done|].
  destruct (heap s !! l) as [[d ts|es ts]|] eqn:Hl; cbv beta iota in H; [| |done].
  - unfold _member, structured, bind, deref in H. cbv beta in H.
    rewrite Hx, Hl in H. cbv beta iota in H.
    destruct key as [n|i].
    2:{ unfold copy, datetime_now, alloc, raise, bind in H. done. }
    unfold copy, pop, datetime_now, alloc, store, structured, bind, ret, lift,
      raise, deref in H.
    cbn [heap clock ticks] in H. rewrite lookup_last in H.
    unfold dict_pop in H.
    destruct (dict_get n d) as [v|] eqn:Hk; [|done].
    cbn [heap clock ticks] in H. rewrite insert_last in H.
    destruct (_member_schema_node x n) as [csn|e]; [|done].
    injection H as <- <-. split; [done|].
    split; [by eapply preserved_app|done].
  - unfold _entry, structured, bind, deref in H. cbv beta in H.
    rewrite Hx, Hl in H. cbv beta iota in H.
    destruct key as [n|i]; [done|].
    destruct (list_getitem es i) as [v|] eqn:Hi; [|done].
    injection H as <- <-. split; [done|]. split; [apply preserved_refl|done].
Qed.

(** One step of a route: where [goto_step] succeeds, [peek_step] finds
    the value of the node reached. *)
Lemma goto_step_peek_step (sel : InstanceSelector) (x x1 : InstanceNode)
  (s s1 : State) :
  goto_step sel x s = (Ok x1, s1) ->
  peek_step (heap s) sel (value x) = Ok (Some (value x1)) /\ preserved s s1 /\
  parinst x1 = Some x.
Proof.
  intros H. destruct sel as [key|key|val|keys]; cbn [goto_step] in H.
  - destruct (getitem_subscript _ _ _ _ _ H) as (Hsub & Hp & Hpar).
    split; [|done]. unfold peek_step. by rewrite Hsub.
  - destruct (getitem_subscript _ _ _ _ _ H) as (Hsub & Hp & Hpar).
    split; [|done]. unfold peek_step. by rewrite Hsub.
  - unfold peek_step.
    destruct (value x) as [r|l] eqn:Hx.
    + destruct r as [[n|str|b]|ms|es]; try done.
      * destruct val as [n|sub|b]; try done.
        by destruct (String.index 0 sub str).
      * by destruct (find_index (fun e => value_eq_scalar (Plain e) val) es).
    + unfold structured, bind, deref in H. cbv beta in H.
      destruct (heap s !! l) as [[d ts|es ts]|] eqn:Hl; cbv beta iota in H;
        [done| |done].
      destruct (find_index (fun e => value_eq_scalar e val) es) as [i|] eqn:Hi;
        [|done].
      destruct (find_index_lookup _ _ _ Hi) as (a & Ha & _).
      rewrite (_entry_nat x l es ts i a s Hx Hl Ha) in H.
      injection H as <- <-. rewrite Ha.
      split; [done|]. split; [apply preserved_refl|done].
  - unfold look_up, structured, bind, deref in H. cbv beta in H.
    unfold peek_step, value_iter.
    destruct (value x) as [r|l] eqn:Hx; [done|].
    destruct (heap s !! l) as [[d ts|es ts]|] eqn:Hl; cbv beta iota in H;
      [done| |done].
    pose proof (first_match_by_index (heap s) es keys) as Hfm.
    destruct (first_match_index (heap s) es keys) as [[i|]|e].
    + destruct Hfm as (v & Hv & -> & _).
      rewrite (_entry_nat x l es ts i v s Hx Hl Hv) in H.
      injection H as <- <-. split; [done|]. split; [apply preserved_refl|done].
    + done.
    + by destruct e.
Qed.

Lemma subscript_preserved (s s' : State) (val v : Value) (key : InstanceKey) :
  preserved s s' ->
  subscript (heap s) val key = Ok v -> subscript (heap s') val key = Ok v.
Proof.
  intros Hp. unfold subscript. destruct val as [r|l]; [done|].
  destruct (heap s !! l) as [o|] eqn:Hl.
  - by rewrite (Hp l o Hl).
  - by destruct key.
Qed.

Lemma keys_match_preserved (s s' : State) (en : Value)
  (keys : list (string * ScalarValue)) (b : bool) :
  preserved s s' ->
  keys_match (heap s) en keys = Ok b -> keys_match (heap s') en keys = Ok b.
Proof.
  intros Hp. induction keys as [|[k kv] keys IH]; simpl; [done|].
  destruct (subscript (heap s) en (KName k)) as [v|e] eqn:Hsub; [|done].
  rewrite (subscript_preserved s s' en v (KName k) Hp Hsub).
  by destruct (negb (value_eq_scalar v kv)).
Qed.

Lemma first_match_preserved (s s' : State) (ens : list Value)
  (keys : list (string * ScalarValue)) (o : option Value) :
  preserved s s' ->
  first_match (heap s) ens keys = Ok o -> first_match (heap s') ens keys = Ok o.
Proof.
  intros Hp. induction ens as [|en ens IH]; simpl; [done|].
  destruct (keys_match (heap s) en keys) as [b|e] eqn:Hkm; [|done].
  rewrite (keys_match_preserved s s' en keys b Hp Hkm).
  by destruct b.
Qed.

(** What a peek finds is still found once objects have been added. *)
Lemma peek_step_preserved (s s' : State) (sel : InstanceSelector) (val v : Value) :
  preserved s s' ->
  peek_step (heap s) sel val = Ok (Some v) ->
  peek_step (heap s') sel val = Ok (Some v).
Proof.
  intros Hp. destruct sel as [key|key|sv|keys]; unfold peek_step.
  - destruct (subscript (heap s) val (KName key)) as [w|e] eqn:Hsub.
    + by rewrite (subscript_preserved s s' val w _ Hp Hsub).
    + by destruct e.
  - destruct (subscript (heap s) val (KIndex key)) as [w|e] eqn:Hsub.
    + by rewrite (subscript_preserved s s' val w _ Hp Hsub).
    + by destruct e.
  - destruct val as [r|l]; [done|].
    destruct (heap s !! l) as [o|] eqn:Hl; [|done].
    by rewrite (Hp l o Hl).
  - unfold value_iter. destruct val as [r|l].
    + destruct (raw_iter r) as [rs|e]; [|done].
      by apply first_match_preserved.
    + destruct (heap s !! l) as [o|] eqn:Hl; [|done].
      rewrite (Hp l o Hl). destruct o; by apply first_match_preserved.
Qed.

(** X14: going and peeking agree.  When [goto] reaches a node along a
    route, [peek] from the same starting node along the same route finds
    the value of that node; and [goto] leaves every object of the store
    as it was (it only adds the sibling objects of the members it
    passes). *)
Theorem goto_agrees_with_peek :
  forall (iroute : list InstanceSelector) (x m : InstanceNode) (s s' : State),
    goto x iroute s = (Ok m, s') ->
    peek x iroute s' = (Ok (Some (value m)), s') /\ preserved s s'.
Proof.
  induction iroute as [|sel iroute IH]; intros x m s s' Hgo.
  - injection Hgo as <- <-. split; [done|apply preserved_refl].
  - cbn [goto] in Hgo. unfold bind in Hgo.
    destruct (goto_step sel x s) as [[x1|e] s1] eqn:Hstep; [|done].
    destruct (goto_step_peek_step sel x x1 s s1 Hstep) as (Hpeek1 & Hp1 & _).
    destruct (IH x1 m s1 s' Hgo) as [Hpeek Hp].
    split; [|by eapply preserved_trans].
    unfold peek in *. cbn [peek_from].
    rewrite (peek_step_preserved s s' sel (value x) (value x1)
               (preserved_trans _ _ _ Hp1 Hp) Hpeek1).
    exact Hpeek.
Qed.

Lemma goto_agrees_with_peek_witness :
  let s := store_of [ObjectValue [("a", Ref 1%nat)] 0;
                     ArrayValue [int 1; int 2] 0] in
  let x := RootNode (Ref 0%nat)
             (mkSchemaNode ContainerNode "c" (Some "m")
                [mkSchemaNode LeafListNode "a" (Some "m") []]) 0 in
  let route := [MemberName "a"; EntryValue (SInt 2)] in
  exists (m : InstanceNode) (s' : State),
    goto x route s = (Ok m, s') /\ value m = int 2 /\
    peek x route s' = (Ok (Some (value m)), s') /\ preserved s s'.
Proof.
  intros s x route.
  destruct (goto x route s) as [r s'] eqn:Hgo.
  lazy in Hgo. injection Hgo as <- <-.
  eexists _, _. split; [reflexivity|]. split; [reflexivity|].
  apply (goto_agrees_with_peek route x _ s _). lazy. reflexivity.
Defined.

(** ** Data children *)

Lemma opt_string_eqb_eq (a b : option string) :
  opt_string_eqb a b = true -> a = b.
Proof.
  destruct a as [x|], b as [y|]; simpl; try done.
  intros H. apply String.eqb_eq in H. by subst.
Qed.

Lemma first_found_Forall {A} (Q : A -> Prop) (l : list (option A)) (a : A) :
  Forall (fun o => forall x, o = Some x -> Q x) l ->
  first_found l = Some a -> Q a.
Proof.
  induction 1 as [|o l Ho Hl IH]; simpl; [done|].
  destruct o as [x|]; [|exact IH]. intros [= <-]. by apply Ho.
Qed.

(** X15: what [get_data_child] returns, on a receiver that has the
    method, is a data node with the requested name, listed among the
    children of the node returned as its parent; that parent is the
    receiver or a node that is not a data node (a choice or a case below
    the receiver); and the namespace of the result is the requested one,
    or the receiver's when none is requested (as far as that namespace is
    a non-empty string). *)
Theorem get_data_child_sound :
  forall (self : SchemaNode) (name : string) (ns : option string)
         (parent c : SchemaNode),
    is_InternalNode (sn_cls self) = true ->
    get_data_child self name ns = Some (parent, c) ->
    is_DataNode (sn_cls c) = true /\
    sn_name c = name /\
    In c (sn_children parent) /\
    (parent = self \/ is_DataNode (sn_cls parent) = false) /\
    (let ns := if truthy ns then ns else sn_ns self in
     truthy ns = true -> sn_ns c = ns).
Proof.
  induction self as [cls nm self_ns chs IH] using SchemaNode_nested_ind.
  intros name ns parent c _ H. cbn [get_data_child] in H.
  cbn [sn_ns]. set (ns0 := if truthy ns then ns else self_ns) in *.
  set (self := mkSchemaNode cls nm self_ns chs) in *.
  set (Q := fun a : SchemaNode * SchemaNode =>
              is_DataNode (sn_cls (snd a)) = true /\ sn_name (snd a) = name /\
              In (snd a) (sn_children (fst a)) /\
              (fst a = self \/ is_DataNode (sn_cls (fst a)) = false) /\
              (truthy ns0 = true -> sn_ns (snd a) = ns0)).
  change (Q (parent, c)).
  assert (Hrec : forall ch, In ch chs -> is_DataNode (sn_cls ch) = false ->
                 forall x, get_data_child ch name ns0 = Some x -> Q x).
  { intros ch Hch Hnd [p c'] Hx.
    rewrite List.Forall_forall in IH.
    assert (Hint : is_InternalNode (sn_cls ch) = true) by (by destruct (sn_cls ch)).
    destruct (IH ch Hch name ns0 p c' Hint Hx) as (H1 & H2 & H3 & H4 & H5).
    repeat split; try done.
    - right. by destruct H4 as [->|H4].
    - cbn [snd]. intros Ht. cbv zeta in H5. rewrite Ht in H5. by apply H5. }
  match type of H with
  | ?f chs [] = _ =>
      assert (Hgen : forall cs cands,
                 (forall ch, In ch cs -> In ch chs) ->
                 Forall (fun o => forall x, o = Some x -> Q x) cands ->
                 f cs cands = Some (parent, c) -> Q (parent, c))
  end.
  { clear H. induction cs as [|ch cs IHcs]; intros cands Hsub Hcands Hscan.
    - by eapply first_found_Forall.
    - assert (Hch : In ch chs) by (apply Hsub; by left).
      assert (Hsub' : forall ch', In ch' cs -> In ch' chs)
        by (intros ch' Hin; apply Hsub; by right).
      destruct ((sn_name ch =? name)%string && opt_string_eqb (sn_ns ch) ns0)
        eqn:Hmatch.
      + apply andb_true_iff in Hmatch as [Hname Hns].
        apply String.eqb_eq in Hname. apply opt_string_eqb_eq in Hns.
        destruct (is_DataNode (sn_cls ch)) eqn:Hdata.
        * injection Hscan as <- <-. repeat split; try done. by left.
        * apply (IHcs _ Hsub' (List.Forall_cons _ _ _ (Hrec ch Hch Hdata) Hcands)).
          exact Hscan.
      + destruct (is_choice_or_case (sn_cls ch)) eqn:Hcc.
        * apply (IHcs (cands ++ [get_data_child ch name ns0]) Hsub'); [|exact Hscan].
          apply Forall_app. split; [done|]. apply List.Forall_cons; [|done].
          apply (Hrec ch Hch). by destruct (sn_cls ch).
        * by apply (IHcs cands Hsub'). }
  apply (Hgen chs []); [done|done|exact H].
Qed.

Lemma get_data_child_sound_witness :
  let parent := mkSchemaNode CaseNode "cs" (Some "m") [leaf_a] in
  get_data_child container_with_choice "a" None = Some (parent, leaf_a) /\
  is_DataNode (sn_cls leaf_a) = true /\
  sn_name leaf_a = "a" /\
  In leaf_a (sn_children parent) /\
  (parent = container_with_choice \/ is_DataNode (sn_cls parent) = false) /\
  (truthy (Some "m") = true -> sn_ns leaf_a = Some "m").
Proof.
  intros parent. split; [reflexivity|].
  exact (get_data_child_sound container_with_choice "a" None parent leaf_a
           eq_refl eq_refl).
Defined.

(** X16: a data node directly under the receiver wins.  When one of the
    children of a receiver that has the method is a data node with the
    requested name and namespace, [get_data_child] returns the first such
    child, with the receiver as its parent, whatever the choices and
    cases listed before it contain. *)
Theorem get_data_child_prefers_direct :
  forall (self : SchemaNode) (name : string) (ns : option string) (c : SchemaNode),
    is_InternalNode (sn_cls self) = true ->
    List.find (fun c => String.eqb (sn_name c) name
                        && opt_string_eqb (sn_ns c)
                             (if truthy ns then ns else sn_ns self)
                        && is_DataNode (sn_cls c)) (sn_children self) = Some c ->
    get_data_child self name ns = Some (self, c).
Proof.
  intros [cls nm self_ns chs] name ns c _.
  cbn [sn_ns sn_children get_data_child].
  set (ns0 := if truthy ns then ns else self_ns).
  set (self := mkSchemaNode cls nm self_ns chs).
  match goal with
  | |- _ -> ?f chs [] = _ =>
      assert (Hgen : forall cs cands,
                 List.find (fun c => String.eqb (sn_name c) name
                                     && opt_string_eqb (sn_ns c) ns0
                                     && is_DataNode (sn_cls c)) cs = Some c ->
                 f cs cands = Some (self, c))
  end.
  { induction cs as [|ch cs IH]; intros cands Hfind; simpl in Hfind; [done|].
    destruct ((sn_name ch =? name)%string && opt_string_eqb (sn_ns ch) ns0) eqn:Hm;
      simpl in Hfind.
    - destruct (is_DataNode (sn_cls ch)) eqn:Hd.
      + by injection Hfind as <-.
      + by apply IH.
    - destruct (is_choice_or_case (sn_cls ch)); by apply IH. }
  apply Hgen.
Qed.

Lemma get_data_child_prefers_direct_witness :
  get_data_child container_with_both "a" None = Some (container_with_both, leaf_a).
Proof.
  exact (get_data_child_prefers_direct container_with_both "a" None leaf_a
           eq_refl eq_refl).
Defined.

(** X17: [get_child] and [get_data_child] agree on data nodes.  On a
    receiver that has the two methods, when the child that [get_child]
    finds for a name and a namespace is a data node, [get_data_child]
    returns the same child, with the receiver as its parent. *)
Theorem get_child_data_node_agrees :
  forall (self : SchemaNode) (name : string) (ns : option string) (c : SchemaNode),
    is_InternalNode (sn_cls self) = true ->
    get_child self name ns = Some c -> is_DataNode (sn_cls c) = true ->
    get_data_child self name ns = Some (self, c).
Proof.
  intros [cls nm self_ns chs] name ns c _.
  unfold get_child. cbn [sn_ns sn_children get_data_child].
  set (ns0 := if truthy ns then ns else self_ns).
  set (self := mkSchemaNode cls nm self_ns chs).
  intros Hc Hd.
  match goal with
  | |- ?f chs [] = _ =>
      assert (Hgen : forall cs cands,
                 List.find (fun c => String.eqb (sn_name c) name
                                     && opt_string_eqb (sn_ns c) ns0) cs = Some c ->
                 f cs cands = Some (self, c))
  end.
  { induction cs as [|ch cs IH]; intros cands Hfind; simpl in Hfind; [done|].
    destruct ((sn_name ch =? name)%string && opt_string_eqb (sn_ns ch) ns0) eqn:Hm.
    - injection Hfind as ->. by rewrite Hd.
    - destruct (is_choice_or_case (sn_cls ch)); by apply IH. }
  by apply Hgen.
Qed.

Lemma get_child_data_node_agrees_witness :
  get_child container_c "b" (Some "m") = Some leaf_b /\
  get_data_child container_c "b" (Some "m") = Some (container_c, leaf_b).
Proof.
  split; [reflexivity|].
  exact (get_child_data_node_agrees container_c "b" (Some "m") leaf_b
           eq_refl eq_refl eq_refl).
Defined.

(** ** Schema descendants *)

Lemma schema_descendant_from_app (p1 p2 : list (option string * string)) :
  forall (node : SchemaNode),
    schema_descendant_from node (p1 ++ p2)
    = match schema_descendant_from node p1 with
      | Ok (Some n) => schema_descendant_from n p2
      | Ok None => Ok None
      | Raise e => Raise e
      end.
Proof.
  induction p1 as [|[ns name] p1 IH]; intros node; simpl; [done|].
  destruct (is_InternalNode (sn_cls node)); [|done].
  destruct (get_child node name ns) as [c|]; [apply IH|done].
Qed.

(** X18: [get_schema_descendant] follows a schema address step by step:
    the descendant at an address made of two parts, the second not
    empty, is the descendant, at the second part, of the descendant at
    the first part; a missing node or a node without children on the way
    ends the search in the same way. *)
Theorem get_schema_descendant_app :
  forall (p1 p2 : list (option string * string)) (self : SchemaNode),
    p2 <> [] ->
    get_schema_descendant self (p1 ++ p2)
    = match get_schema_descendant self p1 with
      | Ok (Some n) => get_schema_descendant n p2
      | Ok None => Ok None
      | Raise e => Raise e
      end.
Proof.
  intros p1 p2 self Hp2. unfold get_schema_descendant at 1 2.
  destruct (is_InternalNode (sn_cls self)); [|done].
  rewrite schema_descendant_from_app.
  destruct (schema_descendant_from self p1) as [[n|]|e]; [|done|done].
  unfold get_schema_descendant.
  destruct (is_InternalNode (sn_cls n)) eqn:Hn; [done|].
  destruct p2 as [|[ns name] p2]; [done|]. simpl. by rewrite Hn.
Qed.

Lemma get_schema_descendant_app_witness :
  get_schema_descendant schema_root [(None, "c"); (Some "m", "b")] = Ok (Some leaf_b) /\
  get_schema_descendant schema_root ([(None, "c"); (Some "m", "b")] ++ [(None, "x")])
  = Raise AttributeError.
Proof.
  split; [reflexivity|].
  exact (get_schema_descendant_app [(None, "c"); (Some "m", "b")] [(None, "x")]
           schema_root ltac:(discriminate)).
Defined.

(** ** Change sets *)

Section ChangeSetFacts.
Context {Statement : Type}.

Lemma dict_get_set_ne {V} (k k' : string) (v : V) (d : list (string * V)) :
  k <> k' -> dict_get k (dict_set k' v d) = dict_get k d.
Proof.
  intros Hne. induction d as [|[k0 v0] d IH]; simpl.
  - destruct (String.eqb k k') eqn:E; [|done]. by apply String.eqb_eq in E.
  - destruct (String.eqb k' k0) eqn:E'; simpl.
    + apply String.eqb_eq in E'. subst k0.
      destruct (String.eqb k k') eqn:E; [|done]. by apply String.eqb_eq in E.
    + by rewrite IH.
Qed.

(** The loop of [join] as a fold over the items of the other subset. *)
Lemma join_unfold (self : ChangeSet Statement) (p : list Statement)
  (sub : list (string * ChangeSet Statement)) :
  join self (mkChangeSet p sub)
  = mkChangeSet (patch self ++ p)
      (fold_left (fun res item =>
                    dict_set (fst item)
                      (match dict_get (fst item) (subset self) with
                       | Some mine => join mine (snd item)
                       | None => snd item
                       end) res) sub (subset self)).
Proof.
  cbn [join]. f_equal.
  match goal with
  | |- ?f sub _ = fold_left ?g sub _ =>
      assert (Hgen : forall res, f sub res = fold_left g sub res)
  end.
  { induction sub as [|[n c] sub IH]; intros res; [done|]. apply IH. }
  apply Hgen.
Qed.

Lemma fold_dict_set_get (f : string -> ChangeSet Statement -> ChangeSet Statement)
  (items res : list (string * ChangeSet Statement)) (n : string) :
  NoDup (dict_keys items) ->
  dict_get n (fold_left (fun res item => dict_set (fst item) (f (fst item) (snd item)) res)
                items res)
  = match dict_get n items with
    | Some c => Some (f n c)
    | None => dict_get n res
    end.
Proof.
  revert res. induction items as [|[k c] items IH]; intros res Hnd; [done|].
  apply NoDup_cons in Hnd as [Hk Hnd]. cbn [fold_left fst snd dict_get].
  rewrite (IH _ Hnd).
  destruct (String.eqb n k) eqn:E.
  - apply String.eqb_eq in E. subst k.
    rewrite (proj2 (dict_get_None_notin n items)); [|done].
    apply dict_get_set_eq.
  - destruct (dict_get n items); [done|].
    apply dict_get_set_ne. intros ->. by rewrite String.eqb_refl in E.
Qed.

(** X19: the subsets of a joined change set.  Where the names of the
    other change set's subsets are distinct (they are the keys of a
    dict), the join has the patches of both, the receiver's first; under
    a name that both have it holds the join of the two subsets, and
    under a name that one of them has, that one's subset. *)
Theorem join_get_subset :
  forall (a b : ChangeSet Statement) (n : string),
    NoDup (dict_keys (subset b)) ->
    patch (join a b) = patch a ++ patch b /\
    get_subset (join a b) n
    = match get_subset a n, get_subset b n with
      | Some x, Some y => Some (join x y)
      | Some x, None => Some x
      | None, Some y => Some y
      | None, None => None
      end.
Proof.
  intros a [p sub] n Hnd. rewrite join_unfold. split; [done|].
  unfold get_subset. cbn [subset] in *.
  rewrite (fold_dict_set_get
             (fun k c => match dict_get k (subset a) with
                         | Some mine => join mine c
                         | None => c
                         end) sub (subset a) n Hnd).
  destruct (dict_get n sub), (dict_get n (subset a)); done.
Qed.

Variable argument : Statement -> string.

(** The change set of a statement, from the first component of the path
    inwards. *)
Lemma from_statement_nested (stmt : Statement) :
  from_statement Statement argument stmt
  = fold_right (fun last cs => mkChangeSet [] [(last, cs)])
      (mkChangeSet [stmt] []) (split_on "/" (argument stmt)).
Proof.
  unfold from_statement. generalize (split_on "/" (argument stmt)) as path.
  generalize (mkChangeSet [stmt] []) as leaf.
  intros leaf path. revert leaf.
  induction path as [|n path IH] using rev_ind; intros leaf; [done|].
  rewrite rev_app_distr, fold_right_app. simpl. by rewrite IH.
Qed.

Lemma split_on_nonempty (sep : ascii) (str : string) : split_on sep str <> [].
Proof.
  destruct str as [|c tl]; simpl; [done|].
  destruct (Ascii.eqb c sep); [done|]. by destruct (split_on sep tl).
Qed.

(** X20: the change set made from a statement holds the statement, and
    nothing else, at the path that the statement's argument spells:
    following the components of the argument through the subsets leads
    to the change set whose patch is that one statement and which has no
    subsets; the change set itself has an empty patch. *)
Theorem from_statement_descend :
  forall (stmt : Statement),
    descend (from_statement Statement argument stmt) (split_on "/" (argument stmt))
    = Some (mkChangeSet [stmt] []) /\
    patch (from_statement Statement argument stmt) = [].
Proof.
  intros stmt. rewrite from_statement_nested.
  pose proof (split_on_nonempty "/" (argument stmt)) as Hne.
  split.
  - induction (split_on "/" (argument stmt)) as [|n path IH]; [done|].
    cbn [fold_right descend]. unfold get_subset. cbn [subset dict_get].
    rewrite String.eqb_refl. destruct path as [|n' path]; [done|]. by apply IH.
  - by destruct (split_on "/" (argument stmt)).
Qed.

(** X21: joining the change sets of two statements with the same
    argument gives, at the path of that argument, the patch with both
    statements, the receiver's first. *)
Theorem join_same_target :
  forall (s1 s2 : Statement),
    argument s1 = argument s2 ->
    descend (join (from_statement Statement argument s1)
               (from_statement Statement argument s2))
      (split_on "/" (argument s1))
    = Some (mkChangeSet [s1; s2] []).
Proof.
  intros s1 s2 Harg. rewrite !from_statement_nested, <- Harg.
  induction (split_on "/" (argument s1)) as [|n path IH]; [done|].
  cbn [fold_right]. rewrite join_unfold.
  cbn [fold_left fst snd subset dict_get patch descend app].
  rewrite String.eqb_refl. cbn [dict_set]. rewrite String.eqb_refl.
  unfold get_subset. cbn [subset dict_get]. rewrite String.eqb_refl. exact IH.
Qed.

End ChangeSetFacts.

Lemma join_get_subset_witness :
  let a := mkChangeSet ["r1"] [("x", mkChangeSet ["r2"] [])] in
  let b := mkChangeSet ["r3"] [("x", mkChangeSet ["r4"] []);
                               ("y", mkChangeSet ["r5"] [])] in
  patch (join a b) = ["r1"; "r3"] /\
  get_subset (join a b) "x" = Some (join (mkChangeSet ["r2"] []) (mkChangeSet ["r4"] [])).
Proof.
  intros a b. apply (join_get_subset a b "x").
  apply (bool_decide_unpack _). reflexivity.
Defined.

Lemma join_same_target_witness :
  let argument := fun stmt : string * string => fst stmt in
  descend (join (from_statement _ argument ("a/b", "refine 1"))
             (from_statement _ argument ("a/b", "refine 2")))
    ["a"; "b"]
  = Some (mkChangeSet [("a/b", "refine 1"); ("a/b", "refine 2")] []).
Proof.
  intros argument.
  exact (join_same_target argument ("a/b", "refine 1") ("a/b", "refine 2") eq_refl).
Defined.

(** ** Routes descend *)

Lemma parinst_child (x x1 : InstanceNode) :
  parinst x1 = Some x ->
  depth x1 = S (depth x) /\ root_of x1 = root_of x /\
  exists k, path x1 = path x ++ [k].
Proof.
  destruct x1 as [v sn ts|k sibs v par sn ts|k bef aft v par sn ts]; simpl;
    [done| |]; intros [= ->]; (split; [done|]); (split; [done|]); by eexists.
Qed.

(** X22: every selector of a route descends exactly one level.  The
    node that [goto] reaches has as many more ancestors than the starting
    node as the route has selectors, it hangs below the same root, and
    its path is the path of the starting node followed by one key per
    selector. *)
Theorem goto_descends :
  forall (iroute : list InstanceSelector) (x m : InstanceNode) (s s' : State),
    goto x iroute s = (Ok m, s') ->
    depth m = (depth x + length iroute)%nat /\
    root_of m = root_of x /\
    exists ks, path m = path x ++ ks /\ length ks = length iroute.
Proof.
  induction iroute as [|sel iroute IH]; intros x m s s' Hgo.
  - injection Hgo as <- <-. split; [simpl; lia|]. split; [done|].
    exists []. by rewrite app_nil_r.
  - cbn [goto] in Hgo. unfold bind in Hgo.
    destruct (goto_step sel x s) as [[x1|e] s1] eqn:Hstep; [|done].
    destruct (goto_step_peek_step sel x x1 s s1 Hstep) as (_ & _ & Hpar).
    destruct (parinst_child x x1 Hpar) as (Hd & Hr & k & Hk).
    destruct (IH x1 m s1 s' Hgo) as (Hd' & Hr' & ks & Hks & Hlen).
    split; [simpl; lia|]. split; [congruence|].
    exists (k :: ks). split; [|simpl; lia].
    by rewrite Hks, Hk, <- app_assoc.
Qed.

Lemma goto_descends_witness :
  let s := store_of [ObjectValue [("a", Ref 1%nat)] 0;
                     ArrayValue [int 1; int 2] 0] in
  let x := RootNode (Ref 0%nat)
             (mkSchemaNode ContainerNode "c" (Some "m")
                [mkSchemaNode LeafListNode "a" (Some "m") []]) 0 in
  let route := [MemberName "a"; EntryIndex (-1)] in
  exists (m : InstanceNode) (s' : State),
    goto x route s = (Ok m, s') /\
    path m = [KName "a"; KIndex 1] /\
    depth m = (depth x + length route)%nat /\
    root_of m = root_of x /\
    exists ks, path m = path x ++ ks /\ length ks = length route.
Proof.
  intros s x route.
  destruct (goto x route s) as [r s'] eqn:Hgo.
  lazy in Hgo. injection Hgo as <- <-.
  eexists _, _. split; [reflexivity|]. split; [reflexivity|].
  eapply (goto_descends route x _ s). lazy. reflexivity.
Defined.

(** ** Decoding raw values *)

(** X23: decoding never touches what is already in the store.  Whether
    [from_raw] returns or raises, every object that was in the store is
    still there with the same content, and no object has been removed. *)
Theorem from_raw_preserves_store :
  forall (self : SchemaNode) (val : RawValue) (ns : option string) (s : State),
    preserved s (snd (from_raw self val ns s)) /\
    (length (heap s) <= length (heap (snd (from_raw self val ns s))))%nat.
Proof.
  intros self val ns s.
  destruct (from_raw self val ns s) as [r s'] eqn:H. cbn [snd].
  split.
  - eapply frames_preserved; [apply (frames_from_raw self val ns)|exact H].
  - by destruct (frames_from_raw self val ns (length (heap s)) s r s' (le_n _) H)
      as (_ & Hlen & _).
Qed.

Lemma for_each_append (l : loc) (ens : list RawValue) :
  forall (es0 : list Value) (ts : Z) (s : State),
    heap s !! l = Some (ArrayValue es0 ts) ->
    for_each (fun en => append l (Plain en)) ens s
    = (Ok tt, mkState (<[l := ArrayValue (es0 ++ map Plain ens) ts]> (heap s))
                (clock s) (ticks s)).
Proof.
  induction ens as [|en ens IH]; intros es0 ts s Hl.
  - cbn [for_each map]. rewrite app_nil_r, list_insert_id by done.
    by destruct s.
  - cbn [for_each]. unfold bind at 1, append, bind at 1, structured, deref.
    rewrite Hl. unfold store at 1.
    rewrite (IH (es0 ++ [Plain en]) ts).
    + cbn [heap clock ticks map]. rewrite list_insert_insert_eq.
      by rewrite <- app_assoc.
    + cbn [heap]. apply list_lookup_insert_eq. by eapply lookup_lt_Some.
Qed.

(** X24: [LeafListNode.from_raw] copies what the iteration over the raw
    value yields (the entries of a list, but also the keys of a dict or
    the characters of a string) into one new array, in the same order;
    the array is stamped with the second reading of the clock, the one of
    [time_stamp].  When the raw value cannot be iterated, the error of
    the iteration is raised after the empty array has been created. *)
Theorem from_raw_leaf_list :
  forall (self : SchemaNode) (val : RawValue) (ns : option string) (s : State),
    sn_cls self = LeafListNode ->
    from_raw self val ns s
    = match raw_iter val with
      | Ok ens =>
          (Ok (Ref (length (heap s))),
           mkState (heap s ++ [ArrayValue (map Plain ens) (clock s (S (ticks s)))])
             (clock s) (S (S (ticks s))))
      | Raise e =>
          (Raise e,
           mkState (heap s ++ [ArrayValue [] (clock s (ticks s))])
             (clock s) (S (ticks s)))
      end.
Proof.
  intros self val ns s Hcls.
  assert (H : from_raw self val ns
              = (res <- new_ArrayValue ;;
                 ens <- lift (raw_iter val) ;;
                 _ <- for_each (fun en => append res (Plain en)) ens ;;
                 _ <- time_stamp res ;;
                 ret (Ref res))).
  { destruct val; cbn [from_raw]; by rewrite Hcls. }
  rewrite H. unfold new_ArrayValue, bind at 1, bind at 1, datetime_now, alloc.
  cbn [heap clock ticks]. unfold bind at 1, lift.
  destruct (raw_iter val) as [ens|e]; [|done].
  unfold bind at 1.
  rewrite (for_each_append (length (heap s)) ens [] (clock s (ticks s)))
    by (cbn [heap]; apply lookup_last).
  cbn [heap clock ticks app]. rewrite insert_last.
  unfold bind, time_stamp, bind, datetime_now, structured, deref, store, ret.
  cbn [heap clock ticks]. rewrite lookup_last. cbn [heap clock ticks].
  by rewrite insert_last.
Qed.

Lemma from_raw_leaf_list_witness :
  let s := store_of [] in
  from_raw leaf_list_l (RArray [RScalar (SInt 1); RScalar (SInt 2)]) None s
  = (Ok (Ref 0%nat), mkState [ArrayValue [int 1; int 2] 1] (clock s) 2).
Proof.
  intros s.
  exact (from_raw_leaf_list leaf_list_l
           (RArray [RScalar (SInt 1); RScalar (SInt 2)]) None s eq_refl).
Defined.

(** ** Routes without entry selectors *)

(** X25: [peek] along a route of member names and entry indices never
    raises and never changes the state: whatever the values on the way,
    it returns a value or [None]. *)
Theorem peek_inherited_route_never_raises :
  forall (iroute : list InstanceSelector) (x : InstanceNode) (s : State),
    forallb inherits_peek_step iroute = true ->
    exists o, peek x iroute s = (Ok o, s).
Proof.
  intros iroute x s. unfold peek. generalize (value x).
  induction iroute as [|sel iroute IH]; intros v Hall; [by eexists|].
  cbn [forallb] in Hall. apply andb_prop in Hall as [Hsel Hall].
  cbn [peek_from].
  destruct (peek_step_inherited_never_raises (heap s) v) as [Hm Hi].
  assert (Hstep : exists r, peek_step (heap s) sel v = Ok r).
  { destruct sel as [key|key|sv|keys]; [apply Hm|apply Hi|done|done]. }
  destruct Hstep as [[w|] ->]; [|by eexists].
  destruct (IH w Hall) as [o Ho]. exists o.
  by injection Ho as ->.
Qed.

Lemma peek_inherited_route_never_raises_witness :
  let s := store_of [ObjectValue [("a", Ref 1%nat)] 0;
                     ArrayValue [int 1; int 2] 0] in
  let x := RootNode (Ref 0%nat) container_c 0 in
  exists o, peek x [MemberName "a"; EntryIndex 5; MemberName "b"] s = (Ok o, s).
Proof.
  intros s x.
  exact (peek_inherited_route_never_raises
           [MemberName "a"; EntryIndex 5; MemberName "b"] x s eq_refl).
Defined.

(** ** The parser ends *)

Lemma shrinks_ret {A} (a : A) : shrinks (ret a : P A).
Proof. by intros st r st' [= <- <-]. Qed.

Lemma shrinks_raise {A} (e : Exception) : shrinks (raise e : P A).
Proof. by intros st r st' [= <- <-]. Qed.

Lemma shrinks_fail {A} (e : nat -> Exception) :
  shrinks (fun st => (Raise (e (offset st)), st) : Result A * Parser).
Proof. by intros st r st' [= <- <-]. Qed.

Lemma shrinks_lift {A} (x : Result A) : shrinks (lift x : P A).
Proof. by intros st r st' [= <- <-]. Qed.

Lemma shrinks_bind {A B} (m : P A) (k : A -> P B) :
  shrinks m -> (forall a, shrinks (k a)) -> shrinks (bind m k).
Proof.
  intros Hm Hk st r st' H. unfold bind in H.
  destruct (m st) as [[a|e] st1] eqn:Hms.
  - pose proof (Hm _ _ _ Hms). pose proof (Hk a _ _ _ H). lia.
  - injection H as <- <-. by apply (Hm _ _ _ Hms).
Qed.

Lemma shrinks_advance (n : nat) : shrinks (advance n).
Proof.
  intros st r st' [= <- <-]. cbn [rest]. rewrite length_drop. lia.
Qed.

Lemma shrinks_peek_char : shrinks peek_char.
Proof.
  intros st r st'. unfold peek_char.
  destruct (rest st) eqn:E; intros [= <- <-]; by rewrite E.
Qed.

Lemma peek_char_state (st : Parser) (c : ascii) (st' : Parser) :
  peek_char st = (Ok c, st') -> st' = st /\ rest st <> [].
Proof.
  unfold peek_char. destruct (rest st); [done|]. by intros [= <- <-].
Qed.

Lemma shrinks_char (c : ascii) : shrinks (char c).
Proof.
  unfold char. apply shrinks_bind; [apply shrinks_peek_char|].
  intros x. destruct (Ascii.eqb x c); [apply shrinks_advance|].
  apply (shrinks_fail UnexpectedInput).
Qed.

Lemma consumes_char (c : ascii) : consumes (char c).
Proof.
  intros st a st' H. unfold char, bind in H.
  destruct (peek_char st) as [[x|e] st1] eqn:Hp; [|done].
  apply peek_char_state in Hp as [-> Hne].
  destruct (Ascii.eqb x c); [|done].
  revert H. unfold advance. intros [= _ <-]. cbn [rest]. rewrite length_drop.
  destruct (rest st); [done|]. simpl. lia.
Qed.

Lemma shrinks_one_of (chset : list ascii) : shrinks (one_of chset).
Proof.
  unfold one_of. apply shrinks_bind; [apply shrinks_peek_char|].
  intros x. destruct (existsb (Ascii.eqb x) chset).
  - apply shrinks_bind; [apply shrinks_advance|]. intros _. apply shrinks_ret.
  - apply (shrinks_fail UnexpectedInput).
Qed.

Lemma shrinks_skip_ws : shrinks skip_ws.
Proof. intros st r st' H. unfold skip_ws in H. by apply shrinks_advance in H. Qed.

Lemma shrinks_unsigned_integer : shrinks unsigned_integer.
Proof.
  intros st r st'. unfold unsigned_integer.
  destruct (fst (span is_digit (rest st))) as [|d ds].
  - by intros [= <- <-].
  - apply shrinks_bind; [apply shrinks_advance|].
    intros _. apply shrinks_ret.
Qed.

Lemma shrinks_yang_identifier : shrinks yang_identifier.
Proof.
  intros st r st'. unfold yang_identifier.
  destruct (rest st) as [|c tl] eqn:Hr; [intros [= <- <-]; by rewrite Hr|].
  destruct (is_ident_start c); [|intros [= <- <-]; by rewrite Hr].
  unfold bind, advance, ret. intros [= <- <-].
  cbn [rest]. rewrite length_drop, Hr. simpl. lia.
Qed.

Lemma consumes_yang_identifier : consumes yang_identifier.
Proof.
  intros st a st'. unfold yang_identifier.
  destruct (rest st) as [|c tl] eqn:Hr; [done|].
  destruct (is_ident_start c); [|done].
  unfold bind, advance, ret. intros [= <- <-].
  cbn [rest]. rewrite length_drop, Hr. simpl. lia.
Qed.

Lemma prefixed_name_lengths (st : Parser) (r : Result (string * option string))
  (st' : Parser) :
  prefixed_name st = (r, st') ->
  (length (rest st') <= length (rest st))%nat /\
  (forall a, r = Ok a -> (length (rest st') < length (rest st))%nat).
Proof.
  unfold prefixed_name, bind at 1. intros H.
  destruct (yang_identifier st) as [[i1|e] st1] eqn:Hy.
  2:{ injection H as <- <-. split; [by apply shrinks_yang_identifier in Hy|done]. }
  apply consumes_yang_identifier in Hy.
  destruct (peek_char st1) as [[next|e] st2] eqn:Hp.
  2:{ injection H as <- <-. split; [lia|intros; lia]. }
  destruct (Ascii.eqb next ":").
  2:{ injection H as <- <-. split; [lia|intros; lia]. }
  assert (Hs : shrinks (_ <- advance 1 ;; i2 <- yang_identifier ;; ret (i2, Some i1))).
  { apply shrinks_bind; [apply shrinks_advance|]. intros _.
    apply shrinks_bind; [apply shrinks_yang_identifier|]. intros ?. apply shrinks_ret. }
  apply Hs in H. split; [lia|intros; lia].
Qed.

Lemma shrinks_prefixed_name : shrinks prefixed_name.
Proof. intros st r st' H. by apply prefixed_name_lengths in H as [? _]. Qed.

Lemma consumes_prefixed_name : consumes prefixed_name.
Proof.
  intros st a st' H. apply prefixed_name_lengths in H as [_ H]. by apply (H a).
Qed.

Lemma shrinks_up_to (term : ascii) : shrinks (up_to term).
Proof.
  intros st r st'. unfold up_to.
  destruct (span (fun c => negb (Ascii.eqb c term)) (rest st)) as [a b].
  destruct b; [by intros [= <- <-]|].
  apply shrinks_bind; [apply shrinks_advance|]. intros _. apply shrinks_ret.
Qed.

Section ParserEnds.

Variable parse_value : SchemaNode -> string -> Result ScalarValue.

Lemma shrinks__member_name (sn : SchemaNode) : shrinks (_member_name sn).
Proof.
  unfold _member_name. apply shrinks_bind; [apply shrinks_prefixed_name|].
  intros [name ns]. apply shrinks_bind; [apply shrinks_lift|].
  intros [[parent cn]|]; [|apply shrinks_raise].
  apply shrinks_bind; [apply shrinks_lift|]. intros ?. apply shrinks_ret.
Qed.

Lemma shrinks__get_value (tn : option SchemaNode) :
  shrinks (_get_value parse_value tn).
Proof.
  unfold _get_value.
  apply shrinks_bind; [apply shrinks_skip_ws|]. intros _.
  apply shrinks_bind; [apply shrinks_char|]. intros _.
  apply shrinks_bind; [apply shrinks_skip_ws|]. intros _.
  apply shrinks_bind; [apply shrinks_one_of|]. intros quote.
  apply shrinks_bind; [apply shrinks_up_to|]. intros val.
  apply shrinks_bind; [apply shrinks_skip_ws|]. intros _.
  apply shrinks_bind; [apply shrinks_char|]. intros _.
  destruct tn; [apply shrinks_lift|apply shrinks_raise].
Qed.

(** The loop of [_key_predicates] reads a name in every pass, so it ends
    before the input does. *)
Lemma _key_predicates_ends (fuel : nat) :
  forall (sn : SchemaNode) (sel : list (string * ScalarValue))
         (st : Parser) (r : Result (option InstanceSelector)) (st' : Parser),
    (length (rest st) < fuel)%nat ->
    _key_predicates parse_value fuel sn sel st = (r, st') ->
    (length (rest st') <= length (rest st))%nat /\ r <> Ok None.
Proof.
  induction fuel as [|fuel IH]; intros sn sel st r st' Hfuel H; [lia|].
  cbn [_key_predicates] in H. unfold bind at 1 in H.
  destruct (prefixed_name st) as [[[name ns]|e] st1] eqn:Hpn.
  2:{ injection H as <- <-. split; [by apply shrinks_prefixed_name in Hpn|done]. }
  apply consumes_prefixed_name in Hpn.
  unfold bind at 1, lift at 1 in H.
  destruct (call_get_data_child sn name ns) as [knod|e].
  2:{ injection H as <- <-. split; [lia|done]. }
  unfold bind at 1 in H.
  destruct (_get_value parse_value (option_map snd knod) st1) as [[val|e] st2] eqn:Hgv.
  2:{ injection H as <- <-. apply shrinks__get_value in Hgv. split; [lia|done]. }
  apply shrinks__get_value in Hgv.
  destruct knod as [[parent kn]|].
  2:{ injection H as <- <-. split; [lia|done]. }
  unfold bind at 1, lift at 1 in H.
  destruct (qname parent kn) as [iname|e].
  2:{ injection H as <- <-. split; [lia|done]. }
  destruct (peek_char st2) as [[next|e] st3] eqn:Hp.
  2:{ injection H as <- <-. split; [lia|done]. }
  destruct (Ascii.eqb next "[").
  2:{ injection H as <- <-. split; [lia|done]. }
  unfold bind at 1, advance at 1 in H. unfold bind at 1 in H.
  destruct (skip_ws (mkParser (drop 1 (rest st2)) (offset st2 + 1))) as [[[]|e] st4]
    eqn:Hws.
  2:{ injection H as <- <-. apply shrinks_skip_ws in Hws. cbn [rest] in Hws.
      rewrite length_drop in Hws. split; [lia|done]. }
  apply shrinks_skip_ws in Hws. cbn [rest] in Hws. rewrite length_drop in Hws.
  eapply IH in H; [|lia]. destruct H as [Hlen Hr].
  split; [lia|done].
Qed.

(** The loop of [parse] reads a slash in every pass. *)
Lemma parse_loop_ends (fuel : nat) :
  forall (sn : SchemaNode) (res : InstanceRoute) (st : Parser)
         (r : Result (option InstanceRoute)) (st' : Parser),
    (length (rest st) < fuel)%nat ->
    parse_loop parse_value fuel sn res st = (r, st') -> r <> Ok None.
Proof.
  induction fuel as [|fuel IH]; intros sn res st r st' Hfuel H; [lia|].
  cbn [parse_loop] in H. unfold bind at 1 in H.
  destruct (char "/" st) as [[[]|e] st1] eqn:Hc; [|by injection H as <- <-].
  apply consumes_char in Hc.
  unfold bind at 1 in H.
  destruct (_member_name sn st1) as [[[mnam cn]|e] st2] eqn:Hm;
    [|by injection H as <- <-].
  apply shrinks__member_name in Hm.
  destruct (peek_char st2) as [[next|e] st3] eqn:Hp; [|by injection H as <- <-].
  destruct (Ascii.eqb next "[").
  2:{ eapply (IH cn); [|exact H]. lia. }
  unfold bind at 1, advance at 1 in H. unfold bind at 1 in H.
  destruct (skip_ws (mkParser (drop 1 (rest st2)) (offset st2 + 1))) as [[[]|e] st4]
    eqn:Hws; [|by injection H as <- <-].
  apply shrinks_skip_ws in Hws. cbn [rest] in Hws. rewrite length_drop in Hws.
  unfold bind at 1 in H.
  destruct (peek_char st4) as [[c|e] st5] eqn:Hp4; [|by injection H as <- <-].
  apply peek_char_state in Hp4 as [-> _].
  unfold bind at 1 in H.
  match type of H with
  | match ?selm st4 with _ => _ end = _ =>
      assert (Hsel : forall rs st6, selm st4 = (rs, st6) ->
                (length (rest st6) <= length (rest st4))%nat /\ rs <> Ok None);
      [|destruct (selm st4) as [[[sel|]|e] st6] eqn:Hs]
  end.
  - intros rs st6 Hs. destruct (is_digit c).
    + unfold bind at 1 in Hs.
      destruct (unsigned_integer st4) as [[n|e] st7] eqn:Hu.
      2:{ injection Hs as <- <-. apply shrinks_unsigned_integer in Hu. by split. }
      apply shrinks_unsigned_integer in Hu.
      destruct (n - 1 <? 0); [injection Hs as <- <-; by split|].
      unfold bind at 1 in Hs.
      destruct (skip_ws st7) as [[[]|e] st8] eqn:Hw.
      2:{ injection Hs as <- <-. apply shrinks_skip_ws in Hw. split; [lia|done]. }
      apply shrinks_skip_ws in Hw. unfold bind at 1 in Hs.
      destruct (char "]" st8) as [[[]|e] st9] eqn:Hc9.
      2:{ injection Hs as <- <-. apply shrinks_char in Hc9. split; [lia|done]. }
      apply shrinks_char in Hc9. injection Hs as <- <-. split; [lia|done].
    + destruct (sn_cls cn);
        try (eapply (_key_predicates_ends _ cn []); [|exact Hs]; lia).
      unfold bind at 1 in Hs.
      destruct (char "." st4) as [[[]|e] st7] eqn:Hc7.
      2:{ injection Hs as <- <-. apply shrinks_char in Hc7. by split. }
      apply shrinks_char in Hc7. unfold bind at 1 in Hs.
      destruct (_get_value parse_value (Some cn) st7) as [[v|e] st8] eqn:Hg.
      2:{ injection Hs as <- <-. apply shrinks__get_value in Hg. split; [lia|done]. }
      apply shrinks__get_value in Hg. injection Hs as <- <-. split; [lia|done].
  - destruct (Hsel _ _ eq_refl) as [Hlen _].
    unfold bind at 1, at_end at 1 in H.
    destruct (rest st6) eqn:Hr6; [by injection H as <- <-|].
    eapply (IH cn); [|exact H]. rewrite Hr6. lia.
  - by destruct (Hsel _ _ eq_refl) as [_ Hn].
  - by injection H as <- <-.
Qed.

(** X26: parsing an instance identifier always ends.  Every pass of the
    loop of [parse] reads a slash and every pass of the loop of
    [_key_predicates] reads a name, so neither loop runs for more passes
    than the input has characters: whatever the schema and the text,
    [parse] returns a route or raises. *)
Theorem InstanceIdParser_parse_ends :
  forall (schema : SchemaNode) (text : string),
    (exists route, InstanceIdParser_parse parse_value schema text = Ok (Some route)) \/
    (exists e, InstanceIdParser_parse parse_value schema text = Raise e).
Proof.
  intros schema text. unfold InstanceIdParser_parse.
  destruct (parse_loop parse_value (S (length (list_ascii_of_string text))) schema []
              (mkParser (list_ascii_of_string text) 0)) as [r st'] eqn:H.
  cbn [fst].
  assert (Hr : r <> Ok None).
  { eapply parse_loop_ends; [|exact H]. cbn [rest]. lia. }
  destruct r as [[route|]|e]; [left; by eexists|done|right; by eexists].
Qed.

End ParserEnds.

(** ** Paths of member names *)

Lemma span_all (p : ascii -> bool) (a : list ascii) :
  forallb p a = true -> span p a = (a, []).
Proof.
  induction a as [|x a IH]; simpl; [done|].
  intros H. apply andb_prop in H as [Hx Ha]. by rewrite Hx, IH.
Qed.

Lemma yang_identifier_end (name : list ascii) (off : nat) :
  is_identifier name = true ->
  yang_identifier (mkParser name off)
  = (Ok (string_of_list_ascii name), mkParser [] (off + length name)).
Proof.
  intros Hname. destruct name as [|x body]; [done|].
  simpl in Hname. apply andb_prop in Hname as [Hx Hbody].
  unfold yang_identifier. cbn [rest offset]. rewrite Hx.
  rewrite (span_all is_ident_char body Hbody). cbn [fst].
  unfold bind, advance, ret. cbn [rest offset drop length].
  by rewrite drop_all.
Qed.

Lemma prefixed_name_end (prefix : option (list ascii)) (name : list ascii)
  (off : nat) :
  match prefix with Some p => is_identifier p = true | None => True end ->
  is_identifier name = true ->
  prefixed_name (mkParser (member_token prefix name) off)
  = (Ok (string_of_list_ascii name, option_map string_of_list_ascii prefix),
     mkParser [] (off + length (member_token prefix name))).
Proof.
  intros Hp Hname. unfold prefixed_name, bind at 1.
  destruct prefix as [p|]; cbn [member_token option_map].
  - rewrite (yang_identifier_run p ":" _ off Hp eq_refl).
    unfold peek_char. cbn [rest]. rewrite Ascii.eqb_refl.
    unfold bind, advance, ret. cbn [rest offset drop].
    rewrite (yang_identifier_end name _ Hname).
    rewrite length_app. cbn [length].
    by replace (off + length p + 1 + length name)%nat
      with (off + (length p + S (length name)))%nat by lia.
  - by rewrite (yang_identifier_end name off Hname).
Qed.

Section MemberPaths.

Variable parse_value : SchemaNode -> string -> Result ScalarValue.

(** The loop of the parser on member names only: one pass per name, each
    below the child that the previous name resolved to. *)
Lemma parse_loop_members :
  forall (steps : list (option (list ascii) * list ascii)) (sn : SchemaNode)
         (inames : list string) (res : InstanceRoute) (off fuel : nat),
    steps <> [] -> resolve_members sn steps = Some inames ->
    (length steps <= fuel)%nat ->
    parse_loop parse_value fuel sn res (mkParser (members_text steps) off)
    = (Ok (Some (res ++ map MemberName inames)),
       mkParser [] (off + length (members_text steps))).
Proof.
  induction steps as [|[prefix name] steps IH];
    intros sn inames res off fuel Hne Hres Hfuel; [done|].
  destruct fuel as [|fuel]; [simpl in Hfuel; lia|].
  cbn [resolve_members] in Hres.
  destruct (match prefix with Some p => is_identifier p | None => true end
            && is_identifier name) eqn:Htok; [|done].
  apply andb_prop in Htok as [Hp Hname].
  assert (Hp' : match prefix with Some p => is_identifier p = true | None => True end)
    by (by destruct prefix).
  cbv zeta in Hres.
  destruct (call_get_data_child sn (string_of_list_ascii name)
              (if truthy (option_map string_of_list_ascii prefix)
               then option_map string_of_list_ascii prefix else sn_ns sn))
    as [[[parent cn]|]|e] eqn:Hchild; [|done|done].
  destruct (qname parent cn) as [iname|e] eqn:Hq; [|done].
  destruct (resolve_members cn steps) as [inames'|] eqn:Hrest; [|done].
  injection Hres as <-.
  unfold members_text. cbn [map concat fst snd app].
  fold (members_text steps).
  cbn [parse_loop]. unfold bind at 1. rewrite char_run. unfold bind at 1.
  destruct steps as [|[prefix2 name2] steps].
  - cbn [members_text map concat]. rewrite app_nil_r.
    unfold _member_name, bind at 1. rewrite (prefixed_name_end prefix name _ Hp' Hname).
    unfold bind, lift, ret. rewrite Hchild, Hq.
    unfold peek_char. cbn [rest].
    injection Hrest as <-. cbn [map length]. do 2 f_equal. lia.
  - unfold members_text at 1. cbn [map concat fst snd app].
    fold (members_text steps).
    rewrite (_member_name_run sn parent cn prefix name iname "/" _ _
               Hp' Hname eq_refl ltac:(discriminate) Hchild Hq).
    unfold peek_char at 1. cbn [rest]. cbn [Ascii.eqb Bool.eqb].
    assert (Hfold : "/"%char :: member_token prefix2 name2 ++ members_text steps
                    = members_text ((prefix2, name2) :: steps)) by done.
    rewrite Hfold.
    rewrite (IH cn inames' (res ++ [MemberName iname])
               (off + 1 + length (member_token prefix name))%nat fuel
               ltac:(discriminate) Hrest ltac:(simpl in Hfuel |- *; lia)).
    rewrite <- app_assoc. cbn [map app]. do 2 f_equal.
    rewrite <- Hfold. cbn [length]. rewrite !length_app. cbn [length].
    rewrite ?length_app. lia.
Qed.

Lemma length_members_text (steps : list (option (list ascii) * list ascii)) :
  (length steps <= length (members_text steps))%nat.
Proof.
  induction steps as [|[prefix name] steps IH]; [done|].
  unfold members_text. cbn [map concat fst snd app length].
  fold (members_text steps). rewrite length_app. lia.
Qed.

(** X27: an instance identifier that consists of member names only,
    [/name/name...], each name an identifier with an optional module
    prefix, parses to the route of the members' instance names whenever
    the names resolve one below the other: the first as a data child of
    the schema, every further one as a data child of the node that the
    name before it resolved to. *)
Theorem parse_member_path :
  forall (schema : SchemaNode) (steps : list (option (list ascii) * list ascii))
         (inames : list string),
    steps <> [] -> resolve_members schema steps = Some inames ->
    InstanceIdParser_parse parse_value schema
      (string_of_list_ascii (members_text steps))
    = Ok (Some (map MemberName inames)).
Proof.
  intros schema steps inames Hne Hres. unfold InstanceIdParser_parse.
  rewrite list_ascii_of_string_of_list_ascii.
  rewrite (parse_loop_members steps schema inames [] 0 _ Hne Hres); [done|].
  pose proof (length_members_text steps). lia.
Qed.

End MemberPaths.

Lemma parse_member_path_witness :
  let pv := fun (_ : SchemaNode) (text : string) => Ok (SStr text) in
  InstanceIdParser_parse pv schema_root "/m:c/b"
  = Ok (Some [MemberName "c"; MemberName "b"]).
Proof.
  intros pv.
  exact (parse_member_path pv schema_root
           [(Some ["m"%char], ["c"%char]); (None, ["b"%char])] ["c"; "b"]
           ltac:(discriminate) eq_refl).
Defined.
